(** * decode-serial: a UART frame recogniser over change-based traces

    Shallow embedding of [decode-serial-csv/decode-serial.py]: the classes
    [Channel] and [ChannelCursor] and the generator [recognizeUART].

    Python objects are mutated in place; here every method is a function
    from the object's state to an outcome and the new state.  A raised
    exception keeps the state reached so far, because the source mutates
    [curIndex] before [raiseIfAtEnd] raises.  Where sharing between
    objects matters ([copy.copy] of a cursor) the objects live on a heap.

    Timestamps are Python floats.  The code only adds, subtracts,
    multiplies, divides and compares them, so the embedding is written
    once over an interface [TimeOps] and instantiated twice: with the
    kernel's IEEE-754 binary64 floats, which are the program's own
    arithmetic and replay its runs bit for bit, and with the rationals
    [Q], exact arithmetic without rounding, infinities or NaN, which is
    what the comments of the source reason in and what [Channel] and
    [ChannelCursor] compute when they are given ints or fractions.  What
    is stated for any [TimeOps] holds for the program as it runs; what is
    stated for [Q] holds for the arithmetic without rounding only. *)

From Stdlib Require Import ZArith QArith Lia Lqa Floats Ascii.
From stdpp Require Import base option list gmap strings.

Local Open Scope Z_scope.

(** ** Exceptions and outcomes *)

Inductive exn : Set :=
| AssertionError
| ChannelCursorOutOfRangeException
| ZeroDivisionError
| IndexError
| AttributeError
| OverflowError.

(** [OutOfFuel] is not a Python outcome: it marks a [while] loop unrolled
    further than the fuel given to it.  [advance_total] and
    [recognizeUART_total] show it is never produced. *)
Inductive result (A : Type) : Type :=
| Returned (a : A)
| Raised (e : exn)
| OutOfFuel.

Arguments Returned {A} a.
Arguments Raised {A} e.
Arguments OutOfFuel {A}.

(** ** Timestamps *)

Class TimeOps (T : Type) : Type := {
  t_add : T -> T -> T;
  t_sub : T -> T -> T;
  t_mul : T -> T -> T;
  t_div : T -> T -> T;
  t_gtb : T -> T -> bool;
  t_geb : T -> T -> bool;
  (** an int literal of the source ([0], [1], [2], [10]) as a timestamp *)
  t_of_Z : Z -> T;
  (** [float(n)] for a Python int [n]; [None] is [OverflowError] *)
  t_float : Z -> option T
}.

Definition Qgtb (a b : Q) : bool := negb (Qle_bool a b).
Definition Qgeb (a b : Q) : bool := Qle_bool b a.

#[export] Instance Q_time : TimeOps Q := {|
  t_add := Qplus;
  t_sub := Qminus;
  t_mul := Qmult;
  t_div := Qdiv;
  t_gtb := Qgtb;
  t_geb := Qgeb;
  t_of_Z := inject_Z;
  t_float := fun n => Some (inject_Z n)
|}.

(** The binary64 number nearest to the integer [z], ties to even, and an
    infinity beyond the range of binary64. *)
Definition float_of_Z (z : Z) : float :=
  SF2Prim (SpecFloat.binary_normalize prec emax z 0 false).

(** [float(z)]: Python rounds an int to the nearest binary64 number and
    raises [OverflowError] where that would be an infinity. *)
Definition float_of_int (z : Z) : option float :=
  let f := float_of_Z z in
  if PrimFloat.is_infinity f then None else Some f.

#[export] Instance float_time : TimeOps float := {|
  t_add := PrimFloat.add;
  t_sub := PrimFloat.sub;
  t_mul := PrimFloat.mul;
  t_div := PrimFloat.div;
  t_gtb := fun a b => PrimFloat.ltb b a;
  t_geb := fun a b => PrimFloat.leb b a;
  t_of_Z := float_of_Z;
  t_float := float_of_int
|}.

Declare Scope cursor_scope.
Delimit Scope cursor_scope with cursor.

(** ** class Channel *)

Module Channel.
Section Channel.
Context {T : Type} `{TimeOps T}.

(** [entries] is a Python list while the channel is being filled and a
    tuple after [finishAdding]; [is_tuple] records which. *)
Record t : Type := mk {
  name : string;
  entries : list (T * Z);
  is_tuple : bool
}.

Definition init (name : string) : t := mk name [] false.

(** [self.entries.append(e)]: a tuple has no [append]. *)
Definition append (ch : t) (e : T * Z) : result t :=
  if is_tuple ch then Raised AttributeError
  else Returned (mk (name ch) (entries ch ++ [e]) false).

Definition add (eventTS : T) (eventValue : Z) (ch : t) : result t :=
  match last (entries ch) with
  | None => append ch (eventTS, eventValue)
  | Some prev =>
      if t_gtb eventTS (fst prev) then
        if negb (eventValue =? snd prev) then append ch (eventTS, eventValue)
        else Returned ch
      else Raised AssertionError
  end.

Definition finishAdding (tailLength : T) (ch : t) : result t :=
  if t_gtb tailLength (t_of_Z 0) then
    match last (entries ch) with
    | None => Raised AssertionError
    | Some prev =>
        match append ch (t_add (fst prev) tailLength, snd prev) with
        | Returned ch' => Returned (mk (name ch') (entries ch') true)
        | Raised e => Raised e
        | OutOfFuel => OutOfFuel
        end
    end
  else Returned (mk (name ch) (entries ch) true).

(** The default argument [tailLength=10]. *)
Definition default_tailLength : T := t_of_Z 10.

(** A run of [add] calls, stopping at the first one that raises. *)
Fixpoint add_all (evs : list (T * Z)) (ch : t) : result t :=
  match evs with
  | [] => Returned ch
  | (ts, v) :: evs' =>
      match add ts v ch with
      | Returned ch' => add_all evs' ch'
      | r => r
      end
  end.
End Channel.
Arguments t T : clear implicits.
End Channel.

(** ** class ChannelCursor *)

Module ChannelCursor.
Section ChannelCursor.
Context {T : Type} `{TimeOps T}.

Record t : Type := mk {
  entries : list (T * Z);
  curIndex : nat;
  curPosition : T;
  startOfNextEntry : T
}.

Definition set_curIndex (i : nat) (c : t) : t :=
  mk (entries c) i (curPosition c) (startOfNextEntry c).
Definition set_curPosition (p : T) (c : t) : t :=
  mk (entries c) (curIndex c) p (startOfNextEntry c).
Definition set_startOfNextEntry (s : T) (c : t) : t :=
  mk (entries c) (curIndex c) (curPosition c) s.

(** A method: from the object's state to an outcome and the new state. *)
Definition M (A : Type) : Type := t -> result A * t.

Definition ret {A} (a : A) : M A := fun c => (Returned a, c).
Definition raise {A} (e : exn) : M A := fun c => (Raised e, c).
Definition bind {A B} (m : M A) (k : A -> M B) : M B :=
  fun c =>
    match m c with
    | (Returned a, c') => k a c'
    | (Raised e, c') => (Raised e, c')
    | (OutOfFuel, c') => (OutOfFuel, c')
    end.
Definition get {A} (f : t -> A) : M A := fun c => (Returned (f c), c).
Definition modify (f : t -> t) : M unit := fun c => (Returned tt, f c).
Definition assert (b : bool) : M unit :=
  if b then ret tt else raise AssertionError.

(** [self.entries[i]] *)
Definition entry_at (i : nat) : M (T * Z) :=
  fun c =>
    match entries c !! i with
    | Some e => (Returned e, c)
    | None => (Raised IndexError, c)
    end.

Notation "'let*' x := m 'in' k" := (bind m (fun x => k))
  (at level 10, x name, m at level 100, k at level 200) : cursor_scope.
Local Open Scope cursor_scope.

Definition getStartOfNextEntry : M T :=
  let* i := get curIndex in
  let* n := get (fun c => length (entries c)) in
  if (i <? n - 1)%nat then let* e := entry_at (i + 1) in ret (fst e)
  else let* e := entry_at i in ret (fst e).

(** [ChannelCursor(channel)] *)
Definition init (channel : Channel.t T) : result t :=
  match Channel.entries channel with
  | [] => Raised AssertionError
  | e0 :: _ =>
      let c := mk (Channel.entries channel) 0 (fst e0) (fst e0) in
      match getStartOfNextEntry c with
      | (Returned s, c') => Returned (set_startOfNextEntry s c')
      | (Raised e, _) => Raised e
      | (OutOfFuel, _) => OutOfFuel
      end
  end.

Definition getPosition : M T := get curPosition.

Definition getValue : M Z :=
  let* i := get curIndex in
  let* e := entry_at i in
  ret (snd e).

Definition isAtEnd (c : t) : bool := (length (entries c) <=? curIndex c)%nat.

Definition raiseIfAtEnd : M unit :=
  let* atEnd := get isAtEnd in
  if atEnd then raise ChannelCursorOutOfRangeException else ret tt.

(** The [while] loop of [advance], unrolled at most [fuel] times. *)
Fixpoint advance_loop (fuel : nat) (advanceBy : T) : M unit :=
  let* pos := get curPosition in
  let* next := get startOfNextEntry in
  if t_geb (t_add pos advanceBy) next then
    match fuel with
    | O => fun c => (OutOfFuel, c)
    | S fuel' =>
        let* _ := modify (fun c => set_curIndex (S (curIndex c)) c) in
        let* _ := raiseIfAtEnd in
        let* s := getStartOfNextEntry in
        let* _ := modify (set_startOfNextEntry s) in
        advance_loop fuel' advanceBy
    end
  else
    modify (set_curPosition (t_add pos advanceBy)).

(** Every pass of the loop that does not raise leaves [curIndex] below
    [len(entries)], so [len(entries) + 1] passes are never used up. *)
Definition advance (advanceBy : T) : M unit :=
  fun c => advance_loop (S (length (entries c))) advanceBy c.

Definition advanceUntilChangeTo (targetValue : Z) : M unit :=
  let* _ := raiseIfAtEnd in
  let* origIndex := get curIndex in
  let* next := get startOfNextEntry in
  let* pos := get curPosition in
  let* _ := advance (t_sub next pos) in
  let* i := get curIndex in
  let* _ := assert (negb (i =? origIndex)%nat) in
  let* v := getValue in
  if negb (v =? targetValue) then
    let* next := get startOfNextEntry in
    let* pos := get curPosition in
    advance (t_sub next pos)
  else ret tt.

(** [copy.copy(c)] followed by calls on the copy only: the copy starts
    from the state of [c], and [c] keeps its own state. *)
Definition on_copy {A} (m : M A) : M A :=
  fun c => (fst (m c), c).
End ChannelCursor.
Arguments t T : clear implicits.
Arguments M T : clear implicits.
End ChannelCursor.

(** ** recognizeUART *)

Section Recognizer.
Context {T : Type} `{TimeOps T}.
Import ChannelCursor.

Notation "'let*' x := m 'in' k" := (bind m (fun x => k))
  (at level 10, x name, m at level 100, k at level 200) : cursor_scope.
Local Open Scope cursor_scope.

(** What the generator yields: [(eventStartsAt, data, frameIsValid)]. *)
Definition Frame : Type := T * Z * bool.

(** [for x in range(n)]: sample a bit, weigh it, step one bit period. *)
Fixpoint collect_bits (bitperiod : T) (n : nat) (data factor : Z) : M T Z :=
  match n with
  | O => ret data
  | S n' =>
      let* bit := getValue in
      let* _ := advance bitperiod in
      collect_bits bitperiod n' (data + factor * bit) (factor * 2)
  end.

(** The body of [while True: try: ...], once.  [Returned (Some f)] is a
    [yield f], [Returned None] a [continue]; an exception is handed to
    the [except] clause of the loop. *)
Definition recognize_iter (bitperiod : T) (dataBitsPerFrame : Z)
    (omitInvalidFrames : bool) : M T (option Frame) :=
  let* _ := advanceUntilChangeTo 0 in
  let* eventStartsAt := getPosition in
  let* peeked :=
    on_copy (let* _ := advance (t_div bitperiod (t_of_Z 2)) in getValue) in
  if negb (peeked =? 0) then
    let* _ := advance (t_div bitperiod (t_of_Z 2)) in
    ret None
  else
    let* _ := advance (t_mul bitperiod (t_div (t_of_Z 3) (t_of_Z 2))) in
    let* data := collect_bits bitperiod (Z.to_nat dataBitsPerFrame) 0 1 in
    let* stop := getValue in
    let frameIsValid := stop =? 1 in
    let* _ := advance (t_div bitperiod (t_of_Z 2)) in
    if omitInvalidFrames && negb frameIsValid then ret None
    else ret (Some (eventStartsAt, data, frameIsValid)).

(** The [while True] loop, unrolled at most [fuel] times: the frames
    yielded and how the generator ends.  [ChannelCursorOutOfRangeException]
    is the [break]; any other exception leaves the generator. *)
Fixpoint recognize_loop (fuel : nat) (bitperiod : T) (dataBitsPerFrame : Z)
    (omitInvalidFrames : bool) (c : ChannelCursor.t T)
    : list Frame * result unit :=
  match fuel with
  | O => ([], OutOfFuel)
  | S fuel' =>
      match recognize_iter bitperiod dataBitsPerFrame omitInvalidFrames c with
      | (Returned (Some f), c') =>
          let (fs, r) :=
            recognize_loop fuel' bitperiod dataBitsPerFrame omitInvalidFrames c' in
          (f :: fs, r)
      | (Returned None, c') =>
          recognize_loop fuel' bitperiod dataBitsPerFrame omitInvalidFrames c'
      | (Raised ChannelCursorOutOfRangeException, _) => ([], Returned tt)
      | (Raised e, _) => ([], Raised e)
      | (OutOfFuel, _) => ([], OutOfFuel)
      end
  end.

(** The generator run to its end.  [float(baudrate)] raises
    [OverflowError] for an int beyond the range of binary64, and it is
    zero for the int 0 only, where [1 / float(baudrate)] raises
    [ZeroDivisionError].  Every pass of the loop that does not leave it
    moves [curIndex] forward, so [len(entries) + 1] passes are never used
    up. *)
Definition recognizeUART (channel : Channel.t T) (baudrate : Z)
    (dataBitsPerFrame : Z) (omitInvalidFrames : bool)
    : list Frame * result unit :=
  match ChannelCursor.init channel with
  | Returned c =>
      match t_float baudrate with
      | None => ([], Raised OverflowError)
      | Some rate =>
          if baudrate =? 0 then ([], Raised ZeroDivisionError)
          else
            let bitperiod := t_div (t_of_Z 1) rate in
            recognize_loop (S (length (Channel.entries channel)))
              bitperiod dataBitsPerFrame omitInvalidFrames c
      end
  | Raised e => ([], Raised e)
  | OutOfFuel => ([], OutOfFuel)
  end.
End Recognizer.



(** ** parseSaleaeCSV and the script

    The loader and the command-line script call Python's own [float],
    [int], [str.strip] and ['%c' % n].  They are not code of this
    program: the embedding takes them as parameters, [py_float] and
    [py_int] returning [None] where Python raises [ValueError], [isspace]
    telling the characters [strip()] removes, and [chr_limit] the first
    integer that ['%c'] refuses (256 in Python 2, 0x110000 in Python 3). *)

Inductive error : Type :=
| Exn (e : exn)
| ValueError
| SystemExit (code : Z).

Inductive outcome (A : Type) : Type :=
| Done (a : A)
| Failed (e : error)
| NoFuel.

Arguments Done {A} a.
Arguments Failed {A} e.
Arguments NoFuel {A}.

Definition lift {A : Type} (r : result A) : outcome A :=
  match r with
  | Returned a => Done a
  | Raised e => Failed (Exn e)
  | OutOfFuel => NoFuel
  end.

(** [s.split(sep)] for a separator of one character. *)
Fixpoint split (sep : ascii) (s : string) : list string :=
  match s with
  | EmptyString => [EmptyString]
  | String a s' =>
      if Ascii.eqb a sep then EmptyString :: split sep s'
      else
        match split sep s' with
        | f :: fs => String a f :: fs
        | [] => [String a EmptyString]
        end
  end.

(** [s.lstrip(...)], [s.rstrip(...)] and [s.strip(...)] for the set of
    characters told by [p]. *)
Fixpoint lstrip (p : ascii -> bool) (s : string) : string :=
  match s with
  | EmptyString => EmptyString
  | String a s' => if p a then lstrip p s' else s
  end.

Fixpoint rstrip (p : ascii -> bool) (s : string) : string :=
  match s with
  | EmptyString => EmptyString
  | String a s' =>
      match rstrip p s' with
      | EmptyString => if p a then EmptyString else String a EmptyString
      | r => String a r
      end
  end.

Definition strip (p : ascii -> bool) (s : string) : string :=
  lstrip p (rstrip p s).

(** [tsStr.split(".")[-1]] *)
Definition last_field (s : string) : string :=
  match last (split "." s) with
  | Some f => f
  | None => EmptyString
  end.

Section Loader.
Context {T : Type} `{TimeOps T}.
Variable isspace : ascii -> bool.
Variable py_float : string -> option T.
Variable py_int : string -> option Z.

(** [[ x.strip() for x in line.split(",") ]] *)
Definition comps_of (line : string) : list string :=
  map (strip isspace) (split "," line).

(** [for chanIdx in range(len(channels)):
       channels[chanIdx].add(ts, int(comps[1+chanIdx]))],
    [fields] being [comps[1:]]. *)
Fixpoint add_row (ts : T) (fields : list string) (channels : list (Channel.t T))
    {struct channels} : outcome (list (Channel.t T)) :=
  match channels with
  | [] => Done []
  | ch :: channels' =>
      match fields with
      | [] => Failed (Exn IndexError)
      | field :: fields' =>
          match py_int field with
          | None => Failed ValueError
          | Some v =>
              match lift (Channel.add ts v ch) with
              | Done ch' =>
                  match add_row ts fields' channels' with
                  | Done rest => Done (ch' :: rest)
                  | Failed e => Failed e
                  | NoFuel => NoFuel
                  end
              | Failed e => Failed e
              | NoFuel => NoFuel
              end
          end
      end
  end.

(** The body of [for line in fobject], on [channels], on whether
    [channels] is a tuple by now, and on [tsDecimals].  [channels] starts
    as a list and the header branch leaves a tuple; when the header names
    no channel the tuple is empty, so the next line takes the header
    branch again, where [channels.append] on a tuple raises
    [AttributeError]. *)
Definition parse_line (line : string) (st : list (Channel.t T) * bool * nat)
    : outcome (list (Channel.t T) * bool * nat) :=
  let comps := comps_of line in
  let '(channels, is_tuple, tsDecimals) := st in
  match channels with
  | [] =>
      if String.eqb (hd EmptyString comps) "Time[s]" then
        match tl comps with
        | [] => Done ([], true, tsDecimals)
        | names =>
            if is_tuple then Failed (Exn AttributeError)
            else Done (map Channel.init names, true, tsDecimals)
        end
      else Failed (Exn AssertionError)
  | _ :: _ =>
      let tsStr := rstrip (Ascii.eqb "0") (hd EmptyString comps) in
      match py_float tsStr with
      | None => Failed ValueError
      | Some ts =>
          let tsDecimals' :=
            Nat.max tsDecimals (String.length (last_field tsStr)) in
          match add_row ts (tl comps) channels with
          | Done channels' => Done (channels', is_tuple, tsDecimals')
          | Failed e => Failed e
          | NoFuel => NoFuel
          end
      end
  end.

Fixpoint parse_lines (lines : list string) (st : list (Channel.t T) * bool * nat)
    : outcome (list (Channel.t T) * bool * nat) :=
  match lines with
  | [] => Done st
  | line :: lines' =>
      match parse_line line st with
      | Done st' => parse_lines lines' st'
      | Failed e => Failed e
      | NoFuel => NoFuel
      end
  end.

(** [for chan in channels: chan.finishAdding()] *)
Fixpoint finish_all (channels : list (Channel.t T))
    : outcome (list (Channel.t T)) :=
  match channels with
  | [] => Done []
  | ch :: channels' =>
      match lift (Channel.finishAdding Channel.default_tailLength ch) with
      | Done ch' =>
          match finish_all channels' with
          | Done rest => Done (ch' :: rest)
          | Failed e => Failed e
          | NoFuel => NoFuel
          end
      | Failed e => Failed e
      | NoFuel => NoFuel
      end
  end.

(** [parseSaleaeCSV(fobject)], [fobject] yielding [lines]. *)
Definition parseSaleaeCSV (lines : list string)
    : outcome (list (Channel.t T) * nat) :=
  match parse_lines lines ([], false, 0%nat) with
  | Done (channels, _, tsDecimals) =>
      match finish_all channels with
      | Done channels' => Done (channels', tsDecimals)
      | Failed e => Failed e
      | NoFuel => NoFuel
      end
  | Failed e => Failed e
  | NoFuel => NoFuel
  end.

(** [list(filter(lambda x: x.name == args.channame, channels))], then
    [sys.exit(1)] unless exactly one channel is left. *)
Definition select_channel (channame : string) (channels : list (Channel.t T))
    : outcome (Channel.t T) :=
  match List.filter (fun x => String.eqb (Channel.name x) channame) channels with
  | [channel] => Done channel
  | _ => Failed (SystemExit 1)
  end.
End Loader.

(** [string.ascii_letters + string.digits + ".+-!$:_ "], as character
    codes. *)
Definition acceptable : list Z :=
  map (fun a => Z.of_nat (nat_of_ascii a))
      (String.list_ascii_of_string
         (String.append "abcdefghijklmnopqrstuvwxyz"
            (String.append "ABCDEFGHIJKLMNOPQRSTUVWXYZ"
               (String.append "0123456789" ".+-!$:_ ")))).

(** [printable = '%c' % data], emptied when [printable not in acceptable];
    a string of one character is given by its code. *)
Definition subascii (chr_limit : Z) (data : Z) : outcome (list Z) :=
  if (0 <=? data) && (data <? chr_limit) then
    if existsb (Z.eqb data) acceptable then Done [data] else Done []
  else Failed (Exn OverflowError).

(** The arguments of ["%.*f,%u,%u,%s" % (...)] for one frame. *)
Definition output_row {T : Type} (chr_limit : Z) (decimals : nat)
    (frame : T * Z * bool) : outcome (nat * T * Z * Z * list Z) :=
  let '(ts, data, isValid) := frame in
  match subascii chr_limit data with
  | Done printable =>
      let frameValidDigit := if isValid then 1 else 0 in
      Done (decimals, ts, data, frameValidDigit, printable)
  | Failed e => Failed e
  | NoFuel => NoFuel
  end.

(** The fractional digits counted for a timestamp field:
    [len(comps[0].rstrip('0').split(".")[-1])]. *)
Definition decimals_of (field : string) : nat :=
  String.length (last_field (rstrip (Ascii.eqb "0") field)).

(** [for ts, data, isValid in recognizeUART(...)]: one row printed for each
    frame, up to the first frame whose ['%c'] raises; the recogniser's own
    end comes after its last frame. *)
Fixpoint emit {T : Type} (chr_limit : Z) (decimals : nat)
    (frames : list (T * Z * bool)) (ending : result unit)
    : list (nat * T * Z * Z * list Z) * outcome unit :=
  match frames with
  | [] => ([], lift ending)
  | frame :: frames' =>
      match output_row chr_limit decimals frame with
      | Done row =>
          let '(rows, r) := emit chr_limit decimals frames' ending in
          (row :: rows, r)
      | Failed e => ([], Failed e)
      | NoFuel => ([], NoFuel)
      end
  end.

Section Script.
Context {T : Type} `{TimeOps T}.
Variable isspace : ascii -> bool.
Variable py_float : string -> option T.
Variable py_int : string -> option Z.
Variable chr_limit : Z.

(** The script after [parse_args]: the rows printed below the header line
    and how the run ends.  [all] is the [-a] flag. *)
Definition script (channame : string) (baudrate bits : Z) (all : bool)
    (lines : list string)
    : list (nat * T * Z * Z * list Z) * outcome unit :=
  match parseSaleaeCSV isspace py_float py_int lines with
  | Done (channels, decimals) =>
      match select_channel channame channels with
      | Done channel =>
          let '(frames, ending) := recognizeUART channel baudrate bits (negb all) in
          emit chr_limit decimals frames ending
      | Failed e => ([], Failed e)
      | NoFuel => ([], NoFuel)
      end
  | Failed e => ([], Failed e)
  | NoFuel => ([], NoFuel)
  end.
End Script.

(** *** Readings of plain decimal fields

    On fields made of decimal digits, with at most one point, Python's
    [int] and [float] read the number the digits spell, [float] rounding
    it to the nearest binary64 number.  These readings stand for them
    where a capture is run: [decimal_float] as the program reads it,
    [decimal_Q] without the rounding.  Other fields ([1e-3], [inf], a
    sign) are outside them. *)

Definition digit_of (a : ascii) : option Z :=
  let n := Z.of_nat (nat_of_ascii a) in
  if (48 <=? n) && (n <=? 57) then Some (n - 48) else None.

Fixpoint digits_value (acc : Z) (s : string) : option Z :=
  match s with
  | EmptyString => Some acc
  | String a s' =>
      match digit_of a with
      | Some d => digits_value (10 * acc + d) s'
      | None => None
      end
  end.

Definition decimal_Z (s : string) : option Z :=
  match s with
  | EmptyString => None
  | _ => digits_value 0 s
  end.

Definition decimal_Q (s : string) : option Q :=
  match split "." s with
  | [i] =>
      match i with
      | EmptyString => None
      | _ => option_map inject_Z (digits_value 0 i)
      end
  | [i; f] =>
      match (String.length i + String.length f)%nat with
      | O => None
      | _ =>
          match digits_value 0 i, digits_value 0 f with
          | Some a, Some b =>
              let scale := Z.pow 10 (Z.of_nat (String.length f)) in
              Some (Qmake (a * scale + b) (Z.to_pos scale))
          | _, _ => None
          end
      end
  | _ => None
  end.

(** The binary64 number nearest to [n / 10 ^ k], ties to even, as
    [float] reads a decimal field: the quotient is cut to more bits than
    binary64 keeps, with one more bit set when the division left a
    remainder, and rounded once. *)
Definition nearest_float (n k : Z) : float :=
  let den := 10 ^ k in
  let s := 64 + Z.log2_up den in
  let q := (n * 2 ^ s) / den in
  let sticky := if (n * 2 ^ s) mod den =? 0 then 0 else 1 in
  SF2Prim (SpecFloat.binary_normalize prec emax (2 * q + sticky) (- (s + 1))
             false).

Definition decimal_float (s : string) : option float :=
  match split "." s with
  | [i] =>
      match i with
      | EmptyString => None
      | _ => option_map (fun n => nearest_float n 0) (digits_value 0 i)
      end
  | [i; f] =>
      match (String.length i + String.length f)%nat with
      | O => None
      | _ =>
          option_map (fun n => nearest_float n (Z.of_nat (String.length f)))
                     (digits_value 0 (String.append i f))
      end
  | _ => None
  end.

(** The six ASCII whitespace characters. *)
Definition ascii_space (a : ascii) : bool :=
  let n := nat_of_ascii a in
  (Nat.eqb n 32 || (Nat.leb 9 n && Nat.leb n 13))%bool.

(** The capture given as an example in the script's help text, one string
    for each line, with the line ends. *)
Definition epilog_lines : list string :=
  map (fun l => String.append l (String "010" EmptyString))
    [ "  Time[s], TRACE_A, TRACE_B, UART_TX";
      "  0.000000000000000, 0, 0, 1";
      "  0.362296294000000, 0, 0, 0";
      "  0.362297918000000, 0, 0, 1";
      "  0.362298600000000, 0, 0, 0";
      "  0.362299226000000, 0, 0, 1";
      "  0.362299898000000, 0, 0, 0";
      "  0.362299902000000, 0, 0, 1";
      "  0.362299908000000, 0, 0, 0";
      "  0.362301534000000, 0, 0, 1" ].
(** ** Objects on the heap

    [copy.copy(c)] makes a new cursor object whose attributes are bound to
    the same objects as those of [c]: the two cursors refer to one tuple of
    entries.  To speak about that sharing the cursor and the tuple are put
    on a heap.  A method call on the cursor at [l] reads the object, runs
    the method above and writes the three rebound attributes back; the
    tuple itself is never written. *)

Module Heap.
Section Heap.
Context {T : Type} `{TimeOps T}.

Definition loc : Type := positive.

Inductive obj : Type :=
| Tuple (es : list (T * Z))
| Cursor (entries_ref : loc) (curIndex : nat) (curPosition : T)
         (startOfNextEntry : T).

Definition load (h : gmap loc obj) (l : loc) : option (ChannelCursor.t T) :=
  match h !! l with
  | Some (Cursor r i p s) =>
      match h !! r with
      | Some (Tuple es) => Some (ChannelCursor.mk es i p s)
      | _ => None
      end
  | _ => None
  end.

Definition store (l : loc) (c : ChannelCursor.t T) (h : gmap loc obj)
    : gmap loc obj :=
  match h !! l with
  | Some (Cursor r _ _ _) =>
      <[l := Cursor r (ChannelCursor.curIndex c) (ChannelCursor.curPosition c)
                    (ChannelCursor.startOfNextEntry c)]> h
  | _ => h
  end.

(** [l.m(...)] for a method [m]; [None] when [l] is not a cursor. *)
Definition call {A} (l : loc) (m : ChannelCursor.M T A) (h : gmap loc obj)
    : option (result A * gmap loc obj) :=
  match load h l with
  | Some c => let (r, c') := m c in Some (r, store l c' h)
  | None => None
  end.

(** [copy.copy(l)]: a fresh object with the attributes of [l]. *)
Definition copy (l : loc) (h : gmap loc obj) : option (loc * gmap loc obj) :=
  match h !! l with
  | Some (Cursor r i p s) =>
      let l' := fresh (dom h) in
      Some (l', <[l' := Cursor r i p s]> h)
  | _ => None
  end.

(** The calls that move a cursor. *)
Inductive move : Type :=
| Advance (advanceBy : T)
| AdvanceUntilChangeTo (targetValue : Z).

Definition run_move (mv : move) : ChannelCursor.M T unit :=
  match mv with
  | Advance d => ChannelCursor.advance d
  | AdvanceUntilChangeTo v => ChannelCursor.advanceUntilChangeTo v
  end.

(** A sequence of moves on the cursor at [l], carried on after a call
    that raised (the caller caught the exception). *)
Fixpoint run_moves (l : loc) (mvs : list move) (h : gmap loc obj)
    : option (gmap loc obj) :=
  match mvs with
  | [] => Some h
  | mv :: mvs' =>
      match call l (run_move mv) h with
      | Some (_, h') => run_moves l mvs' h'
      | None => None
      end
  end.
End Heap.
Arguments obj T : clear implicits.
Arguments move T : clear implicits.
End Heap.

(** ** Vocabulary of the properties *)

Import ChannelCursor.

Section Vocabulary.
Context {T : Type} `{TimeOps T}.
Implicit Types (c : ChannelCursor.t T).

(** Index of the entry whose timestamp [getStartOfNextEntry] reads. *)
Definition next_slot c : nat :=
  if (curIndex c <? length (entries c) - 1)%nat then (curIndex c + 1)%nat
  else curIndex c.

(** [startOfNextEntry] holds what [getStartOfNextEntry] would return. *)
Definition in_sync c : Prop :=
  fst <$> (entries c !! next_slot c) = Some (startOfNextEntry c).

(** A cursor that has not run off its entries. *)
Definition wf c : Prop :=
  (curIndex c < length (entries c))%nat /\ in_sync c.

(** The cursor made by [ChannelCursor(ch)] and those reached from it by
    calls that returned.  The cursor left behind by a call that raised is
    not one of them: its [curIndex] has moved past the last entry. *)
Inductive reachable (ch : Channel.t T) : ChannelCursor.t T -> Prop :=
| reach_init c :
    ChannelCursor.init ch = Returned c -> reachable ch c
| reach_advance c d c' :
    reachable ch c -> advance d c = (Returned tt, c') -> reachable ch c'
| reach_advanceUntilChangeTo c v c' :
    reachable ch c -> advanceUntilChangeTo v c = (Returned tt, c') ->
    reachable ch c'.

(** The arithmetic law behind [assert(self.curIndex != origIndex)]:
    stepping by [startOfNextEntry - curPosition] passes the [>=] test of
    [advance].  It holds for exact arithmetic and can fail under
    rounding. *)
Definition self_advancing : Prop :=
  forall pos next : T, t_geb (t_add pos (t_sub next pos)) next = true.

(** The comparisons order the timestamps: [>=] is transitive and follows
    from [>].  Exact arithmetic and binary64 both satisfy it, NaN
    included, with which every comparison is false. *)
Definition ordered : Prop :=
  (forall a b c : T,
     t_geb a b = true -> t_geb b c = true -> t_geb a c = true) /\
  (forall a b : T, t_gtb a b = true -> t_geb a b = true).


(** A method called in a state satisfying [P] returns in a state
    satisfying [Q], or raises an exception in [E]; it does not run out
    of fuel. *)
Definition triple {A} (P : ChannelCursor.t T -> Prop) (m : ChannelCursor.M T A)
    (Q : A -> ChannelCursor.t T -> Prop) (E : exn -> Prop) : Prop :=
  forall c, P c ->
    match m c with
    | (Returned a, c') => Q a c'
    | (Raised e, _) => E e
    | (OutOfFuel, _) => False
    end.

(** A well-formed cursor over [es] at index [i0] or later. *)
Definition inv (es : list (T * Z)) (i0 : nat) c : Prop :=
  wf c /\ entries c = es /\ (i0 <= curIndex c)%nat.

(** What [advanceUntilChangeTo] may raise. *)
Definition seek_exn (e : exn) : Prop :=
  e = ChannelCursorOutOfRangeException \/
  (e = AssertionError /\ ~ self_advancing).

(** How the generator can end once its loop is entered. *)
Definition loop_end (r : result unit) : Prop :=
  r = Returned tt \/ (r = Raised AssertionError /\ ~ self_advancing).

(** Neighbouring entries differ in level. *)
Definition coalesced (es : list (T * Z)) : Prop :=
  forall i a b, es !! i = Some a -> es !! S i = Some b -> snd a <> snd b.

(** Neighbouring entries pass the test of [add]: the later timestamp is
    [>] the earlier one. *)
Definition ascending (es : list (T * Z)) : Prop :=
  forall i a b, es !! i = Some a -> es !! S i = Some b ->
                t_gtb (fst b) (fst a) = true.
End Vocabulary.

(** Timestamps strictly increase, over the rationals. *)
Definition increasing (es : list (Q * Z)) : Prop :=
  forall i a b, es !! i = Some a -> es !! S i = Some b -> (fst a < fst b)%Q.

(** The rows of a capture of the byte 0x41: the line idles high from
    [idle], the start bit falls at [start] and lasts one [bitperiod], the
    data bits 1,0,0,0,0,0,1,0 (least significant first) follow, one row and
    one [bitperiod] each, then the stop bit at level 1. *)
Definition byte_0x41_rows {T : Type} `{TimeOps T} (idle start bitperiod : T)
    : list (T * Z) :=
  (idle, 1) :: (start, 0) ::
  map (fun kb : Z * Z =>
         (t_add start (t_mul (t_of_Z (fst kb)) bitperiod), snd kb))
      [(1, 1); (2, 0); (3, 0); (4, 0); (5, 0); (6, 0); (7, 1); (8, 0); (9, 1)].

(** The entries stored for that capture, with the default tail guard. *)
Definition byte_0x41_entries (idle start bitperiod : Q) : list (Q * Z) :=
  [(idle, 1); (start, 0); ((start + 1 * bitperiod)%Q, 1);
   ((start + 2 * bitperiod)%Q, 0); ((start + 7 * bitperiod)%Q, 1);
   ((start + 8 * bitperiod)%Q, 0); ((start + 9 * bitperiod)%Q, 1);
   ((start + 9 * bitperiod + 10)%Q, 1)].

(** Two timestamps of a capture, [float("0.000874663")] and
    [float("0.00186429")], written exactly. *)
Definition rounding_pos : float := 0x1.ca9347d715615p-11%float.
Definition rounding_next : float := 0x1.e8b662522fa2bp-10%float.

(** The timestamp of a frame. *)
Definition frame_ts {T : Type} (f : T * Z * bool) : T := fst (fst f).


(** ** Vocabulary of the further properties *)

(** The cursors a program reaches when it only steps forward: durations
    are never negative. *)
Inductive forward (ch : Channel.t Q) : ChannelCursor.t Q -> Prop :=
| fwd_init c :
    ChannelCursor.init ch = Returned c -> forward ch c
| fwd_advance c d c' :
    forward ch c -> (0 <= d)%Q -> advance d c = (Returned tt, c') ->
    forward ch c'
| fwd_advanceUntilChangeTo c v c' :
    forward ch c -> advanceUntilChangeTo v c = (Returned tt, c') ->
    forward ch c'.

(** Where a cursor that only stepped forward stands: at or after the
    timestamp of its entry and before that of the next one. *)
Definition within (c : ChannelCursor.t Q) : Prop :=
  exists e, entries c !! curIndex c = Some e /\
            (fst e <= curPosition c)%Q /\
            forall e', entries c !! S (curIndex c) = Some e' ->
                       (curPosition c < fst e')%Q.

(** The level of the trace at time [t]: that of the last entry whose
    timestamp is not after [t] (entries in increasing order); [None]
    before the first entry. *)
Fixpoint level_at (es : list (Q * Z)) (t : Q) : option Z :=
  match es with
  | [] => None
  | e :: es' =>
      if Qle_bool (fst e) t then
        match level_at es' t with
        | Some v => Some v
        | None => Some (snd e)
        end
      else None
  end.

(** The rows at which the level changes: what a change-based trace keeps
    of a sampled one. *)
Fixpoint changes {T : Type} (prev : option Z) (rows : list (T * Z))
    : list (T * Z) :=
  match rows with
  | [] => []
  | r :: rows' =>
      match prev with
      | Some v => if snd r =? v then changes prev rows'
                  else r :: changes (Some (snd r)) rows'
      | None => r :: changes (Some (snd r)) rows'
      end
  end.

(** The validity flag and the data of a frame. *)
Definition frame_valid {T : Type} (f : T * Z * bool) : bool := snd f.
Definition frame_data {T : Type} (f : T * Z * bool) : Z := snd (fst f).

(** [c in s], for a character [c]. *)
Fixpoint has_char (c : ascii) (s : string) : bool :=
  match s with
  | EmptyString => false
  | String a s' => (Ascii.eqb a c || has_char c s')%bool
  end.

(** The row printed for a frame whose data ['%c'] accepts. *)
Definition row_of {T : Type} (decimals : nat) (f : T * Z * bool)
    : nat * T * Z * Z * list Z :=
  (decimals, fst (fst f), frame_data f,
   if frame_valid f then 1 else 0,
   if existsb (Z.eqb (frame_data f)) acceptable then [frame_data f] else []).

(** The channels of a capture as the loader leaves them: frozen, with the
    entries stored by [add], each later than the one before by the test of
    [add] and at another level, followed by the tail guard: the last stored
    timestamp plus ten, as computed, at the last stored level. *)
Definition ready {T : Type} `{TimeOps T} (ch : Channel.t T) : Prop :=
  Channel.is_tuple ch = true /\
  exists real prev,
    Channel.entries ch
    = real ++ [(t_add (fst prev) Channel.default_tailLength, snd prev)] /\
    last real = Some prev /\
    ascending real /\
    coalesced real.
(** * Properties *)

(** ** The cursor, for any timestamp arithmetic *)

Section CursorFacts.
Context {T : Type} `{TimeOps T}.
Implicit Types (c : ChannelCursor.t T) (d : T).

Lemma getStartOfNextEntry_eq c :
  getStartOfNextEntry c =
  match entries c !! next_slot c with
  | Some e => (Returned (fst e), c)
  | None => (Raised IndexError, c)
  end.
Proof.
  unfold getStartOfNextEntry, next_slot, bind, get, entry_at, ret.
  destruct (curIndex c <? length (entries c) - 1)%nat;
    simpl; destruct (entries c !! _); reflexivity.
Qed.

Lemma getValue_eq c :
  getValue c =
  match entries c !! curIndex c with
  | Some e => (Returned (snd e), c)
  | None => (Raised IndexError, c)
  end.
Proof.
  unfold getValue, bind, get, entry_at, ret.
  destruct (entries c !! _); reflexivity.
Qed.

Lemma advance_loop_eq fuel d c :
  advance_loop fuel d c =
  if t_geb (t_add (curPosition c) d) (startOfNextEntry c) then
    match fuel with
    | O => (OutOfFuel, c)
    | S fuel' =>
        let c1 := set_curIndex (S (curIndex c)) c in
        if isAtEnd c1 then (Raised ChannelCursorOutOfRangeException, c1)
        else
          match getStartOfNextEntry c1 with
          | (Returned s, c2) => advance_loop fuel' d (set_startOfNextEntry s c2)
          | (Raised e, c2) => (Raised e, c2)
          | (OutOfFuel, c2) => (OutOfFuel, c2)
          end
    end
  else (Returned tt, set_curPosition (t_add (curPosition c) d) c).
Proof.
  destruct fuel; simpl; unfold bind, get, modify, raiseIfAtEnd, bind, get;
    simpl; destruct (t_geb _ _); try reflexivity.
  destruct (isAtEnd _); reflexivity.
Qed.

Lemma isAtEnd_false c :
  isAtEnd c = false <-> (curIndex c < length (entries c))%nat.
Proof. unfold isAtEnd. rewrite Nat.leb_gt. reflexivity. Qed.

Lemma next_slot_lt c :
  (curIndex c < length (entries c))%nat ->
  (next_slot c < length (entries c))%nat.
Proof.
  unfold next_slot.
  destruct (Nat.ltb_spec (curIndex c) (length (entries c) - 1)); lia.
Qed.

(** Below the end, [getStartOfNextEntry] does not raise. *)
Lemma getStartOfNextEntry_returns c :
  (curIndex c < length (entries c))%nat ->
  exists e, entries c !! next_slot c = Some e /\
            getStartOfNextEntry c = (Returned (fst e), c).
Proof.
  intros Hlt. rewrite getStartOfNextEntry_eq.
  destruct (lookup_lt_is_Some_2 _ _ (next_slot_lt c Hlt)) as [e He].
  exists e. rewrite He. auto.
Qed.

(** One pass of the loop body from a cursor below the end, re-synced. *)
Lemma step_in_sync c e :
  entries c !! next_slot (set_curIndex (S (curIndex c)) c) = Some e ->
  in_sync (set_startOfNextEntry (fst e) (set_curIndex (S (curIndex c)) c)).
Proof. intros He. unfold in_sync, next_slot in *. simpl in *. rewrite He. reflexivity. Qed.

(** What [advance] leaves behind, for any fuel. *)
Lemma advance_loop_outcome fuel d c r c' :
  advance_loop fuel d c = (r, c') ->
  entries c' = entries c /\
  match r with
  | Returned _ =>
      curPosition c' = t_add (curPosition c) d /\
      t_geb (t_add (curPosition c) d) (startOfNextEntry c') = false /\
      ((curIndex c' = curIndex c /\ startOfNextEntry c' = startOfNextEntry c) \/
       ((curIndex c < curIndex c' < length (entries c))%nat /\ in_sync c'))
  | Raised e =>
      e = ChannelCursorOutOfRangeException /\
      (curIndex c < curIndex c')%nat /\
      (length (entries c) <= curIndex c')%nat /\
      curPosition c' = curPosition c
  | OutOfFuel => True
  end.
Proof.
  revert c r c'. induction fuel as [|fuel IH]; intros c r c';
    rewrite advance_loop_eq; destruct (t_geb _ _) eqn:Hge.
  - intros [= <- <-]. auto.
  - intros [= <- <-]. simpl. rewrite Hge. intuition auto.
  - cbv zeta. destruct (isAtEnd _) eqn:Hend.
    + intros [= <- <-]. simpl. split; [reflexivity|].
      unfold isAtEnd in Hend. simpl in Hend. apply Nat.leb_le in Hend.
      repeat split; auto; lia.
    + apply isAtEnd_false in Hend. simpl in Hend.
      destruct (getStartOfNextEntry_returns (set_curIndex (S (curIndex c)) c) Hend)
        as (e & He & ->).
      intros Hrec. pose proof (step_in_sync c e He) as Hsync.
      apply IH in Hrec. simpl in Hrec.
      destruct Hrec as [Hes Hr]. split; [exact Hes|].
      destruct r as [[]|ex|]; auto.
      * destruct Hr as (Hp & Hg & Hi). repeat split; auto.
        right. destruct Hi as [[Hi Hn]|[Hi Hn]].
        -- split; [lia|].
           unfold in_sync, next_slot in *. simpl in *.
           rewrite Hes, Hi, Hn. exact Hsync.
        -- split; [lia|exact Hn].
      * destruct Hr as (-> & Hi & Hl & Hp). repeat split; auto; lia.
  - intros [= <- <-]. simpl. rewrite Hge. intuition auto.
Qed.

(** The fuel handed to the loop by [advance] is never used up. *)
Lemma advance_loop_fuel fuel d c :
  (length (entries c) - curIndex c < fuel)%nat ->
  fst (advance_loop fuel d c) <> OutOfFuel.
Proof.
  revert c. induction fuel as [|fuel IH]; intros c Hf; [lia|].
  rewrite advance_loop_eq. destruct (t_geb _ _); [|simpl; congruence].
  cbv zeta. destruct (isAtEnd _) eqn:Hend; [simpl; congruence|].
  apply isAtEnd_false in Hend. simpl in Hend.
  destruct (getStartOfNextEntry_returns (set_curIndex (S (curIndex c)) c) Hend)
    as (e & He & ->).
  apply IH. simpl. lia.
Qed.

Lemma advance_total d c : fst (advance d c) <> OutOfFuel.
Proof. apply advance_loop_fuel. lia. Qed.

(** [advance] either returns or raises the out-of-range condition. *)
Lemma advance_outcome d c r c' :
  advance d c = (r, c') ->
  entries c' = entries c /\
  match r with
  | Returned _ =>
      curPosition c' = t_add (curPosition c) d /\
      t_geb (t_add (curPosition c) d) (startOfNextEntry c') = false /\
      ((curIndex c' = curIndex c /\ startOfNextEntry c' = startOfNextEntry c) \/
       ((curIndex c < curIndex c' < length (entries c))%nat /\ in_sync c'))
  | Raised e =>
      e = ChannelCursorOutOfRangeException /\
      (curIndex c < curIndex c')%nat /\
      (length (entries c) <= curIndex c')%nat /\
      curPosition c' = curPosition c
  | OutOfFuel => False
  end.
Proof.
  intros Hadv. pose proof (advance_total d c) as Htot. rewrite Hadv in Htot.
  apply advance_loop_outcome in Hadv. destruct r; intuition auto.
Qed.

(** A returning [advance] keeps a cursor well-formed. *)
Lemma advance_wf d c c' :
  wf c -> advance d c = (Returned tt, c') ->
  wf c' /\ entries c' = entries c /\ (curIndex c <= curIndex c')%nat.
Proof.
  intros [Hlt Hs] Hadv. apply advance_outcome in Hadv.
  destruct Hadv as (Hes & _ & _ & [[Hi Hn]|[Hi Hn]]).
  - repeat split; try (rewrite ?Hes; lia); try congruence.
    unfold in_sync, next_slot in *. rewrite Hes, Hi, Hn. exact Hs.
  - repeat split; try (rewrite ?Hes; lia); try congruence.
Qed.

(** When [advance] has moved the cursor to another entry, the target
    position has passed the [>=] test against that entry's timestamp. *)
Lemma advance_loop_crossed fuel d c c' :
  in_sync c -> advance_loop fuel d c = (Returned tt, c') ->
  (curIndex c < curIndex c')%nat ->
  exists e, entries c !! curIndex c' = Some e /\
            t_geb (t_add (curPosition c) d) (fst e) = true.
Proof.
  revert c. induction fuel as [|fuel IH]; intros c Hs;
    rewrite advance_loop_eq; destruct (t_geb _ _) eqn:Hge;
    try discriminate; try (intros [= <-]; simpl; lia).
  cbv zeta. destruct (isAtEnd _) eqn:Hend; [discriminate|].
  apply isAtEnd_false in Hend. simpl in Hend.
  destruct (getStartOfNextEntry_returns (set_curIndex (S (curIndex c)) c) Hend)
    as (e & He & ->).
  intros Hrec Hlt. pose proof (step_in_sync c e He) as Hsync.
  destruct (decide (curIndex c' = S (curIndex c))) as [Heq|Hne].
  - unfold in_sync, next_slot in Hs.
    destruct (Nat.ltb_spec (curIndex c) (length (entries c) - 1)); [|lia].
    destruct (entries c !! (curIndex c + 1)%nat) as [e1|] eqn:He1; [|discriminate].
    injection Hs as Hs. exists e1. rewrite Heq, <- Nat.add_1_r, He1, Hs. auto.
  - pose proof (advance_loop_outcome _ _ _ _ _ Hrec) as (_ & _ & _ & Hi).
    simpl in Hi.
    apply IH in Hrec; [exact Hrec|exact Hsync|simpl].
    destruct Hi as [[Hi _]|[Hi _]]; lia.
Qed.
End CursorFacts.

(** ** Method calls compose *)

Section Triples.
Context {T : Type} `{TimeOps T}.
Implicit Types (c : ChannelCursor.t T) (d : T) (es : list (T * Z)).

Lemma triple_ret {A} (a : A) (P : ChannelCursor.t T -> Prop) Q E :
  (forall c, P c -> Q a c) -> triple P (ret a) Q E.
Proof. intros HPQ c Hc. simpl. auto. Qed.

Lemma triple_get {A} (f : ChannelCursor.t T -> A) (P : ChannelCursor.t T -> Prop) Q E :
  (forall c, P c -> Q (f c) c) -> triple P (get f) Q E.
Proof. intros HPQ c Hc. simpl. auto. Qed.

Lemma triple_bind {A B} (m : ChannelCursor.M T A) (k : A -> ChannelCursor.M T B)
    P Q R E :
  triple P m Q E -> (forall a, triple (Q a) (k a) R E) ->
  triple P (bind m k) R E.
Proof.
  intros Hm Hk c Hc. specialize (Hm c Hc). unfold bind.
  destruct (m c) as [[a|e|] c1]; auto. apply (Hk a c1 Hm).
Qed.

Lemma triple_conseq {A} (m : ChannelCursor.M T A)
    (P P' : ChannelCursor.t T -> Prop) (Q Q' : A -> ChannelCursor.t T -> Prop)
    (E E' : exn -> Prop) :
  triple P' m Q' E' ->
  (forall c, P c -> P' c) -> (forall a c, Q' a c -> Q a c) ->
  (forall e, E' e -> E e) ->
  triple P m Q E.
Proof.
  intros Hm HP HQ HE c Hc. specialize (Hm c (HP c Hc)).
  destruct (m c) as [[a|e|] c1]; auto.
Qed.

(** A call on a copy leaves the cursor where it was. *)
Lemma triple_on_copy {A} (m : ChannelCursor.M T A) P Q E :
  triple P m Q E ->
  triple P (on_copy m) (fun a c => P c /\ exists c1, m c = (Returned a, c1) /\ Q a c1) E.
Proof.
  intros Hm c Hc. specialize (Hm c Hc). unfold on_copy.
  destruct (m c) as [[a|e|] c1]; simpl; eauto.
Qed.

Lemma triple_advance es i0 d :
  triple (inv es i0) (advance d) (fun _ => inv es i0)
         (eq ChannelCursorOutOfRangeException).
Proof.
  intros c (Hwf & Hes & Hi).
  destruct (advance d c) as [r c'] eqn:Hadv.
  pose proof (advance_outcome _ _ _ _ Hadv) as [Hes' Hr].
  destruct r as [[]|e|]; [|intuition auto|exact Hr].
  destruct (advance_wf _ _ _ Hwf Hadv) as (Hwf' & _ & Hle).
  repeat split; try apply Hwf'; [congruence|lia].
Qed.

Lemma triple_getValue es i0 :
  triple (inv es i0) getValue (fun _ => inv es i0) (fun _ => False).
Proof.
  intros c Hinv. rewrite getValue_eq.
  destruct Hinv as ([Hlt Hs] & Hes & Hi).
  destruct (lookup_lt_is_Some_2 _ _ Hlt) as [e ->].
  repeat split; auto.
Qed.

Lemma advanceUntilChangeTo_eq v c :
  advanceUntilChangeTo v c =
  if isAtEnd c then (Raised ChannelCursorOutOfRangeException, c)
  else
    match advance (t_sub (startOfNextEntry c) (curPosition c)) c with
    | (Returned _, c1) =>
        if negb (curIndex c1 =? curIndex c)%nat then
          match getValue c1 with
          | (Returned v1, c2) =>
              if negb (v1 =? v) then
                advance (t_sub (startOfNextEntry c2) (curPosition c2)) c2
              else (Returned tt, c2)
          | (Raised e, c2) => (Raised e, c2)
          | (OutOfFuel, c2) => (OutOfFuel, c2)
          end
        else (Raised AssertionError, c1)
    | (Raised e, c1) => (Raised e, c1)
    | (OutOfFuel, c1) => (OutOfFuel, c1)
    end.
Proof.
  unfold advanceUntilChangeTo, raiseIfAtEnd, bind, get, assert.
  destruct (isAtEnd c); [reflexivity|]. simpl.
  destruct (advance _ c) as [[[]|e|] c1]; try reflexivity.
  destruct (negb _); simpl; [|reflexivity].
  destruct (getValue c1) as [[v1|e|] c2]; try reflexivity.
  destruct (negb _); reflexivity.
Qed.

(** A returning [advanceUntilChangeTo] has moved to a later entry. *)
Lemma triple_advanceUntilChangeTo es i0 v :
  triple (inv es i0) (advanceUntilChangeTo v) (fun _ => inv es (S i0)) seek_exn.
Proof.
  intros c Hinv. rewrite advanceUntilChangeTo_eq.
  destruct (isAtEnd c); [left; reflexivity|].
  pose proof (triple_advance es i0 (t_sub (startOfNextEntry c) (curPosition c)) c Hinv)
    as Hadv.
  destruct (advance _ c) as [[[]|e|] c1] eqn:Eadv; [|left; auto|exact Hadv].
  destruct (Nat.eqb_spec (curIndex c1) (curIndex c)) as [Heq|Hne]; simpl.
  - right. split; [reflexivity|]. intros Hlaw.
    apply advance_outcome in Eadv.
    destruct Eadv as (_ & _ & Hge & [[_ Hn]|[Hlt _]]); [|lia].
    rewrite Hn, Hlaw in Hge. discriminate.
  - assert (Hinv1 : inv es (S i0) c1).
    { destruct Hinv as (Hwf & _ & Hi).
      destruct (advance_wf _ _ _ Hwf Eadv) as (_ & _ & Hle).
      destruct Hadv as (Hwf1 & Hes1 & _). repeat split; try apply Hwf1; auto. lia. }
    pose proof (triple_getValue es (S i0) c1 Hinv1) as Hv.
    destruct (getValue c1) as [[v1|e|] c2]; try contradiction.
    destruct (negb (v1 =? v)); [|exact Hv].
    pose proof (triple_advance es (S i0) (t_sub (startOfNextEntry c2) (curPosition c2)) c2 Hv)
      as Hadv2.
    destruct (advance _ c2) as [[[]|e|] c3]; auto. left. auto.
Qed.
End Triples.

(** ** The recogniser, for any timestamp arithmetic *)

Section RecognizerFacts.
Context {T : Type} `{TimeOps T}.
Implicit Types (c : ChannelCursor.t T) (es : list (T * Z)).

Lemma triple_advance_seek es i0 d :
  triple (inv es i0) (advance d) (fun _ => inv es i0) seek_exn.
Proof.
  eapply triple_conseq; [apply (triple_advance es i0)|auto|intros a c Hc; exact Hc|].
  intros e <-. left. reflexivity.
Qed.

Lemma triple_getValue_seek es i0 :
  triple (inv es i0) getValue (fun _ => inv es i0) seek_exn.
Proof.
  eapply triple_conseq;
    [apply (triple_getValue es i0)|auto|intros a c Hc; exact Hc|contradiction].
Qed.

Lemma triple_collect_bits es i0 bitperiod n data factor :
  triple (inv es i0) (collect_bits bitperiod n data factor)
         (fun _ => inv es i0) seek_exn.
Proof.
  revert data factor. induction n as [|n IH]; intros data factor; simpl.
  - apply triple_ret. auto.
  - eapply triple_bind; [apply triple_getValue_seek|].
    intros bit. eapply triple_bind; [apply triple_advance_seek|].
    intros ?. apply IH.
Qed.

(** One pass of the recogniser's loop moves the cursor to a later entry,
    or raises. *)
Lemma triple_recognize_iter es i0 bitperiod bits omit :
  triple (inv es i0) (recognize_iter bitperiod bits omit)
         (fun _ => inv es (S i0)) seek_exn.
Proof.
  unfold recognize_iter.
  eapply triple_bind; [apply triple_advanceUntilChangeTo|]. intros ?.
  eapply triple_bind with (Q := fun _ => inv es (S i0));
    [apply triple_get; auto|]. intros stamp.
  eapply triple_bind with (Q := fun _ => inv es (S i0)).
  { eapply triple_conseq; [apply triple_on_copy|..].
    - eapply triple_bind; [apply triple_advance_seek|].
      intros ?. apply triple_getValue_seek.
    - intros c Hc. exact Hc.
    - intros pv c [Hc _]. exact Hc.
    - auto. }
  intros peeked. destruct (negb (peeked =? 0)).
  - eapply triple_bind; [apply triple_advance_seek|].
    intros ?. apply triple_ret. auto.
  - eapply triple_bind; [apply triple_advance_seek|]. intros ?.
    eapply triple_bind; [apply triple_collect_bits|]. intros data.
    eapply triple_bind; [apply triple_getValue_seek|]. intros stop.
    eapply triple_bind; [apply triple_advance_seek|]. intros ?.
    destruct (omit && negb (stop =? 1)); apply triple_ret; auto.
Qed.

Lemma recognize_loop_ends fuel es i0 bitperiod bits omit c :
  inv es i0 c -> (length es - i0 < fuel)%nat ->
  loop_end (snd (recognize_loop fuel bitperiod bits omit c)).
Proof.
  revert i0 c. induction fuel as [|fuel IH]; intros i0 c Hinv Hfuel; [lia|].
  simpl. pose proof (triple_recognize_iter es i0 bitperiod bits omit c Hinv) as Hit.
  destruct (recognize_iter bitperiod bits omit c) as [[o|e|] c'];
    [| |contradiction].
  - assert (Hf : (length es - S i0 < fuel)%nat).
    { destruct Hit as ([Hlt _] & Hes & Hi). rewrite Hes in Hlt. lia. }
    specialize (IH (S i0) c' Hit Hf).
    destruct o as [f|]; [|exact IH].
    destruct (recognize_loop fuel bitperiod bits omit c'). exact IH.
  - destruct Hit as [->|[-> Hlaw]]; [left; reflexivity|right; auto].
Qed.

Lemma init_inv (ch : Channel.t T) :
  Channel.entries ch <> [] ->
  exists c, ChannelCursor.init ch = Returned c /\ inv (Channel.entries ch) 0 c.
Proof.
  intros Hne. unfold ChannelCursor.init.
  destruct (Channel.entries ch) as [|e0 es'] eqn:Hes; [contradiction|].
  set (c0 := ChannelCursor.mk (e0 :: es') 0 (fst e0) (fst e0)).
  assert (Hlt : (curIndex c0 < length (entries c0))%nat) by (simpl; lia).
  destruct (getStartOfNextEntry_returns c0 Hlt) as (e & He & ->).
  eexists. split; [reflexivity|].
  repeat split; simpl; try lia.
  unfold in_sync. simpl. change (next_slot _) with (next_slot c0).
  change (e0 :: es') with (entries c0). rewrite He. reflexivity.
Qed.

(** All the ways [recognizeUART] can end, for any arithmetic: normally;
    by the assertion of the constructor on a channel without entries; by
    the overflow of [float(baudrate)]; by the division at baud rate zero;
    by the assertion of [advanceUntilChangeTo] where the arithmetic is not
    [self_advancing].  It never runs out of fuel and never raises the
    out-of-range condition. *)
Lemma recognizeUART_ends (ch : Channel.t T) baudrate bits omit :
  let r := snd (recognizeUART ch baudrate bits omit) in
  (Channel.entries ch = [] /\ r = Raised AssertionError) \/
  (Channel.entries ch <> [] /\ t_float baudrate = None
   /\ r = Raised OverflowError) \/
  (Channel.entries ch <> [] /\ t_float baudrate <> None /\ baudrate = 0
   /\ r = Raised ZeroDivisionError) \/
  (Channel.entries ch <> [] /\ t_float baudrate <> None /\ baudrate <> 0
   /\ loop_end r).
Proof.
  unfold recognizeUART.
  destruct (decide (Channel.entries ch = [])) as [Hnil|Hne].
  - left. unfold ChannelCursor.init. rewrite Hnil. auto.
  - right. destruct (init_inv ch Hne) as (c & -> & Hinv).
    destruct (t_float baudrate) as [rate|]; [right|left; auto].
    destruct (Z.eqb_spec baudrate 0) as [->|Hb].
    + left. repeat split; auto.
    + right. split; [exact Hne|]. split; [discriminate|]. split; [exact Hb|].
      eapply recognize_loop_ends; [exact Hinv|lia].
Qed.

Lemma recognizeUART_total (ch : Channel.t T) baudrate bits omit :
  snd (recognizeUART ch baudrate bits omit) <> OutOfFuel.
Proof.
  pose proof (recognizeUART_ends ch baudrate bits omit) as Hr. simpl in Hr.
  intros Hf. rewrite Hf in Hr. unfold loop_end in Hr.
  intuition discriminate.
Qed.
End RecognizerFacts.

(** ** The channel, for any timestamp arithmetic *)

Section ChannelFacts.
Context {T : Type} `{TimeOps T}.
Implicit Types (ch : Channel.t T) (es : list (T * Z)).

Lemma lookup_snoc_S es (e b : T * Z) i :
  (es ++ [e]) !! S i = Some b ->
  es !! S i = Some b \/ (S i = length es /\ b = e).
Proof.
  intros Hb. destruct (decide (S i < length es)%nat) as [Hlt|Hge].
  - left. rewrite lookup_app_l in Hb; auto.
  - right. rewrite lookup_app_r in Hb by lia.
    destruct (S i - length es)%nat as [|k] eqn:Hk; simpl in Hb.
    + injection Hb as <-. split; [lia|reflexivity].
    + rewrite lookup_nil in Hb. discriminate.
Qed.

Lemma last_lookup_pred es (a : T * Z) i :
  S i = length es -> es !! i = Some a -> last es = Some a.
Proof.
  intros Hlen Ha. rewrite last_lookup. rewrite <- Hlen. simpl. exact Ha.
Qed.

(** Appending an entry that passes the two tests of [add] keeps the
    sequence ascending and coalesced. *)
Lemma ascending_snoc es e :
  ascending es ->
  (forall prev, last es = Some prev -> t_gtb (fst e) (fst prev) = true) ->
  ascending (es ++ [e]).
Proof.
  intros Hasc Hlast i a b Ha Hb.
  destruct (lookup_snoc_S _ _ _ _ Hb) as [Hb'|[Hlen ->]].
  - rewrite lookup_app_l in Ha by (apply lookup_lt_Some in Hb'; lia). eauto.
  - rewrite lookup_app_l in Ha by lia. eauto using last_lookup_pred.
Qed.

Lemma coalesced_snoc es e :
  coalesced es ->
  (forall prev, last es = Some prev -> snd prev <> snd e) ->
  coalesced (es ++ [e]).
Proof.
  intros Hco Hlast i a b Ha Hb.
  destruct (lookup_snoc_S _ _ _ _ Hb) as [Hb'|[Hlen ->]].
  - rewrite lookup_app_l in Ha by (apply lookup_lt_Some in Hb'; lia). eauto.
  - rewrite lookup_app_l in Ha by lia. eauto using last_lookup_pred.
Qed.

Lemma add_keeps ch ts v ch' :
  Channel.add ts v ch = Returned ch' ->
  ascending (Channel.entries ch) -> coalesced (Channel.entries ch) ->
  ascending (Channel.entries ch') /\ coalesced (Channel.entries ch').
Proof.
  unfold Channel.add, Channel.append. intros Hadd Hasc Hco.
  destruct (last (Channel.entries ch)) as [prev|] eqn:Hlast.
  - destruct (t_gtb ts (fst prev)) eqn:Hgt; [|discriminate].
    destruct (Z.eqb_spec v (snd prev)) as [Heq|Hne]; simpl in Hadd.
    + injection Hadd as <-. auto.
    + destruct (Channel.is_tuple ch); [discriminate|].
      injection Hadd as <-. simpl. split.
      * apply ascending_snoc; auto. intros p Hp. simpl. congruence.
      * apply coalesced_snoc; auto. intros p Hp. simpl. congruence.
  - destruct (Channel.is_tuple ch); [discriminate|].
    injection Hadd as <-. simpl.
    apply last_None in Hlast. rewrite Hlast. simpl.
    split; intros [|i] a b Ha Hb; discriminate.
Qed.

Lemma add_all_keeps evs ch ch' :
  Channel.add_all evs ch = Returned ch' ->
  ascending (Channel.entries ch) -> coalesced (Channel.entries ch) ->
  ascending (Channel.entries ch') /\ coalesced (Channel.entries ch').
Proof.
  revert ch. induction evs as [|[ts v] evs IH]; intros ch; simpl.
  - intros [= <-]. auto.
  - destruct (Channel.add ts v ch) as [ch1|e|] eqn:Hadd; try discriminate.
    intros Hall Hasc Hco.
    destruct (add_keeps _ _ _ _ Hadd Hasc Hco). eauto.
Qed.

(** What [finishAdding] stores when it returns. *)
Lemma finishAdding_entries tailLength ch ch' :
  Channel.finishAdding tailLength ch = Returned ch' ->
  (t_gtb tailLength (t_of_Z 0) = true /\
   exists prev, last (Channel.entries ch) = Some prev /\
     Channel.entries ch' =
     Channel.entries ch ++ [(t_add (fst prev) tailLength, snd prev)]) \/
  (t_gtb tailLength (t_of_Z 0) = false /\
   Channel.entries ch' = Channel.entries ch).
Proof.
  unfold Channel.finishAdding, Channel.append.
  destruct (t_gtb tailLength (t_of_Z 0)).
  - destruct (last (Channel.entries ch)) as [prev|]; [|discriminate].
    destruct (Channel.is_tuple ch); [discriminate|].
    intros [= <-]. left. simpl. eauto.
  - intros [= <-]. right. auto.
Qed.
End ChannelFacts.

(** ** Exact timestamps *)

Section ExactTime.
Local Open Scope Q_scope.
Implicit Types (c : ChannelCursor.t Q) (d : Q) (es : list (Q * Z)).

Lemma Qgeb_true a b : Qgeb a b = true <-> b <= a.
Proof. unfold Qgeb. apply Qle_bool_iff. Qed.

Lemma Qgeb_false a b : Qgeb a b = false <-> a < b.
Proof.
  unfold Qgeb. rewrite <- not_true_iff_false, Qle_bool_iff.
  split; [apply Qnot_le_lt|apply Qlt_not_le].
Qed.

Lemma Qgtb_true a b : Qgtb a b = true <-> b < a.
Proof.
  unfold Qgtb. rewrite negb_true_iff, <- not_true_iff_false, Qle_bool_iff.
  split; [apply Qnot_le_lt|apply Qlt_not_le].
Qed.

Lemma Qgtb_false a b : Qgtb a b = false <-> a <= b.
Proof. unfold Qgtb. rewrite negb_false_iff. apply Qle_bool_iff. Qed.

Lemma Q_self_advancing : self_advancing (T := Q).
Proof. intros pos next. apply Qgeb_true. simpl. lra. Qed.

Lemma ascending_increasing es : ascending es -> increasing es.
Proof. intros Hasc i a b Ha Hb. apply Qgtb_true. exact (Hasc i a b Ha Hb). Qed.

Lemma increasing_lt es i j a b :
  increasing es -> (i < j)%nat -> es !! i = Some a -> es !! j = Some b ->
  fst a < fst b.
Proof.
  intros Hinc Hij Ha. revert b. induction Hij as [|j Hij IH]; intros b Hb.
  - eauto.
  - destruct (lookup_lt_is_Some_2 es j) as [m Hm].
    { apply lookup_lt_Some in Hb. lia. }
    specialize (IH m Hm). pose proof (Hinc j m b Hm Hb). lra.
Qed.

Lemma increasing_le_last es i a f :
  increasing es -> es !! i = Some a -> last es = Some f -> fst a <= fst f.
Proof.
  intros Hinc Ha Hf. rewrite last_lookup in Hf.
  pose proof (lookup_lt_Some _ _ _ Ha) as Hlt.
  destruct (decide (i = pred (length es))) as [->|Hne].
  - rewrite Ha in Hf. injection Hf as ->. lra.
  - apply Qlt_le_weak. eapply (increasing_lt es i (pred (length es))); eauto. lia.
Qed.

Lemma in_sync_entry c :
  in_sync c -> exists e, entries c !! next_slot c = Some e /\ fst e = startOfNextEntry c.
Proof.
  unfold in_sync. destruct (entries c !! next_slot c) as [e|]; [|discriminate].
  intros [= Hs]. eauto.
Qed.

(** An [advance] whose target reaches the last timestamp raises. *)
Lemma advance_past_end c d f :
  increasing (entries c) -> wf c -> last (entries c) = Some f ->
  fst f <= curPosition c + d ->
  exists c', advance d c = (Raised ChannelCursorOutOfRangeException, c').
Proof.
  intros Hinc Hwf Hf Hle.
  destruct (advance d c) as [r c'] eqn:Hadv.
  pose proof (advance_outcome _ _ _ _ Hadv) as [Hes Hr].
  destruct r as [[]|e|]; [|destruct Hr as [-> _]; eauto|contradiction].
  exfalso. destruct Hr as (_ & Hge & _).
  destruct (advance_wf _ _ _ Hwf Hadv) as ([_ Hs'] & _ & _).
  destruct (in_sync_entry _ Hs') as (e & He & Hn).
  apply Qgeb_false in Hge. rewrite Hes in He.
  pose proof (increasing_le_last _ _ _ _ Hinc He Hf). simpl in Hge.
  rewrite <- Hn in Hge. lra.
Qed.

(** A returning [advance] from an entry before the last one stops
    before the last one, short of its timestamp. *)
Lemma advance_rest c d c' f :
  increasing (entries c) -> wf c -> (S (curIndex c) < length (entries c))%nat ->
  last (entries c) = Some f ->
  advance d c = (Returned tt, c') ->
  (S (curIndex c') < length (entries c'))%nat /\ curPosition c' < fst f.
Proof.
  intros Hinc Hwf Hidx Hf Hadv.
  pose proof (advance_outcome _ _ _ _ Hadv) as (Hes & Hp & Hge & Hmv).
  destruct (advance_wf _ _ _ Hwf Hadv) as ([Hlt' Hs'] & _ & _).
  destruct (in_sync_entry _ Hs') as (e & He & Hn).
  apply Qgeb_false in Hge. simpl in Hge, Hp.
  rewrite Hes in He, Hlt'. rewrite <- Hn in Hge.
  pose proof (increasing_le_last _ _ _ _ Hinc He Hf) as Hlast.
  split; [|rewrite Hp; lra].
  rewrite Hes. destruct Hmv as [[Hi _]|[Hi _]]; [lia|].
  destruct (decide (S (curIndex c') < length (entries c))%nat) as [|Hend]; [assumption|].
  exfalso. destruct Hwf as [_ Hs].
  destruct (advance_loop_crossed _ _ _ _ Hs Hadv) as (e1 & He1 & Hcross); [lia|].
  apply Qgeb_true in Hcross. simpl in Hcross.
  unfold next_slot in He. rewrite Hes in He.
  destruct (Nat.ltb_spec (curIndex c') (length (entries c) - 1)); [lia|].
  rewrite He1 in He. injection He as ->. lra.
Qed.

Lemma advanceUntilChangeTo_returned v c c' :
  advanceUntilChangeTo v c = (Returned tt, c') ->
  exists c1,
    advance (startOfNextEntry c - curPosition c) c = (Returned tt, c1) /\
    (curIndex c < curIndex c1)%nat /\
    exists e1, entries c1 !! curIndex c1 = Some e1 /\
      ((snd e1 = v /\ c' = c1) \/
       (snd e1 <> v /\
        advance (startOfNextEntry c1 - curPosition c1) c1 = (Returned tt, c'))).
Proof.
  rewrite advanceUntilChangeTo_eq. destruct (isAtEnd c); [discriminate|].
  simpl. destruct (advance _ c) as [[[]|e|] c1] eqn:Hadv; try discriminate.
  destruct (Nat.eqb_spec (curIndex c1) (curIndex c)) as [|Hne]; [discriminate|].
  simpl. rewrite getValue_eq.
  destruct (entries c1 !! curIndex c1) as [e1|] eqn:He1; [|discriminate].
  pose proof (advance_outcome _ _ _ _ Hadv) as (_ & _ & _ & Hmv).
  intros Hrest. exists c1. split; [reflexivity|]. split; [lia|].
  exists e1. split; [exact He1|].
  destruct (Z.eqb_spec (snd e1) v) as [Heq|Hneq]; simpl in Hrest.
  - left. injection Hrest as <-. auto.
  - right. auto.
Qed.

(** Over a channel with a tail guard, every cursor a program can hold
    is well-formed and rests before the last entry. *)
Lemma reachable_rests (ch : Channel.t Q) c :
  increasing (Channel.entries ch) -> (2 <= length (Channel.entries ch))%nat ->
  reachable ch c ->
  wf c /\ entries c = Channel.entries ch /\
  (S (curIndex c) < length (entries c))%nat.
Proof.
  intros Hinc Hlen Hreach.
  destruct (last (Channel.entries ch)) as [f|] eqn:Hf.
  2:{ apply last_None in Hf. rewrite Hf in Hlen. simpl in Hlen. lia. }
  assert (Hstep : forall c d c',
    (wf c /\ entries c = Channel.entries ch /\
     (S (curIndex c) < length (entries c))%nat) ->
    advance d c = (Returned tt, c') ->
    wf c' /\ entries c' = Channel.entries ch /\
    (S (curIndex c') < length (entries c'))%nat).
  { intros c0 d c0' (Hwf & Hes & Hi) Hadv.
    destruct (advance_wf _ _ _ Hwf Hadv) as (Hwf' & Hes' & _).
    rewrite <- Hes in Hinc, Hf.
    destruct (advance_rest _ _ _ _ Hinc Hwf Hi Hf Hadv) as [Hi' _].
    repeat split; try apply Hwf'; auto. congruence. }
  induction Hreach as [c Hinit|c d c' _ IH Hadv|c v c' _ IH Hseek].
  - destruct (init_inv ch) as (c0 & Hc0 & Hwf & Hes & _).
    { intros Hnil. rewrite Hnil in Hlen. simpl in Hlen. lia. }
    rewrite Hinit in Hc0. injection Hc0 as <-.
    repeat split; try apply Hwf; auto.
    unfold ChannelCursor.init in Hinit.
    destruct (Channel.entries ch) as [|e0 es'] eqn:Hch; [discriminate|].
    destruct (getStartOfNextEntry _) as [[s|e|] c1] eqn:Hg; try discriminate.
    rewrite getStartOfNextEntry_eq in Hg.
    destruct (_ !! _) in Hg; try discriminate.
    injection Hg as _ <-. injection Hinit as <-. simpl. simpl in Hlen. lia.
  - eauto.
  - apply advanceUntilChangeTo_returned in Hseek.
    destruct Hseek as (c1 & Hadv1 & _ & e1 & _ & [[_ ->]|[_ Hadv2]]); eauto.
Qed.
End ExactTime.

(** ** Cursors on the heap *)

Section HeapFacts.
Context {T : Type} `{TimeOps T}.
Import Heap.
Implicit Types (h : gmap loc (obj T)) (l r : loc).

Lemma store_other l k c h : l <> k -> store l c h !! k = h !! k.
Proof.
  intros Hne. unfold store.
  destruct (h !! l) as [[es|r i p s]|]; auto.
  apply lookup_insert_ne. exact Hne.
Qed.

(** A method call on the cursor at [l] rebinds attributes of [l] only;
    the reference to the entries stays. *)
Lemma call_cursor {A} (m : ChannelCursor.M T A) l r es i p s h :
  h !! l = Some (Cursor r i p s) -> h !! r = Some (Tuple es) ->
  exists res i' p' s',
    call l m h = Some (res, <[l := Cursor r i' p' s']> h) /\
    m (ChannelCursor.mk es i p s) = (res, ChannelCursor.mk (entries (snd (m (ChannelCursor.mk es i p s)))) i' p' s').
Proof.
  intros Hl Hr. unfold call, load. rewrite Hl, Hr.
  destruct (m _) as [res [es' i' p' s']] eqn:Hm.
  exists res, i', p', s'. unfold store. rewrite Hl. simpl. auto.
Qed.

Lemma run_moves_frame l r es mvs :
  forall h i p s,
    h !! l = Some (Cursor r i p s) -> h !! r = Some (Tuple es) ->
    exists h' i' p' s',
      run_moves l mvs h = Some h' /\
      h' !! l = Some (Cursor r i' p' s') /\
      forall k, k <> l -> h' !! k = h !! k.
Proof.
  induction mvs as [|mv mvs IH]; intros h i p s Hl Hr; simpl.
  - exists h, i, p, s. auto.
  - destruct (call_cursor (run_move mv) l r es i p s h Hl Hr)
      as (res & i1 & p1 & s1 & -> & _).
    assert (Hlr : l <> r) by (intros ->; rewrite Hl in Hr; discriminate).
    destruct (IH (<[l := Cursor r i1 p1 s1]> h) i1 p1 s1) as (h' & i' & p' & s' & Hrun & Hl' & Hframe).
    { apply lookup_insert_eq. }
    { rewrite lookup_insert_ne; auto. }
    exists h', i', p', s'. repeat split; auto.
    intros k Hk. rewrite Hframe by exact Hk. apply lookup_insert_ne. auto.
Qed.

Lemma copy_fresh l h l' h1 :
  copy l h = Some (l', h1) ->
  h !! l' = None /\
  exists r i p s, h !! l = Some (Cursor r i p s) /\ h1 = <[l' := Cursor r i p s]> h.
Proof.
  unfold copy. destruct (h !! l) as [[es|r i p s]|] eqn:Hl; try discriminate.
  intros [= <- <-]. split.
  - apply not_elem_of_dom. apply is_fresh.
  - eauto 10.
Qed.

(** The pure [on_copy] is what the heap does: the outcome of a call on a
    copy is that of the method run from the state of the original, and
    the original reads back as before. *)
Lemma on_copy_heap {A} (m : ChannelCursor.M T A) l h c l' h1 :
  load h l = Some c -> copy l h = Some (l', h1) ->
  exists h2, call l' m h1 = Some (fst (on_copy m c), h2) /\ load h2 l = Some c.
Proof.
  intros Hload Hcopy. apply copy_fresh in Hcopy.
  destruct Hcopy as (Hfresh & r & i & p & s & Hl & ->).
  unfold load in Hload. rewrite Hl in Hload.
  destruct (h !! r) as [[es|]|] eqn:Hr; try discriminate.
  injection Hload as <-.
  assert (Hl'l : l' <> l) by (intros ->; rewrite Hl in Hfresh; discriminate).
  assert (Hl'r : l' <> r) by (intros ->; rewrite Hr in Hfresh; discriminate).
  destruct (call_cursor m l' r es i p s (<[l' := Cursor r i p s]> h))
    as (res & i1 & p1 & s1 & Hcall & Hm).
  { apply lookup_insert_eq. }
  { rewrite lookup_insert_ne; auto. }
  eexists. split.
  - rewrite Hcall. unfold on_copy. simpl. rewrite Hm. reflexivity.
  - unfold load. rewrite !lookup_insert_ne by auto. rewrite Hl.
    rewrite !lookup_insert_ne by auto. rewrite Hr. reflexivity.
Qed.
End HeapFacts.

(** ** Running the cursor on exact timestamps *)

Section ExactRuns.
Local Open Scope Q_scope.
Implicit Types (c : ChannelCursor.t Q) (d : Q) (es : list (Q * Z)).

(** A channel built by [add] calls and finished has increasing
    timestamps and coalesced real entries. *)
Lemma finished_increasing (name : string) evs tailLength (ch ch' : Channel.t Q) :
  Channel.add_all evs (Channel.init name) = Returned ch ->
  Channel.finishAdding tailLength ch = Returned ch' ->
  increasing (Channel.entries ch') /\ coalesced (Channel.entries ch).
Proof.
  intros Hadd Hfin.
  destruct (add_all_keeps evs _ _ Hadd) as [Hasc Hco];
    try (intros [|i] a b Ha Hb; discriminate).
  split; [|exact Hco].
  destruct (finishAdding_entries _ _ _ Hfin) as [(Hgt & prev & Hlast & ->)|[_ ->]].
  - apply Qgtb_true in Hgt. change (0 < tailLength) in Hgt.
    apply ascending_increasing, ascending_snoc; auto.
    intros p Hp. apply Qgtb_true. simpl.
    rewrite Hlast in Hp. injection Hp as <-. lra.
  - apply ascending_increasing. exact Hasc.
Qed.

(** [advance] lands on entry [j] when the target position has reached
    the timestamps of the entries up to [j] and not that of entry
    [j + 1]. *)
Lemma advance_loop_lands fuel c d j e1 :
  in_sync c -> (curIndex c <= j)%nat -> (j - curIndex c <= fuel)%nat ->
  Forall (fun e => fst e <= curPosition c + d)
         (take (j - curIndex c) (drop (S (curIndex c)) (entries c))) ->
  entries c !! S j = Some e1 ->
  curPosition c + d < fst e1 ->
  advance_loop fuel d c
  = (Returned tt, ChannelCursor.mk (entries c) j (curPosition c + d) (fst e1)).
Proof.
  revert c. induction fuel as [|fuel IH]; intros [es i p n] Hs Hij Hfuel Hall He1 Hlt;
    rewrite advance_loop_eq; simpl in *.
  - assert (j = i) as -> by lia.
    apply in_sync_entry in Hs. destruct Hs as (e & He & Hn).
    unfold next_slot in He. simpl in *.
    pose proof (lookup_lt_Some _ _ _ He1).
    destruct (Nat.ltb_spec i (length es - 1)); [|lia].
    rewrite Nat.add_1_r, He1 in He. injection He as <-. subst n.
    apply Qgeb_false in Hlt. rewrite Hlt. reflexivity.
  - apply in_sync_entry in Hs. destruct Hs as (e & He & Hn).
    unfold next_slot in He. simpl in *.
    pose proof (lookup_lt_Some _ _ _ He1) as Hlen.
    destruct (Nat.ltb_spec i (length es - 1)); [|lia].
    rewrite Nat.add_1_r in He.
    destruct (decide (j = i)) as [->|Hne].
    + rewrite He1 in He. injection He as <-. subst n.
      apply Qgeb_false in Hlt. rewrite Hlt. reflexivity.
    + destruct (j - i)%nat as [|k] eqn:Hk; [lia|].
      rewrite (drop_S _ _ _ He) in Hall. simpl in Hall.
      apply Forall_cons in Hall. destruct Hall as [Hhd Htl].
      subst n. apply Qgeb_true in Hhd. rewrite Hhd.
      unfold isAtEnd. simpl.
      destruct (Nat.leb_spec (length es) (S i)); [lia|].
      rewrite getStartOfNextEntry_eq. unfold next_slot. simpl.
      destruct (Nat.ltb_spec (S i) (length es - 1)); [|lia].
      destruct (lookup_lt_is_Some_2 es (S (i + 1))) as [e2 He2]; [lia|].
      rewrite He2. simpl.
      change (set_startOfNextEntry _ _)
        with (ChannelCursor.mk es (S i) p (fst e2)).
      rewrite (IH (ChannelCursor.mk es (S i) p (fst e2))); simpl; auto; try lia.
      * unfold in_sync, next_slot. simpl.
        destruct (Nat.ltb_spec (S i) (length es - 1)); [|lia].
        rewrite Nat.add_1_r in He2. rewrite Nat.add_1_r, He2. reflexivity.
      * replace (j - S i)%nat with k by lia. exact Htl.
Qed.

Lemma advance_lands c d j e1 :
  in_sync c -> (curIndex c <= j)%nat ->
  Forall (fun e => fst e <= curPosition c + d)
         (take (j - curIndex c) (drop (S (curIndex c)) (entries c))) ->
  entries c !! S j = Some e1 ->
  curPosition c + d < fst e1 ->
  advance d c
  = (Returned tt, ChannelCursor.mk (entries c) j (curPosition c + d) (fst e1)).
Proof.
  intros Hs Hij Hall He1 Hlt. apply advance_loop_lands; auto.
  apply lookup_lt_Some in He1. lia.
Qed.
End ExactRuns.

(** ** Replaying runs on exact timestamps *)

Lemma recognize_loop_eq {T : Type} `{TimeOps T} fuel bitperiod bits omit
    (c : ChannelCursor.t T) :
  recognize_loop fuel bitperiod bits omit c =
  match fuel with
  | O => ([], OutOfFuel)
  | S fuel' =>
      match recognize_iter bitperiod bits omit c with
      | (Returned (Some f), c') =>
          let (fs, r) := recognize_loop fuel' bitperiod bits omit c' in
          (f :: fs, r)
      | (Returned None, c') => recognize_loop fuel' bitperiod bits omit c'
      | (Raised ChannelCursorOutOfRangeException, _) => ([], Returned tt)
      | (Raised e, _) => ([], Raised e)
      | (OutOfFuel, _) => ([], OutOfFuel)
      end
  end.
Proof. destruct fuel; reflexivity. Qed.

Lemma Qgtb_intro (a b : Q) : (b < a)%Q -> Qgtb a b = true.
Proof. apply Qgtb_true. Qed.

(** Bring the arithmetic of the code into the shape [lra] reads: the
    operations of [Q], literal constants, and a product for [x / 2]. *)
Ltac q_norm :=
  cbn [t_add t_sub t_mul t_div t_gtb t_geb t_of_Z Q_time] in *;
  unfold inject_Z in *;
  repeat match goal with
  | |- context [Qdiv ?x (Qmake 2 1)] =>
      progress change (Qdiv x (Qmake 2 1)) with (Qmult x (Qmake 1 2))
  end.

Ltac cursor_cbn :=
  cbv beta iota;
  cbn [entries curIndex curPosition startOfNextEntry fst snd negb andb
       Z.eqb Pos.eqb Nat.eqb isAtEnd Nat.leb length
       Z.add Z.mul Pos.add Pos.mul Pos.succ].

(** [advance] on an explicit cursor, landing on entry [j]. *)
Ltac land j :=
  erewrite (advance_lands _ _ j);
  [ cursor_cbn
  | unfold in_sync, next_slot; cbn; reflexivity
  | cbn; lia
  | cbn; repeat constructor; cbn [fst snd]; lra
  | cbn; reflexivity
  | cbn [fst snd curPosition]; lra ].

(** [getValue] on an explicit cursor. *)
Ltac value :=
  rewrite getValue_eq; cbn [entries curIndex lookup list_lookup]; cursor_cbn.

(** One [add] on an explicit channel. *)
Ltac add_row :=
  cbn [Channel.add_all]; unfold Channel.add at 1;
  cbn [Channel.entries Channel.init last fst snd Channel.append
       Channel.is_tuple Channel.name app];
  try (rewrite Qgtb_intro by lra);
  cbn [Z.eqb Pos.eqb negb Channel.append Channel.entries Channel.is_tuple
       Channel.name app].

Section ByteRuns.
Local Open Scope Q_scope.

(** [add] coalesces the rows of the capture into seven entries and
    [finishAdding] appends the tail guard. *)
Lemma byte_0x41_channel (name : string) (idle start bitperiod : Q) :
  idle < start -> 0 < bitperiod ->
  exists ch0,
    Channel.add_all (byte_0x41_rows idle start bitperiod) (Channel.init name)
    = Returned ch0 /\
    Channel.finishAdding Channel.default_tailLength ch0
    = Returned (Channel.mk name (byte_0x41_entries idle start bitperiod) true).
Proof.
  intros Hi Hb. eexists. split.
  - unfold byte_0x41_rows. cbn [map fst snd]. q_norm.
    do 11 add_row. reflexivity.
  - reflexivity.
Qed.

(** The first pass of the loop over that capture yields the frame. *)
Lemma byte_0x41_first_pass (idle start bitperiod : Q) (omit : bool) :
  idle < start -> 0 < bitperiod -> bitperiod <= 1 ->
  exists stamp pos,
    recognize_iter bitperiod 8 omit
      (ChannelCursor.mk (byte_0x41_entries idle start bitperiod) 0 idle start)
    = (Returned (Some (stamp, 65%Z, true)),
       ChannelCursor.mk (byte_0x41_entries idle start bitperiod) 6 pos
         (start + 9 * bitperiod + 10)) /\
    stamp == start /\ pos == start + 10 * bitperiod.
Proof.
  intros Hi Hb Hb1. unfold byte_0x41_entries, recognize_iter.
  change (Z.to_nat 8) with 8%nat. cbn [collect_bits].
  unfold bind, getPosition, get, on_copy, ret.
  rewrite advanceUntilChangeTo_eq. q_norm. cursor_cbn.
  land 1%nat. value.
  land 1%nat. value.
  land 2%nat. value.
  do 5 (land 3%nat; value).
  land 4%nat. value.
  land 5%nat. value.
  land 6%nat. value.
  land 6%nat.
  rewrite andb_false_r.
  eexists _, _. split; [reflexivity|]. split; lra.
Qed.

Lemma byte_0x41_increasing (idle start bitperiod : Q) :
  idle < start -> 0 < bitperiod ->
  increasing (byte_0x41_entries idle start bitperiod).
Proof.
  intros Hi Hb i a b Ha Hb'.
  do 8 (destruct i as [|i];
        [cbn in Ha, Hb'; try discriminate;
         injection Ha as <-; injection Hb' as <-; cbn [fst]; lra|]).
  discriminate.
Qed.

(** The second pass runs off the tail guard. *)
Lemma byte_0x41_second_pass (idle start bitperiod pos : Q) (omit : bool) :
  idle < start -> 0 < bitperiod ->
  exists c',
    recognize_iter bitperiod 8 omit
      (ChannelCursor.mk (byte_0x41_entries idle start bitperiod) 6 pos
         (start + 9 * bitperiod + 10))
    = (Raised ChannelCursorOutOfRangeException, c').
Proof.
  intros Hi Hb. unfold recognize_iter, bind.
  rewrite advanceUntilChangeTo_eq. cursor_cbn.
  edestruct (advance_past_end
               (ChannelCursor.mk (byte_0x41_entries idle start bitperiod) 6 pos
                  (start + 9 * bitperiod + 10))) as [c' ->].
  - apply byte_0x41_increasing; assumption.
  - split; [cbn; lia|reflexivity].
  - reflexivity.
  - q_norm. cbn [fst curPosition]. lra.
  - eexists. reflexivity.
Qed.

Lemma byte_0x41_run (name : string) (idle start bitperiod : Q) (omit : bool) :
  idle < start -> 0 < bitperiod -> bitperiod <= 1 ->
  exists stamp,
    recognize_loop 9 bitperiod 8 omit
      (ChannelCursor.mk (byte_0x41_entries idle start bitperiod) 0 idle start)
    = ([(stamp, 65%Z, true)], Returned tt) /\ stamp == start.
Proof.
  intros Hi Hb Hb1.
  destruct (byte_0x41_first_pass idle start bitperiod omit Hi Hb Hb1)
    as (stamp & pos & Hfirst & Hstamp & _).
  destruct (byte_0x41_second_pass idle start bitperiod pos omit Hi Hb)
    as (c' & Hsecond).
  exists stamp. split; [|exact Hstamp].
  rewrite recognize_loop_eq, Hfirst, recognize_loop_eq, Hsecond. reflexivity.
Qed.
End ByteRuns.

(** ** The start-bit check *)

Section IterationFacts.
Context {T : Type} `{TimeOps T}.
Implicit Types (c : ChannelCursor.t T).

(** A pass that yields a frame has stamped it with the position found by
    [advanceUntilChangeTo(0)] and has read level 0 half a bit period
    later on the copy. *)
Lemma recognize_iter_yield bitperiod bits omit c f c' :
  recognize_iter bitperiod bits omit c = (Returned (Some f), c') ->
  exists c1 p,
    advanceUntilChangeTo 0 c = (Returned tt, c1) /\
    frame_ts f = curPosition c1 /\
    advance (t_div bitperiod (t_of_Z 2)) c1 = (Returned tt, p) /\
    getValue p = (Returned 0, p).
Proof.
  unfold recognize_iter, bind, getPosition, get, on_copy.
  destruct (advanceUntilChangeTo 0 c) as [[[]|e|] c1]; try discriminate.
  destruct (advance (t_div bitperiod (t_of_Z 2)) c1) as [[[]|e|] p] eqn:Hpeek;
    try discriminate.
  pose proof (getValue_eq p) as Hv.
  destruct (entries p !! curIndex p) as [ev|]; rewrite Hv; simpl; [|discriminate].
  destruct (Z.eqb_spec (snd ev) 0) as [Hz|Hnz]; simpl.
  - destruct (advance (t_mul _ _) c1) as [[[]|e|] c2]; try discriminate.
    destruct (collect_bits bitperiod _ _ _ c2) as [[data|e|] c3];
      try discriminate.
    destruct (getValue c3) as [[stop|e|] c4]; try discriminate.
    destruct (advance _ c4) as [[[]|e|] c5]; try discriminate.
    destruct (omit && negb (stop =? 1)); simpl; [discriminate|].
    intros [= <- <-]. exists c1, p. repeat split; auto; congruence.
  - rewrite Hpeek. discriminate.
Qed.

(** A pass whose copy reads a level other than 0 yields nothing and
    leaves the cursor half a bit period after the candidate edge. *)
Lemma recognize_iter_nudge bitperiod bits omit c c1 p v :
  advanceUntilChangeTo 0 c = (Returned tt, c1) ->
  advance (t_div bitperiod (t_of_Z 2)) c1 = (Returned tt, p) ->
  getValue p = (Returned v, p) -> v <> 0 ->
  recognize_iter bitperiod bits omit c = (Returned None, p).
Proof.
  intros Hseek Hpeek Hv Hnz.
  unfold recognize_iter, bind, getPosition, get, on_copy.
  rewrite Hseek, Hpeek, Hv. simpl.
  destruct (Z.eqb_spec v 0) as [|_]; [contradiction|]. simpl.
  rewrite Hpeek. reflexivity.
Qed.
End IterationFacts.

Section SeekFacts.
Local Open Scope Q_scope.
Implicit Types (c : ChannelCursor.t Q) (es : list (Q * Z)).

Lemma increasing_inj es i j a b :
  increasing es -> es !! i = Some a -> es !! j = Some b -> fst a == fst b ->
  i = j.
Proof.
  intros Hinc Ha Hb Heq.
  destruct (Nat.lt_trichotomy i j) as [Hlt|[->|Hgt]]; [|reflexivity|].
  - pose proof (increasing_lt _ _ _ _ _ Hinc Hlt Ha Hb). lra.
  - pose proof (increasing_lt _ _ _ _ _ Hinc Hgt Hb Ha). lra.
Qed.

(** Stepping by [startOfNextEntry - curPosition] lands exactly on the
    next entry, which is not the last one. *)
Lemma advance_to_boundary c c' :
  increasing (entries c) -> wf c ->
  advance (startOfNextEntry c - curPosition c) c = (Returned tt, c') ->
  wf c' /\ entries c' = entries c /\
  (S (curIndex c') < length (entries c))%nat /\
  curIndex c' = S (curIndex c) /\
  exists e, entries c !! curIndex c' = Some e /\ curPosition c' == fst e.
Proof.
  intros Hinc Hwf Hadv.
  destruct (advance_wf _ _ _ Hwf Hadv) as (Hwf' & Hes & _).
  pose proof (advance_outcome _ _ _ _ Hadv) as (_ & Hp & Hge & Hmv).
  apply Qgeb_false in Hge. simpl in Hge, Hp.
  destruct Hmv as [[_ Hn]|[Hi _]]; [rewrite Hn in Hge; lra|].
  destruct Hwf as [Hlt Hs].
  destruct (advance_loop_crossed _ _ _ _ Hs Hadv) as (e & He & Hcross); [lia|].
  apply Qgeb_true in Hcross. simpl in Hcross.
  destruct (in_sync_entry _ Hs) as (en & Hen & Hn).
  destruct Hwf' as [Hlt' Hs'].
  destruct (in_sync_entry _ Hs') as (en' & Hen' & Hn').
  rewrite Hes in Hen'. rewrite <- Hn in *. rewrite <- Hn' in Hge.
  unfold next_slot in Hen, Hen'. rewrite Hes in Hen'.
  destruct (Nat.ltb_spec (curIndex c) (length (entries c) - 1)); [|lia].
  assert (Hle : fst en <= fst e).
  { destruct (decide (curIndex c' = (curIndex c + 1)%nat)) as [Heq|Hne].
    - rewrite Heq, Hen in He. injection He as ->. lra.
    - apply Qlt_le_weak.
      eapply (increasing_lt _ (curIndex c + 1) (curIndex c')); eauto. lia. }
  assert (Hidx : curIndex c' = S (curIndex c)).
  { rewrite <- Nat.add_1_r.
    eapply (increasing_inj (entries c)); eauto. lra. }
  destruct (Nat.ltb_spec (curIndex c') (length (entries c) - 1)).
  - repeat split; auto; try lia. exists e. split; [exact He|]. rewrite Hp. lra.
  - rewrite He in Hen'. injection Hen' as <-. lra.
Qed.

(** A returning [advanceUntilChangeTo] rests exactly on the timestamp of
    an entry before the last one. *)
Lemma seek_lands c v c1 :
  increasing (entries c) -> wf c ->
  advanceUntilChangeTo v c = (Returned tt, c1) ->
  wf c1 /\ entries c1 = entries c /\
  (S (curIndex c1) < length (entries c))%nat /\
  exists e, entries c !! curIndex c1 = Some e /\ curPosition c1 == fst e.
Proof.
  intros Hinc Hwf Hseek. apply advanceUntilChangeTo_returned in Hseek.
  destruct Hseek as (c0 & Hadv & _ & e1 & _ & Hrest).
  destruct (advance_to_boundary _ _ Hinc Hwf Hadv) as (Hwf0 & Hes0 & Hl0 & _ & He0).
  destruct Hrest as [[_ ->]|[_ Hadv2]]; [auto|].
  rewrite <- Hes0 in Hinc.
  destruct (advance_to_boundary _ _ Hinc Hwf0 Hadv2) as (Hwf1 & Hes1 & Hl1 & _ & He1).
  rewrite Hes0 in *. intuition congruence.
Qed.

End SeekFacts.

Section Debounce.
Local Open Scope Q_scope.
Variables (es : list (Q * Z)) (bitperiod : Q) (i : nat) (fall rise : Q)
          (level : Z).
Hypothesis Hinc : increasing es.
Hypothesis Hfall : es !! i = Some (fall, 0%Z).
Hypothesis Hrise : es !! S i = Some (rise, level).
Hypothesis Hlevel : level <> 0%Z.
Hypothesis Hshort : rise - fall < bitperiod / 2.
Hypothesis Hstay : forall e, es !! S (S i) = Some e -> fall + bitperiod / 2 < fst e.

(** The look-ahead from the falling edge of the pulse: it stops on the
    entry after the pulse, or runs off the entries when there is none
    after that. *)
Lemma peek_after_pulse (c1 : ChannelCursor.t Q) :
  wf c1 -> entries c1 = es -> curIndex c1 = i -> curPosition c1 == fall ->
  match es !! S (S i) with
  | Some e2 =>
      advance (t_div bitperiod (t_of_Z 2)) c1
      = (Returned tt,
         ChannelCursor.mk es (S i) (curPosition c1 + bitperiod / 2) (fst e2))
  | None =>
      exists c', advance (t_div bitperiod (t_of_Z 2)) c1
                 = (Raised ChannelCursorOutOfRangeException, c')
  end.
Proof.
  intros [Hlt Hs] Hes Hi Hpos.
  change (t_div bitperiod (t_of_Z 2)) with (bitperiod / 2).
  assert (Hhalf : bitperiod / 2 == bitperiod * (1 # 2)) by reflexivity.
  destruct (es !! S (S i)) as [e2|] eqn:He2.
  - specialize (Hstay e2 eq_refl).
    rewrite <- Hes. rewrite (advance_lands c1 _ (S i) e2); rewrite ?Hes, ?Hi; auto.
    + replace (S i - i)%nat with 1%nat by lia.
      rewrite (drop_S _ _ _ Hrise). simpl. rewrite take_0.
      constructor; [simpl; lra|constructor].
    + lra.
  - apply (advance_past_end c1 _ (rise, level)); rewrite ?Hes; auto.
    + split; assumption.
    + apply last_lookup_pred with (i := S i); [|exact Hrise].
      apply lookup_ge_None in He2. apply lookup_lt_Some in Hrise. lia.
    + simpl. lra.
Qed.

(** A pass whose seek stops on the pulse yields no frame. *)
Lemma pulse_not_yielded bits omit (c : ChannelCursor.t Q) f c' :
  wf c -> entries c = es ->
  recognize_iter bitperiod bits omit c = (Returned (Some f), c') ->
  ~ frame_ts f == fall.
Proof.
  intros Hwf Hes Hiter Hstamp.
  apply recognize_iter_yield in Hiter.
  destruct Hiter as (c1 & p & Hseek & Hts & Hpeek & Hv).
  assert (Hinc' : increasing (entries c)) by (rewrite Hes; exact Hinc).
  destruct (seek_lands _ _ _ Hinc' Hwf Hseek) as (Hwf1 & Hes1 & _ & e & He & Hpos).
  rewrite Hes in *. rewrite Hts in Hstamp.
  assert (Hi : curIndex c1 = i).
  { eapply (increasing_inj es); eauto. simpl. lra. }
  pose proof (peek_after_pulse c1 Hwf1 Hes1 Hi Hstamp) as Hlook.
  destruct (es !! S (S i)) as [e2|].
  - rewrite Hlook in Hpeek. injection Hpeek as <-.
    rewrite getValue_eq in Hv. simpl in Hv. rewrite Hrise in Hv.
    injection Hv as Hv. contradiction.
  - destruct Hlook as [c'' Hlook]. rewrite Hlook in Hpeek. discriminate.
Qed.

Lemma pulse_never_yielded bits omit fuel i0 (c : ChannelCursor.t Q) f :
  inv es i0 c ->
  In f (fst (recognize_loop fuel bitperiod bits omit c)) ->
  ~ frame_ts f == fall.
Proof.
  revert i0 c. induction fuel as [|fuel IH]; intros i0 c Hinv;
    rewrite recognize_loop_eq; [intros []|].
  pose proof (triple_recognize_iter es i0 bitperiod bits omit c Hinv) as Hnext.
  destruct (recognize_iter bitperiod bits omit c) as [[[f0|]|e|] c'] eqn:Hiter.
  - specialize (IH (S i0) c' Hnext).
    destruct (recognize_loop fuel bitperiod bits omit c') as [fs r].
    simpl. intros [<-|Hin]; [|auto].
    destruct Hinv as (Hwf & Hes & _).
    eapply pulse_not_yielded; eauto.
  - apply (IH (S i0) c' Hnext).
  - destruct e; intros [].
  - intros [].
Qed.

(** A pass whose seek stops on the pulse, with an entry after the one
    that ends it, nudges the cursor by half a bit period. *)
Lemma pulse_nudged bits omit (c c1 : ChannelCursor.t Q) :
  wf c -> entries c = es ->
  advanceUntilChangeTo 0 c = (Returned tt, c1) -> curIndex c1 = i ->
  is_Some (es !! S (S i)) ->
  exists c2,
    recognize_iter bitperiod bits omit c = (Returned None, c2) /\
    curIndex c2 = S i /\
    curPosition c2 = curPosition c1 + bitperiod / 2.
Proof.
  intros Hwf Hes Hseek Hi [e2 He2].
  assert (Hinc' : increasing (entries c)) by (rewrite Hes; exact Hinc).
  destruct (seek_lands _ _ _ Hinc' Hwf Hseek) as (Hwf1 & Hes1 & _ & e & He & Hpos).
  rewrite Hes in *. rewrite Hi, Hfall in He. injection He as <-.
  pose proof (peek_after_pulse c1 Hwf1 Hes1 Hi Hpos) as Hlook.
  rewrite He2 in Hlook.
  exists (ChannelCursor.mk es (S i) (curPosition c1 + bitperiod / 2) (fst e2)).
  split; [|split; reflexivity].
  apply (recognize_iter_nudge _ _ _ _ c1 _ level Hseek Hlook); [|exact Hlevel].
  rewrite getValue_eq. simpl. rewrite Hrise. reflexivity.
Qed.
End Debounce.

(** ** Ordered timestamps, for any arithmetic *)






Lemma Q_ordered : ordered (T := Q).
Proof.
  split.
  - intros a b c. simpl. rewrite !Qgeb_true. lra.
  - intros a b. simpl. rewrite Qgtb_true, Qgeb_true. lra.
Qed.

Section OrderedFacts.
Context {T : Type} `{TimeOps T}.
Implicit Types (c : ChannelCursor.t T) (d : T) (es : list (T * Z)).

Lemma synced_entry c :
  in_sync c ->
  exists e, entries c !! next_slot c = Some e /\ fst e = startOfNextEntry c.
Proof.
  unfold in_sync. destruct (entries c !! next_slot c) as [e|]; [|discriminate].
  intros [= Hs]. eauto.
Qed.








(** What [advance] does to the cursor, returning or raising. *)
Lemma advance_moves d c :
  let c' := snd (advance d c) in
  entries c' = entries c /\
  (curIndex c <= curIndex c')%nat /\
  match fst (advance d c) with
  | Returned _ => curPosition c' = t_add (curPosition c) d
  | Raised e =>
      e = ChannelCursorOutOfRangeException /\
      curPosition c' = curPosition c /\ isAtEnd c' = true
  | OutOfFuel => False
  end.
Proof.
  destruct (advance d c) as [r c'] eqn:Hadv. simpl.
  pose proof (advance_outcome _ _ _ _ Hadv) as [Hes Hr].
  split; [exact Hes|]. destruct r as [[]|e|]; [| |contradiction].
  - destruct Hr as (Hp & _ & [[Hi _]|[Hi _]]); split; auto; lia.
  - destruct Hr as (-> & Hi & Hl & Hp). split; [lia|]. repeat split; auto.
    unfold isAtEnd. rewrite Hes. apply Nat.leb_le. exact Hl.
Qed.

Lemma seek_returned v c c' :
  advanceUntilChangeTo v c = (Returned tt, c') ->
  exists c1,
    advance (t_sub (startOfNextEntry c) (curPosition c)) c = (Returned tt, c1) /\
    (c' = c1 \/
     advance (t_sub (startOfNextEntry c1) (curPosition c1)) c1
     = (Returned tt, c')).
Proof.
  rewrite advanceUntilChangeTo_eq. destruct (isAtEnd c); [discriminate|].
  simpl. destruct (advance _ c) as [[[]|e|] c1] eqn:Hadv; try discriminate.
  destruct (Nat.eqb_spec (curIndex c1) (curIndex c)) as [|Hne]; [discriminate|].
  simpl. rewrite getValue_eq.
  destruct (entries c1 !! curIndex c1) as [e1|] eqn:He1; [|discriminate].
  intros Hrest. exists c1. split; [reflexivity|].
  destruct (Z.eqb_spec (snd e1) v) as [Heq|Hneq]; simpl in Hrest.
  - left. injection Hrest as <-. reflexivity.
  - right. exact Hrest.
Qed.


(** [advance] lands on entry [j] when the target position has passed the
    [>=] test against the timestamps of the entries up to [j] and not
    against that of entry [j + 1]. *)
Lemma advance_loop_reaches fuel c d j e1 :
  in_sync c -> (curIndex c <= j)%nat -> (j - curIndex c <= fuel)%nat ->
  Forall (fun e => t_geb (t_add (curPosition c) d) (fst e) = true)
         (take (j - curIndex c) (drop (S (curIndex c)) (entries c))) ->
  entries c !! S j = Some e1 ->
  t_geb (t_add (curPosition c) d) (fst e1) = false ->
  advance_loop fuel d c
  = (Returned tt,
     ChannelCursor.mk (entries c) j (t_add (curPosition c) d) (fst e1)).
Proof.
  revert c. induction fuel as [|fuel IH];
    intros [es i p n] Hs Hij Hfuel Hall He1 Hlt;
    rewrite advance_loop_eq; simpl in *.
  - assert (j = i) as -> by lia.
    apply synced_entry in Hs. destruct Hs as (e & He & Hn).
    unfold next_slot in He. simpl in *.
    pose proof (lookup_lt_Some _ _ _ He1).
    destruct (Nat.ltb_spec i (length es - 1)); [|lia].
    rewrite Nat.add_1_r, He1 in He. injection He as <-. subst n.
    rewrite Hlt. reflexivity.
  - apply synced_entry in Hs. destruct Hs as (e & He & Hn).
    unfold next_slot in He. simpl in *.
    pose proof (lookup_lt_Some _ _ _ He1) as Hlen.
    destruct (Nat.ltb_spec i (length es - 1)); [|lia].
    rewrite Nat.add_1_r in He.
    destruct (decide (j = i)) as [->|Hne].
    + rewrite He1 in He. injection He as <-. subst n.
      rewrite Hlt. reflexivity.
    + destruct (j - i)%nat as [|k] eqn:Hk; [lia|].
      rewrite (drop_S _ _ _ He) in Hall. simpl in Hall.
      apply Forall_cons in Hall. destruct Hall as [Hhd Htl].
      subst n. rewrite Hhd.
      unfold isAtEnd. simpl.
      destruct (Nat.leb_spec (length es) (S i)); [lia|].
      rewrite getStartOfNextEntry_eq. unfold next_slot. simpl.
      destruct (Nat.ltb_spec (S i) (length es - 1)); [|lia].
      destruct (lookup_lt_is_Some_2 es (S (i + 1))) as [e2 He2]; [lia|].
      rewrite He2. simpl.
      change (set_startOfNextEntry _ _)
        with (ChannelCursor.mk es (S i) p (fst e2)).
      rewrite (IH (ChannelCursor.mk es (S i) p (fst e2))); simpl; auto; try lia.
      * unfold in_sync, next_slot. simpl.
        destruct (Nat.ltb_spec (S i) (length es - 1)); [|lia].
        rewrite Nat.add_1_r in He2. rewrite Nat.add_1_r, He2. reflexivity.
      * replace (j - S i)%nat with k by lia. exact Htl.
Qed.

Lemma advance_reaches c d j e1 :
  in_sync c -> (curIndex c <= j)%nat ->
  Forall (fun e => t_geb (t_add (curPosition c) d) (fst e) = true)
         (take (j - curIndex c) (drop (S (curIndex c)) (entries c))) ->
  entries c !! S j = Some e1 ->
  t_geb (t_add (curPosition c) d) (fst e1) = false ->
  advance d c
  = (Returned tt,
     ChannelCursor.mk (entries c) j (t_add (curPosition c) d) (fst e1)).
Proof.
  intros Hs Hij Hall He1 Hlt. apply advance_loop_reaches; auto.
  apply lookup_lt_Some in He1. lia.
Qed.

(** A returning [advanceUntilChangeTo] from a well-formed cursor leaves a
    well-formed cursor. *)
Lemma seek_wf v c c' :
  wf c -> advanceUntilChangeTo v c = (Returned tt, c') ->
  wf c' /\ entries c' = entries c.
Proof.
  intros Hwf Hseek. apply seek_returned in Hseek.
  destruct Hseek as (c1 & Hadv1 & [->|Hadv2]).
  - destruct (advance_wf _ _ _ Hwf Hadv1) as (Hwf1 & Hes1 & _). auto.
  - destruct (advance_wf _ _ _ Hwf Hadv1) as (Hwf1 & Hes1 & _).
    destruct (advance_wf _ _ _ Hwf1 Hadv2) as (Hwf2 & Hes2 & _).
    split; [exact Hwf2|congruence].
Qed.

(** What [finishAdding] leaves of a channel filled by [add]. *)
Lemma finished_ascending (name : string) evs tailLength (ch ch' : Channel.t T) :
  Channel.add_all evs (Channel.init name) = Returned ch ->
  Channel.finishAdding tailLength ch = Returned ch' ->
  ascending (Channel.entries ch) /\ coalesced (Channel.entries ch) /\
  ((t_gtb tailLength (t_of_Z 0) = true /\
    exists prev, last (Channel.entries ch) = Some prev /\
      Channel.entries ch'
      = Channel.entries ch ++ [(t_add (fst prev) tailLength, snd prev)] /\
      (ascending (Channel.entries ch') <->
       t_gtb (t_add (fst prev) tailLength) (fst prev) = true)) \/
   (t_gtb tailLength (t_of_Z 0) = false /\
    Channel.entries ch' = Channel.entries ch)).
Proof.
  intros Hadd Hfin.
  destruct (add_all_keeps evs _ _ Hadd) as [Hasc Hco];
    try (intros [|i] a b Ha Hb; discriminate).
  split; [exact Hasc|]. split; [exact Hco|].
  destruct (finishAdding_entries _ _ _ Hfin)
    as [(Hgt & prev & Hlast & Hes)|[Hgt Hes]]; [left|right; auto].
  split; [exact Hgt|]. exists prev. split; [exact Hlast|].
  split; [exact Hes|]. rewrite Hes. split.
  - intros Hall. rewrite last_lookup in Hlast.
    destruct (Channel.entries ch) as [|e0 es0] eqn:Hch; [discriminate|].
    apply (Hall (pred (length (e0 :: es0))) prev
             (t_add (fst prev) tailLength, snd prev)).
    + apply lookup_app_l_Some. exact Hlast.
    + change (S (pred (length (e0 :: es0)))) with (length (e0 :: es0)).
      apply list_lookup_middle. reflexivity.
  - intros Hguard. apply ascending_snoc; [exact Hasc|].
    intros p Hp. rewrite Hlast in Hp. injection Hp as <-. exact Hguard.
Qed.
End OrderedFacts.

(** * The claims *)

(** ** Channel *)

(** C3, as stated, fails on both counts.  [finishAdding] with a positive
    [tailLength] appends a guard entry that repeats the level of the last
    real entry, and it does not check the guard's timestamp
    [prev[0] + tailLength]: in binary64 [2e17 + 10] is [2e17], so the
    channel made by [add(2e17, 1)] and finished with the default tail holds
    [(2e17, 1); (2e17, 1)], two neighbours with the same level and the same
    timestamp. *)
Lemma finished_channel_repeats_last_level :
  let ch0 := Channel.mk "UART_TX" [(2e17%float, 1)] false in
  let ch := Channel.mk "UART_TX" [(2e17%float, 1); (2e17%float, 1)] true in
  Channel.add_all [(2e17%float, 1)] (Channel.init "UART_TX") = Returned ch0 /\
  Channel.finishAdding Channel.default_tailLength ch0 = Returned ch /\
  ~ ascending (Channel.entries ch) /\
  ~ coalesced (Channel.entries ch).
Proof.
  intros ch0 ch. split; [reflexivity|]. split; [reflexivity|]. split.
  - intros Hasc.
    specialize (Hasc 0%nat (2e17%float, 1) (2e17%float, 1) eq_refl eq_refl).
    vm_compute in Hasc. discriminate.
  - intros Hco.
    exact (Hco 0%nat (2e17%float, 1) (2e17%float, 1) eq_refl eq_refl eq_refl).
Qed.

(** C3, amended: for every channel built by successful [add] calls and then
    finished, the real entries have strictly increasing timestamps (each
    passed the [>] test of [add] against the one before) and no two
    neighbouring real entries have equal levels.  When [tailLength > 0]
    the stored sequence is the real entries followed by one guard entry at
    [lastTimestamp + tailLength] with the level of the last real entry,
    and the timestamps of the whole sequence strictly increase exactly
    when that sum, as computed, is greater than [lastTimestamp]; when
    [tailLength] is not [> 0] the stored sequence is the real entries
    alone.  For any timestamp arithmetic, binary64 included. *)
Theorem finished_channel_entries {T : Type} `{TimeOps T} (name : string)
    (evs : list (T * Z)) (tailLength : T) (ch ch' : Channel.t T) :
  Channel.add_all evs (Channel.init name) = Returned ch ->
  Channel.finishAdding tailLength ch = Returned ch' ->
  ascending (Channel.entries ch) /\
  coalesced (Channel.entries ch) /\
  ((t_gtb tailLength (t_of_Z 0) = true /\
    exists prev, last (Channel.entries ch) = Some prev /\
      Channel.entries ch'
      = Channel.entries ch ++ [(t_add (fst prev) tailLength, snd prev)] /\
      (ascending (Channel.entries ch') <->
       t_gtb (t_add (fst prev) tailLength) (fst prev) = true)) \/
   (t_gtb tailLength (t_of_Z 0) = false /\
    Channel.entries ch' = Channel.entries ch)).
Proof.
  intros Hadd Hfin. exact (finished_ascending name evs tailLength ch ch' Hadd Hfin).
Qed.

Lemma finished_channel_entries_witness :
  ascending [(0%float, 1); (1%float, 0)] /\
  coalesced [(0%float, 1); (1%float, 0)] /\
  ascending [(0%float, 1); (1%float, 0); (11%float, 0)].
Proof.
  assert (Hadd : Channel.add_all [(0%float, 1); (1%float, 0)]
                   (Channel.init "UART_TX")
                 = Returned (Channel.mk "UART_TX"
                               [(0%float, 1); (1%float, 0)] false))
    by (vm_compute; reflexivity).
  assert (Hfin : Channel.finishAdding 10%float
                   (Channel.mk "UART_TX" [(0%float, 1); (1%float, 0)] false)
                 = Returned (Channel.mk "UART_TX"
                               [(0%float, 1); (1%float, 0); (11%float, 0)] true))
    by (vm_compute; reflexivity).
  destruct (finished_channel_entries "UART_TX" [(0%float, 1); (1%float, 0)]
              10%float _ _ Hadd Hfin)
    as (Hasc & Hco & [(_ & prev & Hlast & _ & Hguard)|[Hno _]]);
    [|vm_compute in Hno; discriminate].
  split; [exact Hasc|]. split; [exact Hco|].
  apply Hguard. injection Hlast as <-. vm_compute. reflexivity.
Defined.

(** C7, as stated, fails at [tailLength = 0]: the assertion sits under
    [if tailLength > 0.0], so [finishAdding(0)] on a channel without
    entries returns and leaves an empty tuple. *)
Lemma finishAdding_empty_zero_tail_returns :
  Channel.finishAdding 0%Q (Channel.init "UART_TX")
  = Returned (Channel.mk "UART_TX" [] true).
Proof. reflexivity. Qed.

(** C7, amended: for every [tailLength > 0], [finishAdding] on a channel
    with zero real entries fails with the assertion; for a [tailLength]
    that is not [> 0] it returns and freezes the empty sequence.  Stated
    for any timestamp arithmetic, binary64 included. *)
Theorem finishAdding_empty {T : Type} `{TimeOps T} (tailLength : T)
    (ch : Channel.t T) :
  Channel.entries ch = [] ->
  (t_gtb tailLength (t_of_Z 0) = true ->
   Channel.finishAdding tailLength ch = Raised AssertionError) /\
  (t_gtb tailLength (t_of_Z 0) = false ->
   Channel.finishAdding tailLength ch
   = Returned (Channel.mk (Channel.name ch) [] true)).
Proof.
  intros Hnil. unfold Channel.finishAdding. rewrite Hnil. simpl.
  split; intros ->; reflexivity.
Qed.

Lemma finishAdding_empty_witness :
  Channel.finishAdding 10%Q (Channel.init "UART_TX") = Raised AssertionError /\
  Channel.finishAdding 10%float (Channel.init "UART_TX") = Raised AssertionError.
Proof.
  split.
  - apply (finishAdding_empty 10%Q (Channel.init "UART_TX") eq_refl). reflexivity.
  - apply (finishAdding_empty 10%float (Channel.init "UART_TX") eq_refl). reflexivity.
Defined.

(** C8, as stated, fails: [add] asserts [eventTS > prev[0]] before it
    compares the levels, so [add(5, 1)] on a channel whose last entry is
    [(5, 1)] raises [AssertionError] instead of being dropped. *)
Lemma add_same_level_same_time_raises :
  Channel.add 5%Q 1 (Channel.mk "UART_TX" [(5%Q, 1)] false)
  = Raised AssertionError.
Proof. reflexivity. Qed.

(** C8, amended: for every non-empty channel whose last stored entry has
    level [v], [add(ts, v)] is silently dropped for every timestamp [ts]
    strictly greater than the last stored timestamp: the call returns and
    the channel is unchanged.  Stated for any timestamp arithmetic. *)
Theorem add_same_level_dropped {T : Type} `{TimeOps T} (ch : Channel.t T)
    (prev : T * Z) (ts : T) :
  last (Channel.entries ch) = Some prev ->
  t_gtb ts (fst prev) = true ->
  Channel.add ts (snd prev) ch = Returned ch.
Proof.
  intros Hlast Hgt. unfold Channel.add. rewrite Hlast, Hgt, Z.eqb_refl.
  reflexivity.
Qed.

Lemma add_same_level_dropped_witness :
  Channel.add 6%Q 1 (Channel.mk "UART_TX" [(0%Q, 0); (5%Q, 1)] false)
  = Returned (Channel.mk "UART_TX" [(0%Q, 0); (5%Q, 1)] false).
Proof.
  apply (add_same_level_dropped
           (Channel.mk "UART_TX" [(0%Q, 0); (5%Q, 1)] false) (5%Q, 1) 6%Q);
    reflexivity.
Defined.

(** ** Cursor *)

(** C9: a shallow copy of a cursor is a new object bound to the same tuple
    of entries.  After any sequence of [advance] and
    [advanceUntilChangeTo] calls on the copy, returning or raising, the
    original still holds its [curIndex], [curPosition] and
    [startOfNextEntry], both cursors refer to the same tuple, and the
    tuple is as it was.  Stated for any timestamp arithmetic. *)
Theorem moves_on_copy_leave_original {T : Type} `{TimeOps T}
    (h : gmap Heap.loc (Heap.obj T)) (l r : Heap.loc) (es : list (T * Z))
    (i : nat) (p s : T) (l' : Heap.loc) (h1 : gmap Heap.loc (Heap.obj T))
    (mvs : list (Heap.move T)) :
  h !! l = Some (Heap.Cursor r i p s) ->
  h !! r = Some (Heap.Tuple es) ->
  Heap.copy l h = Some (l', h1) ->
  exists h2 i' p' s',
    Heap.run_moves l' mvs h1 = Some h2 /\
    h2 !! l = Some (Heap.Cursor r i p s) /\
    h2 !! l' = Some (Heap.Cursor r i' p' s') /\
    h2 !! r = Some (Heap.Tuple es) /\
    l' <> l.
Proof.
  intros Hl Hr Hcopy. apply copy_fresh in Hcopy.
  destruct Hcopy as (Hfresh & r0 & i0 & p0 & s0 & Hl0 & ->).
  rewrite Hl in Hl0. injection Hl0 as <- <- <- <-.
  assert (Hl'l : l' <> l) by (intros ->; rewrite Hl in Hfresh; discriminate).
  assert (Hl'r : l' <> r) by (intros ->; rewrite Hr in Hfresh; discriminate).
  destruct (run_moves_frame l' r es mvs (<[l' := Heap.Cursor r i p s]> h) i p s)
    as (h2 & i' & p' & s' & Hrun & Hl' & Hframe).
  { apply lookup_insert_eq. }
  { rewrite lookup_insert_ne; auto. }
  exists h2, i', p', s'. repeat split; auto.
  - rewrite Hframe by auto. rewrite lookup_insert_ne; auto.
  - rewrite Hframe by auto. rewrite lookup_insert_ne; auto.
Qed.

Lemma moves_on_copy_leave_original_witness :
  let h : gmap Heap.loc (Heap.obj Q) :=
    {[ 1%positive := Heap.Tuple [(0%Q, 1); (1%Q, 0); (2%Q, 1); (12%Q, 1)];
       2%positive := Heap.Cursor 1%positive 0 0%Q 1%Q ]} in
  exists h2 i' p' s',
    Heap.run_moves 3%positive
      [Heap.Advance (3 # 2)%Q; Heap.AdvanceUntilChangeTo 0; Heap.Advance 1%Q]
      (<[3%positive := Heap.Cursor 1%positive 0 0%Q 1%Q]> h) = Some h2 /\
    h2 !! 2%positive = Some (Heap.Cursor 1%positive 0 0%Q 1%Q) /\
    h2 !! 3%positive = Some (Heap.Cursor 1%positive i' p' s') /\
    h2 !! 1%positive = Some (Heap.Tuple [(0%Q, 1); (1%Q, 0); (2%Q, 1); (12%Q, 1)]) /\
    3%positive <> 2%positive.
Proof.
  intros h.
  apply (moves_on_copy_leave_original h 2%positive 1%positive
           [(0%Q, 1); (1%Q, 0); (2%Q, 1); (12%Q, 1)] 0 0%Q 1%Q 3%positive);
    vm_compute; reflexivity.
Defined.




(** ** Recogniser *)



(** C4, as stated, fails: on a channel with one real entry and the tail
    guard the first [advanceUntilChangeTo] raises the out-of-range
    condition inside the [try], the [except] clause catches it, and the
    generator ends normally without a frame; nothing reaches the caller. *)
Lemma recognizeUART_without_transition_returns :
  ~ (forall (ch0 ch : Channel.t Q) (ts : Q) (v : Z) (tailLength : Q)
            (baudrate bits : Z) (omit : bool),
       Channel.entries ch0 = [(ts, v)] ->
       Channel.finishAdding tailLength ch0 = Returned ch ->
       snd (recognizeUART ch baudrate bits omit)
       = Raised ChannelCursorOutOfRangeException).
Proof.
  intros Hclaim.
  specialize (Hclaim (Channel.mk "UART_TX" [(0%Q, 1)] false)
                (Channel.mk "UART_TX" [(0%Q, 1); ((0 + 10)%Q, 1)] true)
                0%Q 1 10%Q 9600 8 true eq_refl eq_refl).
  vm_compute in Hclaim. discriminate.
Qed.

Lemma lone_entry_advance {T : Type} `{TimeOps T} (e0 : T * Z) (next : T)
    (v' : Z) (pos : T) :
  advance (t_sub next pos) (ChannelCursor.mk [e0; (next, v')] 0 pos next)
  = if t_geb (t_add pos (t_sub next pos)) next then
      (Raised ChannelCursorOutOfRangeException,
       ChannelCursor.mk [e0; (next, v')] 2 pos next)
    else
      (Returned tt,
       ChannelCursor.mk [e0; (next, v')] 0 (t_add pos (t_sub next pos)) next).
Proof.
  unfold advance, advance_loop, bind, get, modify, raiseIfAtEnd,
    getStartOfNextEntry, entry_at, ret, raise, bind, get.
  simpl. destruct (t_geb (t_add pos (t_sub next pos)) next) eqn:Hge;
    simpl; rewrite ?Hge; reflexivity.
Qed.

Lemma lone_entry_seek {T : Type} `{TimeOps T} (e0 : T * Z) (next : T) (v' : Z)
    (pos : T) (target : Z) :
  fst (advanceUntilChangeTo target (ChannelCursor.mk [e0; (next, v')] 0 pos next))
  = if t_geb (t_add pos (t_sub next pos)) next then
      Raised ChannelCursorOutOfRangeException
    else Raised AssertionError.
Proof.
  rewrite advanceUntilChangeTo_eq.
  cbn [isAtEnd entries curIndex length Nat.leb startOfNextEntry curPosition].
  rewrite lone_entry_advance.
  destruct (t_geb (t_add pos (t_sub next pos)) next); reflexivity.
Qed.

(** C4, amended: for every channel with a single real entry and the tail
    guard, and every baud rate other than 0 that [float] accepts,
    [recognizeUART] yields no frame and does not propagate the
    out-of-range condition.  When the first step of
    [advanceUntilChangeTo], from the entry's timestamp by the guard's
    timestamp minus the entry's, reaches the guard's timestamp as
    computed, the out-of-range condition is raised inside the [try], the
    loop catches it and the generator ends normally without retrying;
    exact arithmetic always does so.  Where the arithmetic leaves that
    step short, the assertion of [advanceUntilChangeTo] fails and
    [AssertionError] reaches the caller.  For any timestamp
    arithmetic, binary64 included. *)
Theorem recognizeUART_without_transition {T : Type} `{TimeOps T}
    (ch0 ch : Channel.t T) (ts : T) (v : Z) (tailLength : T)
    (baudrate bits : Z) (omit : bool) :
  Channel.entries ch0 = [(ts, v)] ->
  t_gtb tailLength (t_of_Z 0) = true ->
  Channel.finishAdding tailLength ch0 = Returned ch ->
  t_float baudrate <> None ->
  baudrate <> 0 ->
  recognizeUART ch baudrate bits omit
  = ([], if t_geb (t_add ts (t_sub (t_add ts tailLength) ts))
                  (t_add ts tailLength)
         then Returned tt else Raised AssertionError).
Proof.
  intros Hes Htail Hfin Hrate Hb.
  destruct (finishAdding_entries _ _ _ Hfin) as [(_ & prev & Hlast & Hch)|[Hno _]];
    [|congruence].
  rewrite Hes in Hlast, Hch. injection Hlast as <-. simpl in Hch.
  unfold recognizeUART, ChannelCursor.init. rewrite Hch.
  rewrite getStartOfNextEntry_eq. unfold next_slot.
  cbn [entries curIndex length Nat.sub Nat.ltb Nat.leb Nat.add lookup
       list_lookup fst set_startOfNextEntry curPosition startOfNextEntry].
  destruct (t_float baudrate) as [rate|]; [|contradiction].
  destruct (Z.eqb_spec baudrate 0) as [|_]; [contradiction|].
  unfold set_startOfNextEntry. cbn [entries curIndex curPosition].
  rewrite recognize_loop_eq. unfold recognize_iter, bind at 1.
  pose proof (lone_entry_seek (ts, v) (t_add ts tailLength) v ts 0) as Hseek.
  destruct (advanceUntilChangeTo 0 _) as [r c1]. simpl in Hseek. subst r.
  destruct (t_geb _ _); reflexivity.
Qed.

Lemma recognizeUART_without_transition_witness :
  recognizeUART (Channel.mk "UART_TX" [(0%float, 1); (10%float, 1)] true)
    9600 8 true
  = ([], Returned tt).
Proof.
  rewrite (recognizeUART_without_transition
             (Channel.mk "UART_TX" [(0%float, 1)] false)
             (Channel.mk "UART_TX" [(0%float, 1); (10%float, 1)] true)
             0%float 1 10%float 9600 8 true);
    [vm_compute; reflexivity|reflexivity|vm_compute; reflexivity
    |vm_compute; reflexivity|vm_compute; discriminate|discriminate].
Defined.

(** C1: the scenario fails on binary64 timestamps.  The capture of the
    byte 0x41 at 9600 baud is stored by [add] and [finishAdding].  With
    the line idle from 0.000874663 and the start bit falling at
    0.00186429, [recognizeUART] yields no frame: the first step of
    [advanceUntilChangeTo], by [startOfNextEntry - curPosition], falls
    short of the falling edge under rounding,
    [assert(self.curIndex != origIndex)] fails and [AssertionError]
    reaches the caller.  With the line idle from 0 and the start bit
    falling at 2.976, the frame is yielded, and then the same assertion
    fails instead of the generator ending. *)
Theorem recognizeUART_byte_0x41_assertion :
  (exists ch0 ch,
     Channel.add_all
       (byte_0x41_rows rounding_pos rounding_next (1 / 9600)%float)
       (Channel.init "UART_TX") = Returned ch0 /\
     Channel.finishAdding Channel.default_tailLength ch0 = Returned ch /\
     recognizeUART ch 9600 8 true = ([], Raised AssertionError)) /\
  (exists ch0 ch,
     Channel.add_all
       (byte_0x41_rows 0%float 0x1.7ced916872b02p+1%float (1 / 9600)%float)
       (Channel.init "UART_TX") = Returned ch0 /\
     Channel.finishAdding Channel.default_tailLength ch0 = Returned ch /\
     recognizeUART ch 9600 8 true
     = ([(0x1.7ced916872b02p+1%float, 65, true)], Raised AssertionError)).
Proof.
  split; eexists _, _; repeat split; vm_compute; reflexivity.
Qed.

(** In exact arithmetic the scenario holds whenever the line idles before
    the start bit: exactly one frame, with byte value 65, validity flag
    true and the time of the falling start-bit edge as its timestamp, and
    then the generator ends. *)
Lemma recognizeUART_byte_0x41_exact (name : string) (idle start : Q)
    (omit : bool) :
  (idle < start)%Q ->
  exists ch0 ch stamp,
    Channel.add_all (byte_0x41_rows idle start (1 / 9600)%Q) (Channel.init name)
    = Returned ch0 /\
    Channel.finishAdding Channel.default_tailLength ch0 = Returned ch /\
    recognizeUART ch 9600 8 omit = ([(stamp, 65, true)], Returned tt) /\
    (stamp == start)%Q.
Proof.
  intros Hi.
  assert (Hb : (0 < 1 / 9600)%Q) by reflexivity.
  assert (Hb1 : (1 / 9600 <= 1)%Q) by discriminate.
  destruct (byte_0x41_channel name idle start (1 / 9600)%Q Hi Hb)
    as (ch0 & Hadd & Hfin).
  destruct (byte_0x41_run name idle start (1 / 9600)%Q omit Hi Hb Hb1)
    as (stamp & Hrun & Hstamp).
  exists ch0, (Channel.mk name (byte_0x41_entries idle start (1 / 9600)%Q) true), stamp.
  repeat split; auto.
Qed.

(** And on binary64 it holds for the line idle from 0 and the start bit
    falling at 1. *)
Example recognizeUART_byte_0x41_binary64 :
  exists ch0 ch,
    Channel.add_all (byte_0x41_rows 0%float 1%float (1 / 9600)%float)
      (Channel.init "UART_TX") = Returned ch0 /\
    Channel.finishAdding Channel.default_tailLength ch0 = Returned ch /\
    recognizeUART ch 9600 8 true = ([(1%float, 65, true)], Returned tt).
Proof. eexists _, _. repeat split; vm_compute; reflexivity. Qed.
(** C6, as stated, fails: the look-ahead does not measure the pulse, it
    samples the level once, half a bit period after the edge.  With 1 s
    bit periods, a low pulse of 0.125 s at 1 s followed 0.125 s later by a
    second falling edge makes the sample at 1.5 s read 0, and the
    recogniser emits a frame stamped with the falling edge of the short
    pulse.  The timestamps are binary64 numbers. *)
Lemma short_start_pulse_decoded :
  let ch := Channel.mk "UART_TX"
              [(0%float, 1); (1%float, 0); (1.125%float, 1); (1.25%float, 0);
               (2%float, 1); (12%float, 1)] true in
  PrimFloat.ltb (1.125 - 1)%float (1 / 2)%float = true /\
  recognizeUART ch 1 8 true = ([(1%float, 255, true)], Returned tt).
Proof. intros ch. split; vm_compute; reflexivity. Qed.

(** In exact arithmetic a low pulse shorter than half a bit period that
    is followed by a non-zero level lasting beyond the sample is never
    decoded: no frame of the whole run is stamped with its edge. *)
Lemma short_start_pulse_never_yielded (ch : Channel.t Q) (baudrate bits : Z)
    (omit : bool) (i : nat) (fall rise : Q) (level : Z) :
  increasing (Channel.entries ch) ->
  Channel.entries ch !! i = Some (fall, 0) ->
  Channel.entries ch !! S i = Some (rise, level) ->
  level <> 0 ->
  (rise - fall < 1 / inject_Z baudrate / 2)%Q ->
  (forall e, Channel.entries ch !! S (S i) = Some e ->
             (fall + 1 / inject_Z baudrate / 2 < fst e)%Q) ->
  forall f, In f (fst (recognizeUART ch baudrate bits omit)) ->
            ~ (frame_ts f == fall)%Q.
Proof.
  intros Hinc Hfall Hrise Hlevel Hshort Hstay f. unfold recognizeUART.
  destruct (decide (Channel.entries ch = [])) as [Hnil|Hne].
  - unfold ChannelCursor.init. rewrite Hnil. intros [].
  - destruct (init_inv ch Hne) as (c & -> & Hinv).
    cbn [t_float Q_time].
    destruct (baudrate =? 0); [intros []|].
    eapply pulse_never_yielded; eauto.
Qed.

(** C6, amended: what rejects a candidate start pulse is the level
    sampled half a bit period after its edge, not its length.  On a pass
    whose seek stops on the candidate edge, at entry [curIndex] and
    position [p], let the sample position [p + bitperiod / 2], as
    computed, pass the [>=] test of [advance] against the timestamps of
    the entries after the candidate up to entry [j], and not against that
    of entry [j + 1].  When the level of entry [j] is not 0 (the low
    pulse ended within half a bit period and the line is not low at the
    sample, whatever glitches lie between) the look-ahead on the copy
    rejects the candidate: the pass yields no frame, and the real cursor
    is moved forward by half a bit period, to entry [j] at position
    [p + bitperiod / 2], from where the next pass scans.  For any
    timestamp arithmetic, binary64 included. *)
Theorem short_start_pulse_rejected {T : Type} `{TimeOps T} (bitperiod : T)
    (bits : Z) (omit : bool) (c c1 : ChannelCursor.t T) (j : nat)
    (ej e1 : T * Z) :
  let sample := t_add (curPosition c1) (t_div bitperiod (t_of_Z 2)) in
  wf c ->
  advanceUntilChangeTo 0 c = (Returned tt, c1) ->
  (curIndex c1 <= j)%nat ->
  Forall (fun e => t_geb sample (fst e) = true)
         (take (j - curIndex c1) (drop (S (curIndex c1)) (entries c1))) ->
  entries c1 !! j = Some ej ->
  snd ej <> 0 ->
  entries c1 !! S j = Some e1 ->
  t_geb sample (fst e1) = false ->
  recognize_iter bitperiod bits omit c
  = (Returned None, ChannelCursor.mk (entries c1) j sample (fst e1)).
Proof.
  intros sample Hwf Hseek Hij Hall Hej Hlevel He1 Hstop.
  destruct (seek_wf _ _ _ Hwf Hseek) as [[_ Hsync] _].
  pose proof (advance_reaches c1 (t_div bitperiod (t_of_Z 2)) j e1
                Hsync Hij Hall He1 Hstop) as Hpeek.
  apply (recognize_iter_nudge bitperiod bits omit c c1 _ (snd ej));
    [exact Hseek|exact Hpeek| |exact Hlevel].
  rewrite getValue_eq. cbn [entries curIndex]. rewrite Hej. reflexivity.
Qed.

Lemma short_start_pulse_rejected_witness :
  let es := [(0%float, 1); (1%float, 0); (1.125%float, 1); (2%float, 0);
             (3%float, 1); (13%float, 1)] in
  recognize_iter 1%float 8 false (ChannelCursor.mk es 0 0%float 1%float)
  = (Returned None, ChannelCursor.mk es 2 1.5%float 2%float).
Proof.
  intros es.
  rewrite (short_start_pulse_rejected 1%float 8 false
             (ChannelCursor.mk es 0 0%float 1%float)
             (ChannelCursor.mk es 1 1%float 1.125%float) 2
             (1.125%float, 1) (2%float, 0)).
  - vm_compute. reflexivity.
  - split; [simpl; lia|reflexivity].
  - vm_compute. reflexivity.
  - simpl. lia.
  - cbn. repeat constructor.
  - reflexivity.
  - discriminate.
  - reflexivity.
  - vm_compute. reflexivity.
Defined.

(** C2: [advanceUntilChangeTo] moves one boundary and, when the level is
    not the target, one more; it does not look at the level it ends on.
    Over the levels 0, 1, 2, 0 the call for level 0 returns on level 2.
    And under binary64 rounding the first step can fall short of the
    boundary, so that [assert(self.curIndex != origIndex)] fails: from
    0.000874663 towards 0.00186429 ([rounding_pos], [rounding_next]) the
    call raises [AssertionError], neither returning nor raising the
    out-of-range condition. *)
Theorem advanceUntilChangeTo_misses_target :
  (exists ch0 ch c c',
     Channel.add_all [(0%Q, 0); (1%Q, 1); (2%Q, 2); (3%Q, 0)]
       (Channel.init "TRACE") = Returned ch0 /\
     Channel.finishAdding Channel.default_tailLength ch0 = Returned ch /\
     ChannelCursor.init ch = Returned c /\
     advanceUntilChangeTo 0 c = (Returned tt, c') /\
     getValue c' = (Returned 2, c')) /\
  (exists ch0 ch c c',
     Channel.add_all [(rounding_pos, 1); (rounding_next, 0)]
       (Channel.init "UART_TX") = Returned ch0 /\
     Channel.finishAdding Channel.default_tailLength ch0 = Returned ch /\
     ChannelCursor.init ch = Returned c /\
     advanceUntilChangeTo 0 c = (Raised AssertionError, c')).
Proof.
  split; eexists _, _, _, _; repeat split; vm_compute; reflexivity.
Qed.

(** Binary64 subtraction and addition round: stepping by
    [startOfNextEntry - curPosition] can stop short of
    [startOfNextEntry]. *)
Lemma binary64_not_self_advancing : ~ self_advancing (T := float).
Proof.
  intros Hlaw.
  specialize (Hlaw rounding_pos rounding_next).
  vm_compute in Hlaw. discriminate.
Qed.

(** The same capture through the recogniser: the assertion reaches the
    caller. *)
Example recognizeUART_binary64_assertion :
  exists ch0 ch,
    Channel.add_all [(rounding_pos, 1); (rounding_next, 0)]
      (Channel.init "UART_TX") = Returned ch0 /\
    Channel.finishAdding Channel.default_tailLength ch0 = Returned ch /\
    recognizeUART ch 9600 8 true = ([], Raised AssertionError).
Proof. eexists _, _. repeat split; vm_compute; reflexivity. Qed.

(** * Further properties of the code *)

(** ** Cursor *)

(** X1: [advance], whatever the duration and the arithmetic, never touches
    the entries and never moves [curIndex] backwards; when it returns,
    [curPosition] has grown by exactly the duration; when it raises, the
    exception is the out-of-range condition, [curPosition] is as before
    and the cursor is at its end. *)
Theorem advance_effect {T : Type} `{TimeOps T} (advanceBy : T)
    (c : ChannelCursor.t T) :
  let c' := snd (advance advanceBy c) in
  entries c' = entries c /\
  (curIndex c <= curIndex c')%nat /\
  match fst (advance advanceBy c) with
  | Returned _ => curPosition c' = t_add (curPosition c) advanceBy
  | Raised e =>
      e = ChannelCursorOutOfRangeException /\
      curPosition c' = curPosition c /\ isAtEnd c' = true
  | OutOfFuel => False
  end.
Proof.
  destruct (advance advanceBy c) as [r c'] eqn:Hadv. simpl.
  pose proof (advance_outcome _ _ _ _ Hadv) as [Hes Hr].
  split; [exact Hes|]. destruct r as [[]|e|]; [| |contradiction].
  - destruct Hr as (Hp & _ & [[Hi _]|[Hi _]]); split; auto; lia.
  - destruct Hr as (-> & Hi & Hl & Hp). split; [lia|]. repeat split; auto.
    unfold isAtEnd. rewrite Hes. apply Nat.leb_le. exact Hl.
Qed.

(** X2: once [advance] has raised, the cursor is spent: every later
    [advanceUntilChangeTo] raises the out-of-range condition again and
    leaves it as it is, [getValue] raises [IndexError] (the comment at
    [getValue] promises [None] there), and a later [advance] raises the
    out-of-range condition again when its target position is [>=] the
    [startOfNextEntry] left behind, and returns otherwise. *)
Theorem spent_cursor {T : Type} `{TimeOps T} (advanceBy : T)
    (c : ChannelCursor.t T) (e : exn) (targetValue : Z) (later : T) :
  fst (advance advanceBy c) = Raised e ->
  let c' := snd (advance advanceBy c) in
  advanceUntilChangeTo targetValue c'
  = (Raised ChannelCursorOutOfRangeException, c') /\
  getValue c' = (Raised IndexError, c') /\
  fst (advance later c')
  = if t_geb (t_add (curPosition c') later) (startOfNextEntry c')
    then Raised ChannelCursorOutOfRangeException else Returned tt.
Proof.
  intros Hr c'. destruct (advance advanceBy c) as [r c0] eqn:Hadv.
  simpl in Hr. subst r c'. cbn [snd].
  pose proof (advance_outcome _ _ _ _ Hadv) as (Hes & _ & _ & Hlen & _).
  assert (Hend : isAtEnd c0 = true).
  { unfold isAtEnd. rewrite Hes. apply Nat.leb_le. exact Hlen. }
  split; [|split].
  - rewrite advanceUntilChangeTo_eq, Hend. reflexivity.
  - rewrite getValue_eq. unfold isAtEnd in Hend. apply Nat.leb_le in Hend.
    rewrite (proj2 (lookup_ge_None _ _) Hend). reflexivity.
  - unfold advance. rewrite advance_loop_eq.
    destruct (t_geb _ _); [|reflexivity].
    cbv zeta.
    assert (Hend' : isAtEnd (set_curIndex (S (curIndex c0)) c0) = true).
    { unfold isAtEnd in *. simpl. apply Nat.leb_le in Hend.
      apply Nat.leb_le. lia. }
    rewrite Hend'. reflexivity.
Qed.

Lemma spent_cursor_witness :
  let c := ChannelCursor.mk [(0%float, 1); (1%float, 0); (11%float, 0)]
             0 0%float 1%float in
  let c' := snd (advance 20%float c) in
  advanceUntilChangeTo 0 c' = (Raised ChannelCursorOutOfRangeException, c') /\
  getValue c' = (Raised IndexError, c') /\
  fst (advance 11%float c') = Raised ChannelCursorOutOfRangeException /\
  fst (advance 1%float c') = Returned tt.
Proof.
  intros c c'. subst c'.
  assert (Hr : fst (advance 20%float c) = Raised ChannelCursorOutOfRangeException)
    by (vm_compute; reflexivity).
  destruct (spent_cursor 20%float c ChannelCursorOutOfRangeException 0
              11%float Hr) as (Hseek & Hval & Hraise).
  destruct (spent_cursor 20%float c ChannelCursorOutOfRangeException 0
              1%float Hr) as (_ & _ & Hret).
  split; [exact Hseek|]. split; [exact Hval|]. split.
  - rewrite Hraise. vm_compute. reflexivity.
  - rewrite Hret. vm_compute. reflexivity.
Defined.

Section ForwardFacts.
Local Open Scope Q_scope.
Implicit Types (c : ChannelCursor.t Q) (es : list (Q * Z)).

Lemma increasing_tail (a : Q * Z) es : increasing (a :: es) -> increasing es.
Proof. intros Hinc i x y Hx Hy. exact (Hinc (S i) x y Hx Hy). Qed.

Lemma level_at_lookup es i e t :
  increasing es -> es !! i = Some e -> fst e <= t ->
  (forall e', es !! S i = Some e' -> t < fst e') ->
  level_at es t = Some (snd e).
Proof.
  revert i. induction es as [|a es IH]; intros i Hinc He Hle Hnext; [discriminate|].
  simpl. destruct i as [|i]; simpl in He.
  - injection He as ->. rewrite (proj2 (Qle_bool_iff _ _) Hle).
    destruct es as [|b es']; [reflexivity|]. simpl.
    specialize (Hnext b eq_refl).
    destruct (Qle_bool (fst b) t) eqn:Hb; [|reflexivity].
    apply Qle_bool_iff in Hb. lra.
  - assert (Ha : fst a <= t).
    { pose proof (increasing_lt (a :: es) 0 (S i) a e Hinc) as Hlt.
      specialize (Hlt ltac:(lia) eq_refl He). lra. }
    rewrite (proj2 (Qle_bool_iff _ _) Ha).
    rewrite (IH i (increasing_tail _ _ Hinc) He Hle Hnext). reflexivity.
Qed.

Lemma in_sync_next c e' :
  in_sync c -> entries c !! S (curIndex c) = Some e' ->
  startOfNextEntry c = fst e'.
Proof.
  intros Hs He'. apply in_sync_entry in Hs. destruct Hs as (e & He & <-).
  unfold next_slot in He. pose proof (lookup_lt_Some _ _ _ He').
  destruct (Nat.ltb_spec (curIndex c) (length (entries c) - 1)); [|lia].
  rewrite Nat.add_1_r, He' in He. injection He as ->. reflexivity.
Qed.

Lemma advance_within c d c' :
  wf c -> within c -> 0 <= d -> advance d c = (Returned tt, c') -> within c'.
Proof.
  intros Hwf (e & He & Hle & Hnext) Hd Hadv.
  destruct (advance_wf _ _ _ Hwf Hadv) as ([_ Hs'] & Hes & _).
  pose proof (advance_outcome _ _ _ _ Hadv) as (_ & Hp & Hge & Hmv).
  apply Qgeb_false in Hge. simpl in Hge, Hp.
  assert (Hup : forall e', entries c' !! S (curIndex c') = Some e' ->
                           curPosition c' < fst e').
  { intros e' He'. rewrite <- (in_sync_next _ _ Hs' He'), Hp. exact Hge. }
  destruct Hmv as [[Hi _]|[Hi _]].
  - exists e. split; [rewrite Hes, Hi; exact He|].
    split; [rewrite Hp; lra|exact Hup].
  - destruct Hwf as [_ Hs].
    destruct (advance_loop_crossed _ _ _ _ Hs Hadv) as (e1 & He1 & Hcross); [lia|].
    apply Qgeb_true in Hcross. simpl in Hcross.
    exists e1. split; [rewrite Hes; exact He1|].
    split; [rewrite Hp; exact Hcross|exact Hup].
Qed.

Lemma boundary_within c c' :
  increasing (entries c) -> wf c ->
  advance (startOfNextEntry c - curPosition c) c = (Returned tt, c') ->
  within c'.
Proof.
  intros Hinc Hwf Hadv.
  destruct (advance_to_boundary _ _ Hinc Hwf Hadv) as (_ & Hes & _ & _ & e & He & Hpos).
  exists e. rewrite Hes. split; [exact He|]. split; [lra|].
  intros e' He'. pose proof (Hinc _ _ _ He He'). lra.
Qed.

Lemma forward_within (ch : Channel.t Q) c :
  increasing (Channel.entries ch) -> forward ch c ->
  wf c /\ entries c = Channel.entries ch /\ within c.
Proof.
  intros Hinc Hfwd.
  induction Hfwd as [c Hinit|c d c' _ IH Hd Hadv|c v c' _ IH Hseek].
  - destruct (decide (Channel.entries ch = [])) as [Hnil|Hne].
    { unfold ChannelCursor.init in Hinit. rewrite Hnil in Hinit. discriminate. }
    destruct (init_inv ch Hne) as (c0 & Hc0 & Hwf & Hes & _).
    rewrite Hinit in Hc0. injection Hc0 as <-.
    split; [exact Hwf|]. split; [exact Hes|].
    unfold ChannelCursor.init in Hinit.
    destruct (Channel.entries ch) as [|e0 es'] eqn:Hch; [discriminate|].
    destruct (getStartOfNextEntry _) as [[s|e|] c1] eqn:Hg; try discriminate.
    rewrite getStartOfNextEntry_eq in Hg.
    destruct (_ !! _) in Hg; try discriminate.
    injection Hg as _ <-. injection Hinit as <-. simpl.
    exists e0. simpl. split; [reflexivity|]. split; [lra|].
    intros e' He'. exact (Hinc 0%nat e0 e' eq_refl He').
  - destruct IH as (Hwf & Hes & Hin).
    destruct (advance_wf _ _ _ Hwf Hadv) as (Hwf' & Hes' & _).
    split; [exact Hwf'|]. split; [congruence|].
    exact (advance_within c d c' Hwf Hin Hd Hadv).
  - destruct IH as (Hwf & Hes & Hin).
    assert (Hinc' : increasing (entries c)) by (rewrite Hes; exact Hinc).
    destruct (seek_lands _ _ _ Hinc' Hwf Hseek) as (Hwf' & Hes' & _).
    split; [exact Hwf'|]. split; [congruence|].
    apply advanceUntilChangeTo_returned in Hseek.
    destruct Hseek as (c0 & Hadv & _ & e1 & _ & [[_ ->]|[_ Hadv2]]).
    + exact (boundary_within c c0 Hinc' Hwf Hadv).
    + destruct (advance_to_boundary _ _ Hinc' Hwf Hadv) as (Hwf0 & Hes0 & _).
      assert (Hinc0 : increasing (entries c0)) by (rewrite Hes0; exact Hinc').
      exact (boundary_within c0 c' Hinc0 Hwf0 Hadv2).
Qed.
End ForwardFacts.

(** X3: for a cursor that has only been stepped forward over a trace with
    increasing timestamps, [getValue] returns, and what it returns is the
    level of the trace at [curPosition]: the level of the last entry whose
    timestamp is not after the position.  Timestamps are exact. *)
Theorem getValue_is_level_at_position (ch : Channel.t Q)
    (c : ChannelCursor.t Q) :
  increasing (Channel.entries ch) ->
  forward ch c ->
  exists v, getValue c = (Returned v, c) /\
            level_at (Channel.entries ch) (curPosition c) = Some v.
Proof.
  intros Hinc Hfwd.
  destruct (forward_within ch c Hinc Hfwd) as (_ & Hes & e & He & Hle & Hnext).
  exists (snd e). rewrite getValue_eq, He. split; [reflexivity|].
  rewrite <- Hes. rewrite <- Hes in Hinc.
  eapply level_at_lookup; eauto.
Qed.

Lemma getValue_is_level_at_position_witness :
  let ch := Channel.mk "UART_TX" [(0%Q, 1); (1%Q, 0); (3%Q, 1); (13%Q, 1)] true in
  let c := ChannelCursor.mk (Channel.entries ch) 1 (0 + (3 # 2))%Q 3%Q in
  exists v, getValue c = (Returned v, c) /\
            level_at (Channel.entries ch) (curPosition c) = Some v.
Proof.
  intros ch c. apply (getValue_is_level_at_position ch c).
  - intros i a b Ha Hb.
    do 4 (destruct i as [|i];
          [cbn in Ha, Hb; try discriminate;
           injection Ha as <-; injection Hb as <-; reflexivity|]).
    discriminate.
  - apply (fwd_advance ch (ChannelCursor.mk (Channel.entries ch) 0 0%Q 1%Q)
             (3 # 2)%Q c).
    + apply fwd_init. reflexivity.
    + discriminate.
    + reflexivity.
Defined.

Section CompositionFacts.
Local Open Scope Q_scope.
Implicit Types (c : ChannelCursor.t Q) (es : list (Q * Z)).


End CompositionFacts.






(** ** Recogniser *)

Section OmitFacts.
Context {T : Type} `{TimeOps T}.
Implicit Types (c : ChannelCursor.t T).

(** The omit flag changes what a pass yields, not where it leaves the
    cursor. *)
Lemma recognize_iter_omit bitperiod bits c :
  recognize_iter bitperiod bits true c =
  match recognize_iter bitperiod bits false c with
  | (Returned (Some f), c') =>
      (Returned (if frame_valid f then Some f else None), c')
  | other => other
  end.
Proof.
  unfold recognize_iter, bind, getPosition, get, on_copy, ret.
  destruct (advanceUntilChangeTo 0 c) as [[[]|e|] c1]; try reflexivity.
  destruct (advance (t_div bitperiod (t_of_Z 2)) c1) as [[[]|e|] p] eqn:Hpeek;
    try reflexivity; simpl.
  destruct (getValue p) as [[v|e|] p']; try reflexivity; simpl.
  destruct (negb (v =? 0)); [rewrite Hpeek; reflexivity|].
  destruct (advance (t_mul _ _) c1) as [[[]|e|] c2]; try reflexivity.
  destruct (collect_bits bitperiod _ _ _ c2) as [[data|e|] c3]; try reflexivity.
  destruct (getValue c3) as [[stop|e|] c4]; try reflexivity.
  destruct (advance _ c4) as [[[]|e|] c5]; try reflexivity.
  simpl. unfold frame_valid. simpl. destruct (stop =? 1); reflexivity.
Qed.

Lemma recognize_loop_omit fuel bitperiod bits c :
  recognize_loop fuel bitperiod bits true c =
  (List.filter frame_valid (fst (recognize_loop fuel bitperiod bits false c)),
   snd (recognize_loop fuel bitperiod bits false c)).
Proof.
  revert c. induction fuel as [|fuel IH]; intros c; [reflexivity|].
  rewrite !recognize_loop_eq, recognize_iter_omit.
  destruct (recognize_iter bitperiod bits false c) as [[[f|]|e|] c'].
  - rewrite IH.
    destruct (recognize_loop fuel bitperiod bits false c') as [fs r].
    simpl. destruct (frame_valid f); reflexivity.
  - rewrite IH.
    destruct (recognize_loop fuel bitperiod bits false c') as [fs r].
    reflexivity.
  - destruct e; reflexivity.
  - reflexivity.
Qed.
End OmitFacts.

(** X6: the frames yielded with [omitInvalidFrames] set are exactly the
    valid ones among the frames yielded without it, in the same order,
    and the generator ends the same way: dropping a frame does not
    change the scan.  For any timestamp arithmetic. *)
Theorem recognizeUART_omit_filters {T : Type} `{TimeOps T} (ch : Channel.t T)
    (baudrate bits : Z) :
  recognizeUART ch baudrate bits true =
  (List.filter frame_valid (fst (recognizeUART ch baudrate bits false)),
   snd (recognizeUART ch baudrate bits false)).
Proof.
  unfold recognizeUART.
  destruct (ChannelCursor.init ch) as [c|e|]; try reflexivity.
  destruct (t_float baudrate) as [rate|]; [|reflexivity].
  destruct (baudrate =? 0); [reflexivity|].
  apply recognize_loop_omit.
Qed.

Section DataFacts.
Context {T : Type} `{TimeOps T}.
Implicit Types (c : ChannelCursor.t T) (es : list (T * Z)).

Lemma advanceUntilChangeTo_effect v c :
  let c' := snd (advanceUntilChangeTo v c) in
  entries c' = entries c /\ (curIndex c <= curIndex c')%nat.
Proof.
  rewrite advanceUntilChangeTo_eq. destruct (isAtEnd c); [simpl; auto|].
  pose proof (advance_moves (t_sub (startOfNextEntry c) (curPosition c)) c)
    as (Hes1 & Hi1 & _).
  destruct (advance _ c) as [[[]|e|] c1]; simpl in *; auto.
  destruct (negb _); simpl; auto.
  rewrite getValue_eq. destruct (entries c1 !! curIndex c1) as [e1|]; simpl; auto.
  destruct (negb _); simpl; auto.
  pose proof (advance_moves (t_sub (startOfNextEntry c1) (curPosition c1)) c1)
    as (Hes2 & Hi2 & _).
  simpl in *. split; [congruence|lia].
Qed.

(** The bits collected weigh least-significant first and stay below
    [2 ^ n] when the levels are 0 or 1. *)
Lemma collect_bits_effect bitperiod n data factor c :
  (forall e, In e (entries c) -> snd e = 0 \/ snd e = 1) ->
  let c' := snd (collect_bits bitperiod n data factor c) in
  entries c' = entries c /\ (curIndex c <= curIndex c')%nat /\
  forall d', fst (collect_bits bitperiod n data factor c) = Returned d' ->
             exists x, d' = data + factor * x /\ 0 <= x < 2 ^ Z.of_nat n.
Proof.
  revert data factor c. induction n as [|n IH]; intros data factor c Hbin.
  - simpl. repeat split; auto. intros d' [= <-]. exists 0. lia.
  - cbn [collect_bits]. unfold bind. rewrite getValue_eq.
    destruct (entries c !! curIndex c) as [e|] eqn:He;
      [|simpl; repeat split; auto; discriminate].
    pose proof (advance_moves bitperiod c) as (Hes1 & Hi1 & _).
    destruct (advance bitperiod c) as [[[]|ex|] c1]; simpl in Hes1, Hi1;
      try (simpl; repeat split; auto; discriminate).
    assert (Hbin1 : forall e, In e (entries c1) -> snd e = 0 \/ snd e = 1)
      by (rewrite Hes1; exact Hbin).
    specialize (IH (data + factor * snd e) (factor * 2) c1 Hbin1).
    destruct IH as (Hes2 & Hi2 & Hd).
    split; [congruence|]. split; [lia|].
    intros d' Hd'. destruct (Hd d' Hd') as (x & -> & Hx).
    assert (Hbit : snd e = 0 \/ snd e = 1).
    { apply Hbin. apply list_elem_of_In. eapply list_elem_of_lookup_2. exact He. }
    exists (snd e + 2 * x). split; [ring|].
    rewrite Nat2Z.inj_succ, Z.pow_succ_r by lia. lia.
Qed.

(** What a pass that yields a frame has done. *)
Lemma recognize_iter_yield_trace bitperiod bits omit c f c' :
  recognize_iter bitperiod bits omit c = (Returned (Some f), c') ->
  exists c1 c2,
    advanceUntilChangeTo 0 c = (Returned tt, c1) /\
    frame_ts f = curPosition c1 /\
    entries c2 = entries c1 /\ (curIndex c1 <= curIndex c2)%nat /\
    fst (collect_bits bitperiod (Z.to_nat bits) 0 1 c2) = Returned (frame_data f) /\
    (curIndex c2 <= curIndex c')%nat.
Proof.
  unfold recognize_iter, bind, getPosition, get, on_copy, ret.
  destruct (advanceUntilChangeTo 0 c) as [[[]|e|] c1]; try discriminate.
  destruct (advance (t_div bitperiod (t_of_Z 2)) c1) as [[[]|e|] p] eqn:Hpeek;
    try discriminate; simpl.
  destruct (getValue p) as [[v|e|] p']; try discriminate; simpl.
  destruct (negb (v =? 0)).
  { rewrite Hpeek. discriminate. }
  pose proof (advance_moves (t_mul bitperiod (t_div (t_of_Z 3) (t_of_Z 2))) c1)
    as (Hes2 & Hi2 & _).
  destruct (advance (t_mul _ _) c1) as [[[]|e|] c2]; try discriminate.
  simpl in Hes2, Hi2.
  assert (Hmono : (curIndex c2 <=
                   curIndex (snd (collect_bits bitperiod (Z.to_nat bits) 0 1 c2)))%nat).
  { clear. generalize 0 1. generalize (Z.to_nat bits). intros n. revert c2.
    induction n as [|n IH]; intros c2 data factor; [simpl; lia|].
    cbn [collect_bits]. unfold bind. rewrite getValue_eq.
    destruct (entries c2 !! curIndex c2); [|simpl; lia].
    pose proof (advance_moves bitperiod c2) as (_ & Hi & _).
    destruct (advance bitperiod c2) as [[[]|ex|] c3]; simpl in *; try lia.
    specialize (IH c3 (data + factor * snd p) (factor * 2)). lia. }
  destruct (collect_bits bitperiod _ _ _ c2) as [[data|e|] c3] eqn:Hbits;
    try discriminate.
  simpl in Hmono. rewrite getValue_eq.
  destruct (entries c3 !! curIndex c3) as [e3|]; [|discriminate].
  pose proof (advance_moves (t_div bitperiod (t_of_Z 2)) c3) as (_ & Hi5 & _).
  destruct (advance _ c3) as [[[]|e|] c5]; try discriminate.
  simpl in Hi5.
  destruct (omit && negb (snd e3 =? 1)); simpl; [discriminate|].
  intros [= <- <-]. exists c1, c2. rewrite Hbits.
  repeat split; auto; lia.
Qed.
End DataFacts.

Lemma seek_entries {T : Type} `{TimeOps T} v (c c1 : ChannelCursor.t T) r :
  advanceUntilChangeTo v c = (r, c1) ->
  entries c1 = entries c /\ (curIndex c <= curIndex c1)%nat.
Proof.
  intros Hseek. pose proof (advanceUntilChangeTo_effect v c) as Heff.
  rewrite Hseek in Heff. exact Heff.
Qed.

Lemma recognize_loop_data {T : Type} `{TimeOps T} fuel (es : list (T * Z)) i0
    bitperiod bits omit (c : ChannelCursor.t T) :
  inv es i0 c ->
  (forall e, In e es -> snd e = 0 \/ snd e = 1) ->
  forall f, In f (fst (recognize_loop fuel bitperiod bits omit c)) ->
            0 <= frame_data f < 2 ^ Z.max 0 bits.
Proof.
  revert i0 c. induction fuel as [|fuel IH]; intros i0 c Hinv Hbin;
    rewrite recognize_loop_eq; [intros f []|].
  pose proof (triple_recognize_iter es i0 bitperiod bits omit c Hinv) as Hnext.
  destruct (recognize_iter bitperiod bits omit c) as [[[f0|]|e|] c'] eqn:Hiter.
  - specialize (IH (S i0) c' Hnext Hbin).
    destruct (recognize_loop fuel bitperiod bits omit c') as [fs r].
    simpl. intros f [<-|Hin]; [|auto].
    apply recognize_iter_yield_trace in Hiter.
    destruct Hiter as (c1 & c2 & Hseek & _ & Hes2 & _ & Hbits & _).
    destruct (seek_entries _ _ _ _ Hseek) as [Hes1 _].
    destruct Hinv as (_ & Hes & _).
    assert (Hbin2 : forall e, In e (entries c2) -> snd e = 0 \/ snd e = 1)
      by (rewrite Hes2, Hes1, Hes; exact Hbin).
    destruct (collect_bits_effect bitperiod (Z.to_nat bits) 0 1 c2 Hbin2)
      as (_ & _ & Hd).
    destruct (Hd _ Hbits) as (x & -> & Hx).
    replace (Z.of_nat (Z.to_nat bits)) with (Z.max 0 bits) in Hx by lia. lia.
  - apply (IH (S i0) c' Hnext Hbin).
  - destruct e; intros f [].
  - intros f [].
Qed.

(** X7: over a trace whose levels are all 0 or 1, every frame yielded by
    [recognizeUART] carries a data value from 0 to [2 ^ bits - 1] (0 when
    [dataBitsPerFrame] is not positive): with the default 8 bits the value
    is a byte.  For any timestamp arithmetic. *)
Theorem recognizeUART_data_range {T : Type} `{TimeOps T} (ch : Channel.t T)
    (baudrate bits : Z) (omit : bool) (f : T * Z * bool) :
  (forall e, In e (Channel.entries ch) -> snd e = 0 \/ snd e = 1) ->
  In f (fst (recognizeUART ch baudrate bits omit)) ->
  0 <= frame_data f < 2 ^ Z.max 0 bits.
Proof.
  intros Hbin. unfold recognizeUART.
  destruct (decide (Channel.entries ch = [])) as [Hnil|Hne].
  - unfold ChannelCursor.init. rewrite Hnil. intros [].
  - destruct (init_inv ch Hne) as (c & -> & Hinv).
    destruct (t_float baudrate) as [rate|]; [|intros []].
    destruct (baudrate =? 0); [intros []|].
    eapply recognize_loop_data; eauto.
Qed.

Lemma recognizeUART_data_range_witness :
  let ch := Channel.mk "UART_TX"
              [(0%Q, 1); (1%Q, 0); (2%Q, 1); (3%Q, 0); (8%Q, 1); (9%Q, 0);
               (10%Q, 1); (20%Q, 1)] true in
  0 <= frame_data (1%Q, 65, true) < 2 ^ Z.max 0 8.
Proof.
  intros ch.
  apply (recognizeUART_data_range ch 1 8 true (1%Q, 65, true)).
  - intros e He. simpl in He.
    repeat (destruct He as [<-|He]; [simpl; auto|]). destruct He.
  - left. vm_compute. reflexivity.
Defined.

Section StampFacts.
Local Open Scope Q_scope.
Implicit Types (c : ChannelCursor.t Q) (es : list (Q * Z)).

Lemma increasing_cons (a : Q * Z) es :
  (forall b, es !! 0%nat = Some b -> fst a < fst b) -> increasing es ->
  increasing (a :: es).
Proof.
  intros Hhd Hinc [|i] x y Hx Hy; simpl in Hx, Hy.
  - injection Hx as <-. auto.
  - eauto.
Qed.

(** The frames of a run are stamped with timestamps of entries after the
    one the cursor is on, in increasing order. *)
Lemma recognize_loop_stamps fuel es bitperiod bits omit c :
  increasing es -> wf c -> entries c = es ->
  (forall f, In f (fst (recognize_loop fuel bitperiod bits omit c)) ->
     exists j e, (curIndex c < j)%nat /\ es !! j = Some e /\
                 frame_ts f == fst e) /\
  increasing (map fst (fst (recognize_loop fuel bitperiod bits omit c))).
Proof.
  intros Hinc. revert c.
  induction fuel as [|fuel IH]; intros c Hwf Hes; rewrite recognize_loop_eq.
  { split; [intros f []|intros i a b Ha; discriminate]. }
  assert (Hinv : inv es (curIndex c) c) by (repeat split; auto; apply Hwf).
  pose proof (triple_recognize_iter es _ bitperiod bits omit c Hinv) as Hnext.
  destruct (recognize_iter bitperiod bits omit c) as [[[f0|]|e|] c'] eqn:Hiter.
  - destruct Hnext as (Hwf' & Hes' & Hi').
    destruct (IH c' Hwf' Hes') as [Hstamps Hsorted].
    destruct (recognize_loop fuel bitperiod bits omit c') as [fs r].
    simpl in *.
    apply recognize_iter_yield_trace in Hiter.
    destruct Hiter as (c1 & c2 & Hseek & Hts & _ & Hi2 & _ & Hi3).
    assert (Hinc' : increasing (entries c)) by (rewrite Hes; exact Hinc).
    destruct (seek_lands _ _ _ Hinc' Hwf Hseek) as (_ & _ & _ & e0 & He0 & Hp0).
    rewrite Hes in He0.
    assert (Hlt0 : (curIndex c < curIndex c1)%nat).
    { apply advanceUntilChangeTo_returned in Hseek.
      destruct Hseek as (c0 & Hadv & Hlt & e1 & _ & [[_ ->]|[_ Hadv2]]); [exact Hlt|].
      pose proof (advance_moves (startOfNextEntry c0 - curPosition c0) c0)
        as (_ & Hle & _).
      change (t_sub (startOfNextEntry c0) (curPosition c0))
        with (startOfNextEntry c0 - curPosition c0) in Hadv2.
      rewrite Hadv2 in Hle. simpl in Hle. lia. }
    split.
    + intros f [<-|Hin].
      * exists (curIndex c1), e0. rewrite Hts. auto.
      * destruct (Hstamps f Hin) as (j & e & Hj & He & Hf).
        exists j, e. repeat split; auto. lia.
    + apply increasing_cons; [|exact Hsorted].
      intros b Hb. destruct fs as [|f1 fs']; [discriminate|].
      simpl in Hb. injection Hb as <-.
      destruct (Hstamps f1 (or_introl eq_refl)) as (j & e & Hj & He & Hf).
      pose proof (increasing_lt es (curIndex c1) j e0 e Hinc) as Hlt.
      specialize (Hlt ltac:(lia) He0 He). unfold frame_ts in Hf, Hts.
      assert (Hf0 : fst (fst f0) == fst e0) by (rewrite Hts; exact Hp0).
      lra.
  - destruct Hnext as (Hwf' & Hes' & Hi').
    destruct (IH c' Hwf' Hes') as [Hstamps Hsorted].
    split; [|exact Hsorted].
    intros f Hin. destruct (Hstamps f Hin) as (j & e & Hj & He & Hf).
    exists j, e. repeat split; auto. lia.
  - destruct e; (split; [intros f []|intros i a b Ha; discriminate]).
  - split; [intros f []|intros i a b Ha; discriminate].
Qed.
End StampFacts.

(** In exact arithmetic, over a trace with increasing timestamps, the
    frames of [recognizeUART] come out in strictly increasing order of
    timestamp, and the timestamp of each frame is the timestamp of a
    stored entry. *)
Lemma recognizeUART_stamps_exact (ch : Channel.t Q) (baudrate bits : Z)
    (omit : bool) :
  increasing (Channel.entries ch) ->
  increasing (map fst (fst (recognizeUART ch baudrate bits omit))) /\
  forall f, In f (fst (recognizeUART ch baudrate bits omit)) ->
    exists e, In e (Channel.entries ch) /\ (frame_ts f == fst e)%Q.
Proof.
  intros Hinc. unfold recognizeUART.
  destruct (decide (Channel.entries ch = [])) as [Hnil|Hne].
  { unfold ChannelCursor.init. rewrite Hnil.
    split; [intros i a b Ha; discriminate|intros f []]. }
  destruct (init_inv ch Hne) as (c & -> & Hwf & Hes & _).
  cbn [t_float Q_time].
  destruct (baudrate =? 0).
  { split; [intros i a b Ha; discriminate|intros f []]. }
  destruct (recognize_loop_stamps (S (length (Channel.entries ch)))
              (Channel.entries ch) (t_div (t_of_Z 1) (inject_Z baudrate)) bits omit c
              Hinc Hwf Hes) as [Hstamps Hsorted].
  split; [exact Hsorted|].
  intros f Hin. destruct (Hstamps f Hin) as (j & e & _ & He & Hf).
  exists e. split; [|exact Hf].
  apply list_elem_of_In. eapply list_elem_of_lookup_2. exact He.
Qed.

Section RecomputedStamps.
Context {T : Type} `{TimeOps T}.
Implicit Types (c : ChannelCursor.t T).



End RecomputedStamps.



(** ** Channel *)

Section AddFacts.
Context {T : Type} `{TimeOps T}.
Implicit Types (ch : Channel.t T).

Lemma add_entries ts v ch ch' :
  Channel.add ts v ch = Returned ch' ->
  Channel.name ch' = Channel.name ch /\
  Channel.is_tuple ch' = Channel.is_tuple ch /\
  (Channel.entries ch' = Channel.entries ch \/
   Channel.entries ch' = Channel.entries ch ++ [(ts, v)]).
Proof.
  unfold Channel.add, Channel.append.
  destruct (last (Channel.entries ch)) as [prev|].
  - destruct (t_gtb ts (fst prev)); [|discriminate].
    destruct (negb (v =? snd prev)).
    + destruct (Channel.is_tuple ch) eqn:Htup; [discriminate|].
      intros [= <-]. simpl. auto.
    + intros [= <-]. auto.
  - destruct (Channel.is_tuple ch) eqn:Htup; [discriminate|].
    intros [= <-]. simpl. auto.
Qed.
End AddFacts.

(** X9: a run of [add] calls only appends: the entries stored before are a
    prefix of the entries stored after, what was appended is a
    subsequence of the rows given, in their order, and the name of the
    channel is unchanged.  For any timestamp arithmetic. *)
Theorem add_all_appends {T : Type} `{TimeOps T} (rows : list (T * Z))
    (ch ch' : Channel.t T) :
  Channel.add_all rows ch = Returned ch' ->
  Channel.name ch' = Channel.name ch /\
  exists kept, Channel.entries ch' = Channel.entries ch ++ kept /\
               sublist kept rows.
Proof.
  revert ch. induction rows as [|[ts v] rows IH]; intros ch; simpl.
  - intros [= <-]. split; [reflexivity|]. exists []. rewrite app_nil_r.
    split; [reflexivity|constructor].
  - destruct (Channel.add ts v ch) as [ch1|e|] eqn:Hadd; try discriminate.
    intros Hall. destruct (IH ch1 Hall) as (Hname & kept & Hes & Hsub).
    destruct (add_entries _ _ _ _ Hadd) as (Hname1 & _ & [Hes1|Hes1]).
    + split; [congruence|]. exists kept. rewrite Hes, Hes1.
      split; [reflexivity|]. apply sublist_cons. exact Hsub.
    + split; [congruence|]. exists ((ts, v) :: kept).
      rewrite Hes, Hes1, <- app_assoc. split; [reflexivity|].
      apply sublist_skip. exact Hsub.
Qed.

Lemma add_all_appends_witness :
  Channel.name (Channel.mk "UART_TX" [(0%Q, 1); (2%Q, 0)] false) = "UART_TX" /\
  exists kept, [(0%Q, 1); (2%Q, 0)] = [] ++ kept /\
               sublist kept [(0%Q, 1); (1%Q, 1); (2%Q, 0)].
Proof.
  apply (add_all_appends [(0%Q, 1); (1%Q, 1); (2%Q, 0)]
           (Channel.init "UART_TX")
           (Channel.mk "UART_TX" [(0%Q, 1); (2%Q, 0)] false)).
  reflexivity.
Defined.

(** X10: [add] checks a timestamp against the last stored entry only.
    After a first row [(t0, v)], any rows of the same level [v] whose
    timestamps are [> t0] are accepted and dropped, whatever their order
    among themselves; and a row of another level is then stored at any
    timestamp [> t0], even one that is not after the rows dropped before
    it: time may run backwards between the rows of a capture without the
    assertion failing.  For any timestamp arithmetic. *)
Theorem add_all_same_level {T : Type} `{TimeOps T} (name : string) (t0 : T)
    (v : Z) (rows : list (T * Z)) (ts : T) (w : Z) :
  Forall (fun r => t_gtb (fst r) t0 = true /\ snd r = v) rows ->
  Channel.add_all ((t0, v) :: rows) (Channel.init name)
  = Returned (Channel.mk name [(t0, v)] false) /\
  (t_gtb ts t0 = true -> w <> v ->
   Channel.add_all ((t0, v) :: rows ++ [(ts, w)]) (Channel.init name)
   = Returned (Channel.mk name [(t0, v); (ts, w)] false)).
Proof.
  intros Hrows.
  set (ch0 := Channel.mk name [(t0, v)] false).
  assert (Hfirst : Channel.add t0 v (Channel.init name) = Returned ch0)
    by reflexivity.
  assert (Hrest : Channel.add_all rows ch0 = Returned ch0 /\
            (t_gtb ts t0 = true -> w <> v ->
             Channel.add_all (rows ++ [(ts, w)]) ch0
             = Returned (Channel.mk name [(t0, v); (ts, w)] false))).
  { induction Hrows as [|[ts' w'] rows [Hgt Hw] _ [IH1 IH2]].
    - split; [reflexivity|]. intros Hts Hne. cbn [app Channel.add_all].
      unfold Channel.add, Channel.append. simpl. rewrite Hts.
      destruct (Z.eqb_spec w v) as [|_]; [contradiction|]. reflexivity.
    - simpl in Hgt, Hw. cbn [app Channel.add_all].
      assert (Hdrop : Channel.add ts' w' ch0 = Returned ch0).
      { unfold Channel.add. simpl. rewrite Hgt, Hw, Z.eqb_refl. reflexivity. }
      rewrite Hdrop. split; [exact IH1|exact IH2]. }
  cbn [app Channel.add_all]. rewrite Hfirst. exact Hrest.
Qed.

Lemma add_all_same_level_witness :
  Channel.add_all [(0%float, 1); (5%float, 1); (3%float, 1)]
    (Channel.init "UART_TX")
  = Returned (Channel.mk "UART_TX" [(0%float, 1)] false) /\
  Channel.add_all [(0%float, 1); (5%float, 1); (3%float, 1); (2%float, 0)]
    (Channel.init "UART_TX")
  = Returned (Channel.mk "UART_TX" [(0%float, 1); (2%float, 0)] false).
Proof.
  destruct (add_all_same_level "UART_TX" 0%float 1
              [(5%float, 1); (3%float, 1)] 2%float 0) as [Hdrop Hstore].
  - repeat constructor.
  - split; [exact Hdrop|]. apply Hstore; [reflexivity|discriminate].
Defined.

Section ChangesFacts.
Local Open Scope Q_scope.

Lemma add_all_changes (rows : list (Q * Z)) (name : string)
    (es : list (Q * Z)) (prev : Q * Z) :
  last es = Some prev ->
  Forall (fun r => fst prev < fst r) rows ->
  increasing rows ->
  Channel.add_all rows (Channel.mk name es false)
  = Returned (Channel.mk name (es ++ changes (Some (snd prev)) rows) false).
Proof.
  revert es prev. induction rows as [|r rows IH]; intros es prev Hlast Hgt Hinc.
  - simpl. rewrite app_nil_r. reflexivity.
  - destruct r as [ts v]. apply Forall_cons in Hgt. destruct Hgt as [Hr Hgt].
    simpl in Hr.
    cbn [Channel.add_all]. unfold Channel.add, Channel.append.
    cbn [Channel.entries Channel.is_tuple Channel.name]. rewrite Hlast.
    cbn [t_gtb Q_time]. rewrite (proj2 (Qgtb_true _ _) Hr).
    cbn [changes snd]. destruct (Z.eqb_spec v (snd prev)) as [Heq|Hne]; simpl.
    + apply IH; auto. eapply increasing_tail; eauto.
    + rewrite (IH (es ++ [(ts, v)]) (ts, v)).
      * rewrite <- app_assoc. reflexivity.
      * apply last_snoc.
      * apply Forall_lookup. intros k e He. simpl.
        apply (increasing_lt ((ts, v) :: rows) 0 (S k) (ts, v) e Hinc);
          [lia|reflexivity|exact He].
      * eapply increasing_tail; eauto.
Qed.
End ChangesFacts.

(** X11: from rows with strictly increasing timestamps, [add] builds
    exactly the change-based trace: every call succeeds, and the entries
    stored are the first row and every later row whose level differs from
    the level of the row before it.  Timestamps are exact. *)
Theorem add_all_stores_changes (name : string) (rows : list (Q * Z)) :
  increasing rows ->
  Channel.add_all rows (Channel.init name)
  = Returned (Channel.mk name (changes None rows) false).
Proof.
  intros Hinc. destruct rows as [|[ts v] rows]; [reflexivity|].
  cbn [Channel.add_all]. unfold Channel.add at 1. simpl.
  rewrite (add_all_changes rows name [(ts, v)] (ts, v)); auto.
  - apply Forall_lookup. intros k e He. simpl.
    apply (increasing_lt ((ts, v) :: rows) 0 (S k) (ts, v) e Hinc);
      [lia|reflexivity|exact He].
  - eapply increasing_tail; eauto.
Qed.

Lemma add_all_stores_changes_witness :
  Channel.add_all [(0%Q, 1); (1%Q, 1); (2%Q, 0); (3%Q, 0); (4%Q, 1)]
    (Channel.init "UART_TX")
  = Returned (Channel.mk "UART_TX" [(0%Q, 1); (2%Q, 0); (4%Q, 1)] false).
Proof.
  apply (add_all_stores_changes "UART_TX"
           [(0%Q, 1); (1%Q, 1); (2%Q, 0); (3%Q, 0); (4%Q, 1)]).
  intros i a b Ha Hb.
  do 5 (destruct i as [|i];
        [cbn in Ha, Hb; try discriminate;
         injection Ha as <-; injection Hb as <-; reflexivity|]).
  discriminate.
Defined.

(** X12: a finished channel is frozen.  [finishAdding] leaves a tuple, so
    afterwards an [add] that would store a change raises
    [AttributeError], as does a second [finishAdding] with a positive
    tail, while an [add] of the last level at a later time still returns
    without effect.  For any timestamp arithmetic. *)
Theorem finished_channel_frozen {T : Type} `{TimeOps T} (tailLength : T)
    (ch0 ch : Channel.t T) (prev : T * Z) (ts : T) :
  Channel.finishAdding tailLength ch0 = Returned ch ->
  last (Channel.entries ch) = Some prev ->
  t_gtb ts (fst prev) = true ->
  Channel.is_tuple ch = true /\
  (forall v, v <> snd prev -> Channel.add ts v ch = Raised AttributeError) /\
  Channel.add ts (snd prev) ch = Returned ch /\
  (forall tailLength', t_gtb tailLength' (t_of_Z 0) = true ->
     Channel.finishAdding tailLength' ch = Raised AttributeError).
Proof.
  intros Hfin Hlast Hgt.
  assert (Htup : Channel.is_tuple ch = true).
  { unfold Channel.finishAdding, Channel.append in Hfin.
    destruct (t_gtb tailLength (t_of_Z 0)).
    - destruct (last (Channel.entries ch0)); [|discriminate].
      destruct (Channel.is_tuple ch0); [discriminate|].
      injection Hfin as <-. reflexivity.
    - injection Hfin as <-. reflexivity. }
  split; [exact Htup|]. split; [|split].
  - intros v Hv. unfold Channel.add, Channel.append. rewrite Hlast, Hgt, Htup.
    destruct (Z.eqb_spec v (snd prev)); [contradiction|reflexivity].
  - unfold Channel.add. rewrite Hlast, Hgt, Z.eqb_refl. reflexivity.
  - intros tail' Htail'. unfold Channel.finishAdding, Channel.append.
    rewrite Htail', Hlast, Htup. reflexivity.
Qed.

Lemma finished_channel_frozen_witness :
  let ch := Channel.mk "UART_TX" [(0%Q, 1); ((0 + 10)%Q, 1)] true in
  Channel.is_tuple ch = true /\
  (forall v, v <> 1 -> Channel.add 11%Q v ch = Raised AttributeError) /\
  Channel.add 11%Q 1 ch = Returned ch /\
  (forall tailLength', t_gtb tailLength' (t_of_Z 0) = true ->
     Channel.finishAdding tailLength' ch = Raised AttributeError).
Proof.
  intros ch.
  apply (finished_channel_frozen 10%Q (Channel.mk "UART_TX" [(0%Q, 1)] false)
           ch ((0 + 10)%Q, 1) 11%Q); reflexivity.
Defined.

(** ** The loader *)

Section LoaderFacts.
Context {T : Type} `{TimeOps T}.
Variable isspace : ascii -> bool.
Variable py_float : string -> option T.
Variable py_int : string -> option Z.

Lemma add_row_done ts fields chs chs' :
  add_row py_int ts fields chs = Done chs' ->
  Forall2 (fun ch ch' => exists v, Channel.add ts v ch = Returned ch') chs chs'.
Proof.
  revert fields chs'. induction chs as [|ch chs IH]; intros fields chs'; simpl.
  - intros [= <-]. constructor.
  - destruct fields as [|field fields]; [discriminate|].
    destruct (py_int field) as [v|]; [|discriminate].
    destruct (Channel.add ts v ch) as [ch1|e|] eqn:Hadd; simpl; try discriminate.
    destruct (add_row py_int ts fields chs) as [rest|e|] eqn:Hrow; try discriminate.
    intros [= <-]. constructor; eauto.
Qed.

Lemma finish_all_done chs chs' :
  finish_all chs = Done chs' ->
  Forall2 (fun ch ch' =>
             Channel.finishAdding Channel.default_tailLength ch = Returned ch')
          chs chs'.
Proof.
  revert chs'. induction chs as [|ch chs IH]; intros chs'; simpl.
  - intros [= <-]. constructor.
  - destruct (Channel.finishAdding Channel.default_tailLength ch)
      as [ch1|e|] eqn:Hfin; simpl; try discriminate.
    destruct (finish_all chs) as [rest|e|]; try discriminate.
    intros [= <-]. constructor; auto.
Qed.

Lemma finishAdding_name tailLength (ch ch' : Channel.t T) :
  Channel.finishAdding tailLength ch = Returned ch' ->
  Channel.name ch' = Channel.name ch /\ Channel.is_tuple ch' = true.
Proof.
  unfold Channel.finishAdding, Channel.append.
  destruct (t_gtb tailLength (t_of_Z 0)).
  - destruct (last (Channel.entries ch)); [|discriminate].
    destruct (Channel.is_tuple ch); [discriminate|].
    intros [= <-]. auto.
  - intros [= <-]. auto.
Qed.

Lemma comps_of_cons line :
  comps_of isspace line
  = hd EmptyString (comps_of isspace line) :: tl (comps_of isspace line).
Proof.
  unfold comps_of. destruct (split "," line) as [|f fs] eqn:Hs; [|reflexivity].
  exfalso. destruct line as [|a line]; cbn [split] in Hs; [discriminate|].
  destruct (Ascii.eqb a ","); [discriminate|].
  destruct (split "," line); discriminate.
Qed.

Section Keeps.
Variable P : Channel.t T -> Prop.
Hypothesis P_init : forall name, P (Channel.init name).
Hypothesis P_add :
  forall ts v ch ch', Channel.add ts v ch = Returned ch' -> P ch -> P ch'.

Lemma add_row_keeps ts fields chs chs' :
  add_row py_int ts fields chs = Done chs' -> Forall P chs -> Forall P chs'.
Proof.
  intros Hrow. apply add_row_done in Hrow.
  induction Hrow as [|ch ch' chs chs' [v Hadd] _ IH]; [auto|].
  intros Hall. apply Forall_cons in Hall as [Hch Hall].
  constructor; eauto.
Qed.

Lemma parse_line_keeps line st st' :
  parse_line isspace py_float py_int line st = Done st' ->
  Forall P (fst (fst st)) -> Forall P (fst (fst st')).
Proof.
  unfold parse_line. destruct st as [[[|ch chs] frozen] d]; cbn [fst snd].
  - destruct (String.eqb _ _); [|discriminate].
    destruct (tl (comps_of isspace line)) as [|name names] eqn:Hnames.
    + intros [= <-] _. constructor.
    + destruct frozen; [discriminate|]. intros [= <-] _. cbn [fst].
      change (Forall P (map Channel.init (name :: names))).
      apply Forall_fmap, Forall_forall. intros n _. apply P_init.
  - destruct (py_float _) as [ts|]; [|discriminate].
    destruct (add_row py_int ts _ (ch :: chs)) as [chs1|e|] eqn:Hrow;
      try discriminate.
    intros [= <-]. cbn [fst]. eapply add_row_keeps; eauto.
Qed.

Lemma parse_lines_keeps lines st st' :
  parse_lines isspace py_float py_int lines st = Done st' ->
  Forall P (fst (fst st)) -> Forall P (fst (fst st')).
Proof.
  revert st. induction lines as [|line lines IH]; intros st; simpl.
  - intros [= <-]. auto.
  - destruct (parse_line isspace py_float py_int line st) as [st1|e|] eqn:Hline;
      try discriminate.
    intros Hrest Hall. eapply IH; eauto. eapply parse_line_keeps; eauto.
Qed.
End Keeps.

Lemma add_row_names ts fields chs chs' :
  add_row py_int ts fields chs = Done chs' ->
  map Channel.name chs' = map Channel.name chs.
Proof.
  intros Hrow. apply add_row_done in Hrow.
  induction Hrow as [|ch ch' chs chs' [v Hadd] _ IH]; [reflexivity|].
  simpl. rewrite IH. f_equal. unfold Channel.add, Channel.append in Hadd.
  destruct (last (Channel.entries ch)) as [prev|].
  - destruct (t_gtb ts (fst prev)); [|discriminate].
    destruct (negb (v =? snd prev)); [|congruence].
    destruct (Channel.is_tuple ch); [discriminate|].
    injection Hadd as <-. reflexivity.
  - destruct (Channel.is_tuple ch); [discriminate|].
    injection Hadd as <-. reflexivity.
Qed.

Lemma finish_all_names chs chs' :
  finish_all chs = Done chs' ->
  map Channel.name chs' = map Channel.name chs.
Proof.
  intros Hfin. apply finish_all_done in Hfin.
  induction Hfin as [|ch ch' chs chs' Hch _ IH]; [reflexivity|].
  simpl. rewrite IH. f_equal. apply (finishAdding_name _ _ _ Hch).
Qed.

Lemma parse_lines_rows rows ch chs frozen d chs' frozen' d' :
  parse_lines isspace py_float py_int rows (ch :: chs, frozen, d)
  = Done (chs', frozen', d') ->
  map Channel.name chs' = map Channel.name (ch :: chs) /\
  d' = Nat.max d
         (foldr Nat.max 0%nat
            (map (fun row => decimals_of (hd EmptyString (comps_of isspace row)))
                 rows)).
Proof.
  revert ch chs d. induction rows as [|row rows IH]; intros ch chs d.
  - simpl. intros [= <- <- <-]. split; [reflexivity|lia].
  - cbn [parse_lines]. unfold parse_line. cbn [fst snd].
    destruct (py_float _) as [ts|]; [|discriminate].
    destruct (add_row py_int ts _ (ch :: chs)) as [chs1|e|] eqn:Hrow;
      try discriminate.
    pose proof (add_row_names _ _ _ _ Hrow) as Hnames.
    destruct chs1 as [|ch1 chs1]; [discriminate|].
    intros Hrest. apply IH in Hrest as [Hn ->]. split; [congruence|].
    cbn [map foldr]. unfold decimals_of. lia.
Qed.

(** Once a header has named no channel, [channels] is an empty tuple:
    every later line is taken for a header, and only another header
    without channels gets through. *)
Lemma parse_lines_frozen_empty lines d st :
  parse_lines isspace py_float py_int lines ([], true, d) = Done st ->
  st = ([], true, d) /\
  Forall (fun line => comps_of isspace line = ["Time[s]"%string]) lines.
Proof.
  induction lines as [|line lines IH]; cbn [parse_lines].
  - intros [= <-]. auto.
  - unfold parse_line. cbn [fst snd].
    destruct (String.eqb_spec (hd EmptyString (comps_of isspace line)) "Time[s]")
      as [Hhd|_]; [|discriminate].
    destruct (tl (comps_of isspace line)) as [|name names] eqn:Htl;
      [|discriminate].
    intros Hrest. destruct (IH Hrest) as [-> Hall]. split; [reflexivity|].
    constructor; [|exact Hall]. rewrite comps_of_cons, Hhd, Htl. reflexivity.
Qed.
End LoaderFacts.

(** X13: the first line of the input is read as the header: when its
    first field, stripped of whitespace, is not [Time[s]], [parseSaleaeCSV]
    fails with [AssertionError] whatever the other lines are. *)
Theorem parseSaleaeCSV_header_checked {T : Type} `{TimeOps T}
    (isspace : ascii -> bool) (py_float : string -> option T)
    (py_int : string -> option Z) (line : string) (rest : list string) :
  hd EmptyString (comps_of isspace line) <> "Time[s]"%string ->
  parseSaleaeCSV isspace py_float py_int (line :: rest)
  = Failed (Exn AssertionError).
Proof.
  intros Hne. apply String.eqb_neq in Hne.
  unfold parseSaleaeCSV. cbn [parse_lines]. unfold parse_line. cbn [fst].
  rewrite Hne. reflexivity.
Qed.

Lemma parseSaleaeCSV_header_checked_witness :
  hd EmptyString (comps_of ascii_space "0.000000000000000, 0, 0, 1")
    <> "Time[s]"%string /\
  parseSaleaeCSV ascii_space decimal_float decimal_Z
    ["0.000000000000000, 0, 0, 1"%string; "0.362296294000000, 0, 0, 0"%string]
  = Failed (Exn AssertionError).
Proof.
  assert (Hne : hd EmptyString (comps_of ascii_space "0.000000000000000, 0, 0, 1")
                <> "Time[s]"%string) by (vm_compute; discriminate).
  split; [exact Hne|].
  exact (parseSaleaeCSV_header_checked ascii_space decimal_float decimal_Z _ _ Hne).
Defined.

(** X14: a header line that names no channel column makes the capture
    unloadable.  It leaves [channels] an empty tuple, so every later line
    is taken for a header again: a line that names channels then fails in
    [channels.append] with [AttributeError], and the loader can only
    return, without any channel, when every line is such a bare header. *)
Theorem parseSaleaeCSV_bare_header_sticks {T : Type} `{TimeOps T}
    (isspace : ascii -> bool) (py_float : string -> option T)
    (py_int : string -> option Z) (line : string) (rest : list string) :
  comps_of isspace line = ["Time[s]"%string] ->
  (forall chs d,
     parseSaleaeCSV isspace py_float py_int (line :: rest) = Done (chs, d) ->
     chs = [] /\ d = 0%nat /\
     Forall (fun l => comps_of isspace l = ["Time[s]"%string]) rest) /\
  (forall line2 rest' name names,
     rest = line2 :: rest' ->
     comps_of isspace line2 = "Time[s]"%string :: name :: names ->
     parseSaleaeCSV isspace py_float py_int (line :: rest)
     = Failed (Exn AttributeError)).
Proof.
  intros Hc. split.
  - intros chs d. unfold parseSaleaeCSV. cbn [parse_lines]. unfold parse_line.
    cbn [fst snd]. rewrite Hc. cbn [hd tl].
    change (String.eqb "Time[s]" "Time[s]") with true. cbv iota.
    destruct (parse_lines isspace py_float py_int rest ([], true, 0%nat))
      as [[[chs1 frozen1] d1]|e|] eqn:Hrest; try discriminate.
    destruct (parse_lines_frozen_empty _ _ _ _ _ _ Hrest) as [[= -> -> ->] Hall].
    cbn [finish_all]. intros [= <- <-]. auto.
  - intros line2 rest' name names -> Hc2.
    unfold parseSaleaeCSV. cbn [parse_lines]. unfold parse_line.
    cbn [fst snd]. rewrite Hc, Hc2. reflexivity.
Qed.

Lemma parseSaleaeCSV_bare_header_sticks_witness :
  parseSaleaeCSV ascii_space decimal_float decimal_Z
    (" Time[s] "%string :: epilog_lines)
  = Failed (Exn AttributeError).
Proof.
  assert (Hc : comps_of ascii_space " Time[s] " = ["Time[s]"%string])
    by reflexivity.
  destruct (parseSaleaeCSV_bare_header_sticks ascii_space decimal_float
              decimal_Z " Time[s] " epilog_lines Hc) as [_ Hfail].
  apply (Hfail (hd EmptyString epilog_lines) (tl epilog_lines)
           "TRACE_A"%string ["TRACE_B"%string; "UART_TX"%string]);
    reflexivity.
Defined.

(** X15: a capture that ends after a header naming at least one channel
    is refused: [finishAdding] finds the first channel empty and
    [parseSaleaeCSV] fails with [AssertionError].  For any timestamp
    arithmetic in which the default tail length 10 is greater than 0. *)
Theorem parseSaleaeCSV_no_rows {T : Type} `{TimeOps T}
    (isspace : ascii -> bool) (py_float : string -> option T)
    (py_int : string -> option Z) (line name : string) (names : list string) :
  t_gtb (Channel.default_tailLength (T := T)) (t_of_Z 0) = true ->
  comps_of isspace line = "Time[s]"%string :: name :: names ->
  parseSaleaeCSV isspace py_float py_int [line] = Failed (Exn AssertionError).
Proof.
  intros Hpos Hc. unfold parseSaleaeCSV. cbn [parse_lines]. unfold parse_line.
  cbn [fst snd]. rewrite Hc. cbn [hd tl map].
  change (String.eqb "Time[s]" "Time[s]") with true. cbv iota.
  cbn [finish_all]. unfold Channel.finishAdding at 1. rewrite Hpos.
  reflexivity.
Qed.

Lemma parseSaleaeCSV_no_rows_witness :
  parseSaleaeCSV ascii_space decimal_Q decimal_Z
    ["Time[s], TRACE_A, TRACE_B, UART_TX"%string]
  = Failed (Exn AssertionError).
Proof.
  apply (parseSaleaeCSV_no_rows ascii_space decimal_Q decimal_Z _
           "TRACE_A"%string ["TRACE_B"%string; "UART_TX"%string]);
    reflexivity.
Defined.

(** X16: the channels come back in column order under the names of the
    header, and the second result is the greatest count of fractional
    digits among the timestamp fields of the data rows, 0 when there is
    none. *)
Theorem parseSaleaeCSV_names_and_decimals {T : Type} `{TimeOps T}
    (isspace : ascii -> bool) (py_float : string -> option T)
    (py_int : string -> option Z) (line name : string)
    (names rows : list string) (chs : list (Channel.t T)) (d : nat) :
  comps_of isspace line = "Time[s]"%string :: name :: names ->
  parseSaleaeCSV isspace py_float py_int (line :: rows) = Done (chs, d) ->
  map Channel.name chs = name :: names /\
  d = foldr Nat.max 0%nat
        (map (fun row => decimals_of (hd EmptyString (comps_of isspace row)))
             rows).
Proof.
  intros Hc. unfold parseSaleaeCSV. cbn [parse_lines]. unfold parse_line.
  cbn [fst snd]. rewrite Hc. cbn [hd tl map].
  change (String.eqb "Time[s]" "Time[s]") with true. cbv iota.
  destruct (parse_lines _ _ _ rows _) as [[[chs1 frozen1] d1]|e|] eqn:Hrows;
    try discriminate.
  apply parse_lines_rows in Hrows as [Hn ->].
  destruct (finish_all chs1) as [chs2|e|] eqn:Hfin; try discriminate.
  intros [= <- <-]. split; [|reflexivity].
  rewrite (finish_all_names _ _ Hfin), Hn. cbn [map Channel.name Channel.init].
  f_equal. rewrite map_map. apply map_id.
Qed.

Lemma parseSaleaeCSV_names_and_decimals_witness :
  exists chs,
    parseSaleaeCSV ascii_space decimal_Q decimal_Z epilog_lines = Done (chs, 9%nat) /\
    map Channel.name chs = ["TRACE_A"; "TRACE_B"; "UART_TX"]%string /\
    9%nat = foldr Nat.max 0%nat
              (map (fun row => decimals_of (hd EmptyString (comps_of ascii_space row)))
                   (tl epilog_lines)).
Proof.
  destruct (parseSaleaeCSV ascii_space decimal_Q decimal_Z epilog_lines)
    as [[chs d]|e|] eqn:Hparse; try (vm_compute in Hparse; discriminate).
  assert (Hd : d = 9%nat) by (vm_compute in Hparse; congruence).
  subst d. exists chs. split; [reflexivity|].
  exact (parseSaleaeCSV_names_and_decimals ascii_space decimal_Q decimal_Z
           (hd EmptyString epilog_lines) "TRACE_A"%string
           ["TRACE_B"%string; "UART_TX"%string] (tl epilog_lines) chs 9%nat
           eq_refl Hparse).
Defined.

Section ReadyFacts.
Context {T : Type} `{TimeOps T}.
Variable isspace : ascii -> bool.
Variable py_float : string -> option T.
Variable py_int : string -> option Z.

Lemma filling_add ts v (ch ch' : Channel.t T) :
  Channel.add ts v ch = Returned ch' ->
  Channel.is_tuple ch = false /\ ascending (Channel.entries ch)
    /\ coalesced (Channel.entries ch) ->
  Channel.is_tuple ch' = false /\ ascending (Channel.entries ch')
    /\ coalesced (Channel.entries ch').
Proof.
  intros Hadd (Htup & Hasc & Hco).
  destruct (add_keeps _ _ _ _ Hadd Hasc Hco) as [Hasc' Hco'].
  destruct (add_entries _ _ _ _ Hadd) as (_ & Htup' & _).
  split; [congruence|auto].
Qed.

Lemma finished_ready (ch ch' : Channel.t T) :
  t_gtb (Channel.default_tailLength (T := T)) (t_of_Z 0) = true ->
  ascending (Channel.entries ch) ->
  coalesced (Channel.entries ch) ->
  Channel.finishAdding Channel.default_tailLength ch = Returned ch' ->
  ready ch'.
Proof.
  intros Hpos Hasc Hco Hfin.
  destruct (finishAdding_name _ _ _ Hfin) as [_ Htup'].
  destruct (finishAdding_entries _ _ _ Hfin)
    as [(_ & prev & Hlast & Hes)|[Hgt _]]; [|congruence].
  split; [exact Htup'|]. exists (Channel.entries ch), prev. auto.
Qed.

Lemma parsed_ready lines chs d :
  t_gtb (Channel.default_tailLength (T := T)) (t_of_Z 0) = true ->
  parseSaleaeCSV isspace py_float py_int lines = Done (chs, d) ->
  Forall ready chs.
Proof.
  intros Hpos. unfold parseSaleaeCSV.
  destruct (parse_lines isspace py_float py_int lines ([], false, 0%nat))
    as [[[chs1 frozen1] d1]|e|] eqn:Hlines; try discriminate.
  destruct (finish_all chs1) as [chs2|e|] eqn:Hfin; try discriminate.
  intros [= <- <-].
  pose proof (parse_lines_keeps isspace py_float py_int
                (fun ch => Channel.is_tuple ch = false
                           /\ ascending (Channel.entries ch)
                           /\ coalesced (Channel.entries ch))) as Hkeep.
  assert (Hinit : forall name : string,
             Channel.is_tuple (Channel.init (T := T) name) = false
             /\ ascending (Channel.entries (Channel.init (T := T) name))
             /\ coalesced (Channel.entries (Channel.init (T := T) name))).
  { intros name. split; [reflexivity|].
    split; intros i a b Ha; discriminate. }
  specialize (Hkeep Hinit).
  specialize (Hkeep filling_add lines _ _ Hlines (Forall_nil_2 _)).
  cbn [fst] in Hkeep. apply finish_all_done in Hfin. clear Hlines.
  induction Hfin as [|ch ch' chs chs' Hch _ IH]; [constructor|].
  apply Forall_cons in Hkeep as [(Htup & Hasc & Hco) Hrest].
  constructor; [|auto]. exact (finished_ready ch ch' Hpos Hasc Hco Hch).
Qed.

End ReadyFacts.

(** X17: every channel returned by [parseSaleaeCSV] is frozen into a
    tuple and holds the entries stored by [add], each with a timestamp
    [>] that of the one before and a level other than that of the one
    before, followed by the tail guard at the last stored timestamp plus
    ten, as computed, with the last stored level.  For any timestamp
    arithmetic in which the default tail length 10 is greater than 0,
    binary64 included; the guard's timestamp itself is not checked by the
    code, and in binary64 it equals the last stored one at [2e17]. *)
Theorem parseSaleaeCSV_channels_ready {T : Type} `{TimeOps T}
    (isspace : ascii -> bool) (py_float : string -> option T)
    (py_int : string -> option Z) (lines : list string)
    (chs : list (Channel.t T)) (d : nat) :
  t_gtb (Channel.default_tailLength (T := T)) (t_of_Z 0) = true ->
  parseSaleaeCSV isspace py_float py_int lines = Done (chs, d) ->
  Forall ready chs.
Proof. intros Hpos Hparse. exact (parsed_ready _ _ _ lines chs d Hpos Hparse). Qed.

Lemma parseSaleaeCSV_channels_ready_witness :
  exists chs d,
    parseSaleaeCSV ascii_space decimal_float decimal_Z epilog_lines
    = Done (chs, d) /\
    Forall ready chs.
Proof.
  destruct (parseSaleaeCSV ascii_space decimal_float decimal_Z epilog_lines)
    as [[chs d]|e|] eqn:Hparse; try (vm_compute in Hparse; discriminate).
  exists chs, d. split; [reflexivity|].
  apply (parseSaleaeCSV_channels_ready ascii_space decimal_float decimal_Z
           epilog_lines chs d); [vm_compute; reflexivity|exact Hparse].
Defined.



(** ** Data rows *)

Section RowFacts.
Context {T : Type} `{TimeOps T}.
Variable py_int : string -> option Z.

Lemma add_fuel ts v (ch : Channel.t T) : Channel.add ts v ch <> OutOfFuel.
Proof.
  unfold Channel.add, Channel.append.
  destruct (last (Channel.entries ch)) as [prev|].
  - destruct (t_gtb ts (fst prev)); [|discriminate].
    destruct (negb (v =? snd prev)); [|discriminate].
    destruct (Channel.is_tuple ch); discriminate.
  - destruct (Channel.is_tuple ch); discriminate.
Qed.

Lemma add_row_fuel ts fields (chs : list (Channel.t T)) :
  add_row py_int ts fields chs <> NoFuel.
Proof.
  revert fields. induction chs as [|ch chs IH]; intros fields;
    cbn [add_row]; [discriminate|].
  destruct fields as [|field fields]; [discriminate|].
  destruct (py_int field) as [v|]; [|discriminate].
  pose proof (add_fuel ts v ch) as Hf.
  destruct (Channel.add ts v ch) as [ch1|e|]; cbn [lift];
    [|discriminate|contradiction].
  specialize (IH fields).
  destruct (add_row py_int ts fields chs); [discriminate|discriminate|contradiction].
Qed.

Lemma add_row_short ts fields (chs chs' : list (Channel.t T)) :
  (length fields < length chs)%nat ->
  add_row py_int ts fields chs <> Done chs'.
Proof.
  revert fields chs'. induction chs as [|ch chs IH]; intros fields chs' Hlen;
    simpl in Hlen; [lia|].
  cbn [add_row]. destruct fields as [|field fields]; [discriminate|].
  destruct (py_int field) as [v|]; [|discriminate].
  destruct (lift (Channel.add ts v ch)) as [ch1|e|]; try discriminate.
  simpl in Hlen.
  destruct (add_row py_int ts fields chs) as [rest|e|] eqn:Hrow;
    try discriminate.
  exfalso. apply (IH fields rest); [lia|exact Hrow].
Qed.
End RowFacts.

(** X19: a data row with fewer fields than the header has columns is
    never accepted: whatever its fields hold, the row makes the loader
    raise an exception. *)
Theorem short_row_raises {T : Type} `{TimeOps T} (isspace : ascii -> bool)
    (py_float : string -> option T) (py_int : string -> option Z)
    (line : string) (ch : Channel.t T) (chs : list (Channel.t T))
    (is_tuple : bool) (d : nat) :
  (length (comps_of isspace line) <= length (ch :: chs))%nat ->
  exists e,
    parse_line isspace py_float py_int line (ch :: chs, is_tuple, d) = Failed e.
Proof.
  intros Hlen. unfold parse_line. cbn [fst snd].
  destruct (py_float _) as [ts|]; [|eauto].
  destruct (add_row py_int ts (tl (comps_of isspace line)) (ch :: chs))
    as [chs1|e|] eqn:Hrow; [| eauto |].
  - exfalso. apply add_row_short in Hrow; [exact Hrow|].
    destruct (comps_of isspace line); simpl in *; lia.
  - exfalso. exact (add_row_fuel _ _ _ _ Hrow).
Qed.

Lemma short_row_raises_witness :
  exists e,
    parse_line ascii_space decimal_Q decimal_Z "0.5, 0"
      ([Channel.mk "A" [(0%Q, 0)] false; Channel.mk "B" [(0%Q, 0)] false],
       true, 0%nat)
    = Failed e.
Proof.
  apply (short_row_raises ascii_space decimal_Q decimal_Z "0.5, 0").
  vm_compute. lia.
Defined.

(** X20: the fields of a data row beyond the header's columns are not
    read: a row with surplus fields is stored exactly as the row without
    them, whatever the surplus fields hold. *)
Theorem surplus_fields_ignored {T : Type} `{TimeOps T}
    (py_int : string -> option Z) (ts : T) (fields extra : list string)
    (chs : list (Channel.t T)) :
  (length chs <= length fields)%nat ->
  add_row py_int ts (fields ++ extra) chs = add_row py_int ts fields chs.
Proof.
  revert fields. induction chs as [|ch chs IH]; intros fields Hlen;
    [reflexivity|].
  destruct fields as [|field fields]; simpl in Hlen; [lia|].
  cbn [add_row app]. rewrite IH by lia. reflexivity.
Qed.

Lemma surplus_fields_ignored_witness :
  add_row decimal_Z 1%Q (["1"%string] ++ ["x"%string; ""%string])
    [Channel.mk "A" [(0%Q, 0)] false]
  = add_row decimal_Z 1%Q ["1"%string] [Channel.mk "A" [(0%Q, 0)] false].
Proof.
  apply (surplus_fields_ignored decimal_Z 1%Q ["1"%string]
           ["x"%string; ""%string] [Channel.mk "A" [(0%Q, 0)] false]).
  simpl. lia.
Defined.

(** ** Counting the fractional digits *)

Lemma rstrip_stop p c b :
  p c = false -> rstrip p (String c b) = String c (rstrip p b).
Proof. intros Hc. simpl. rewrite Hc. destruct (rstrip p b); reflexivity. Qed.

Lemma rstrip_app_stop p a c b :
  p c = false ->
  rstrip p (String.append a (String c b))
  = String.append a (String c (rstrip p b)).
Proof.
  intros Hc. induction a as [|x a IH]; [apply rstrip_stop, Hc|].
  simpl String.append. simpl rstrip. fold (rstrip p). rewrite IH.
  destruct a; reflexivity.
Qed.

Lemma split_no_sep sep s : has_char sep s = false -> split sep s = [s].
Proof.
  induction s as [|a s IH]; [reflexivity|]. cbn [has_char split].
  intros Hs. apply orb_false_iff in Hs as [Ha Hs].
  rewrite Ha, (IH Hs). reflexivity.
Qed.

Lemma split_app sep a b :
  exists f l, split sep (String.append a (String sep b)) = f :: l ++ split sep b.
Proof.
  induction a as [|x a (f & l & IH)]; simpl String.append; simpl split;
    fold (split sep).
  - rewrite Ascii.eqb_refl. exists EmptyString, []. reflexivity.
  - rewrite IH. destruct (Ascii.eqb x sep).
    + exists EmptyString, (f :: l). reflexivity.
    + exists (String x f), l. reflexivity.
Qed.

Lemma split_nonempty sep s : split sep s <> [].
Proof.
  destruct s as [|a s]; cbn [split]; [discriminate|].
  destruct (Ascii.eqb a sep); [discriminate|].
  destruct (split sep s); discriminate.
Qed.

Lemma last_field_app a b :
  has_char "." b = false ->
  last_field (String.append a (String "." b)) = b.
Proof.
  intros Hb. unfold last_field.
  destruct (split_app "." a b) as (f & l & ->).
  rewrite (split_no_sep _ _ Hb).
  change (f :: l ++ [b]) with ((f :: l) ++ [b]). rewrite last_snoc. reflexivity.
Qed.

Lemma rstrip_has_char p c s :
  has_char c s = false -> has_char c (rstrip p s) = false.
Proof.
  induction s as [|a s IH]; [reflexivity|]. cbn [has_char rstrip].
  intros Hs. apply orb_false_iff in Hs as [Ha Hs]. specialize (IH Hs).
  destruct (rstrip p s) as [|b r].
  - destruct (p a); [reflexivity|]. simpl. rewrite Ha. reflexivity.
  - cbn [has_char] in *. rewrite Ha. exact IH.
Qed.

(** X21: for a timestamp field with a decimal point, the count of
    fractional digits is the length of what follows the last point once
    the trailing zeros are dropped; a fraction of zeros only counts 0. *)
Theorem decimals_of_fraction (whole frac : string) :
  has_char "." frac = false ->
  decimals_of (String.append whole (String "." frac))
  = String.length (rstrip (Ascii.eqb "0") frac).
Proof.
  intros Hfrac. unfold decimals_of.
  rewrite rstrip_app_stop by reflexivity.
  rewrite last_field_app by (apply rstrip_has_char, Hfrac).
  reflexivity.
Qed.

Lemma decimals_of_fraction_witness :
  decimals_of (String.append "0" (String "." "362296294000000")) = 9%nat.
Proof.
  rewrite (decimals_of_fraction "0" "362296294000000"); reflexivity.
Defined.

(** X22: for a timestamp field without a decimal point there is no
    fraction, yet the count is not 0: it is the length of the whole field
    once its trailing zeros are dropped, so the field [10] counts 1 and
    the field [25] counts 2. *)
Theorem decimals_of_integer (field : string) :
  has_char "." field = false ->
  decimals_of field = String.length (rstrip (Ascii.eqb "0") field).
Proof.
  intros Hf. unfold decimals_of, last_field.
  rewrite (split_no_sep _ _ (rstrip_has_char _ _ _ Hf)). reflexivity.
Qed.

Lemma decimals_of_integer_witness :
  decimals_of "10" = 1%nat /\ decimals_of "25" = 2%nat.
Proof.
  split.
  - rewrite (decimals_of_integer "10"); reflexivity.
  - rewrite (decimals_of_integer "25"); reflexivity.
Defined.

(** ** The script *)

Lemma acceptable_codes c :
  existsb (Z.eqb c) acceptable = true ->
  48 <= c <= 57 \/ 65 <= c <= 90 \/ 97 <= c <= 122
  \/ In c [46; 43; 45; 33; 36; 58; 95; 32].
Proof.
  intros Hc. apply existsb_exists in Hc as (x & Hin & Hx).
  apply Z.eqb_eq in Hx. subst x.
  assert (Hall : forallb (fun x =>
            ((48 <=? x) && (x <=? 57)) || ((65 <=? x) && (x <=? 90))
            || ((97 <=? x) && (x <=? 122))
            || existsb (Z.eqb x) [46; 43; 45; 33; 36; 58; 95; 32])
          acceptable = true) by reflexivity.
  rewrite forallb_forall in Hall. specialize (Hall c Hin).
  apply orb_true_iff in Hall as [Hall|Hall];
    [apply orb_true_iff in Hall as [Hall|Hall];
     [apply orb_true_iff in Hall as [Hall|Hall]|]|].
  - left. lia.
  - right. left. lia.
  - right. right. left. lia.
  - right. right. right. apply existsb_exists in Hall as (y & Hy & Heq).
    apply Z.eqb_eq in Heq. subst y. exact Hy.
Qed.

(** X23: the [subascii] column cannot break the CSV output: it is either
    empty or the one character of the data value, and then that character
    is an ASCII letter, a digit or one of [.+-!$:_ ] and the space; a
    comma, a quote or a line end is never printed. *)
Theorem subascii_safe (chr_limit data : Z) (printable : list Z) :
  subascii chr_limit data = Done printable ->
  printable = [] \/
  (printable = [data] /\
   (48 <= data <= 57 \/ 65 <= data <= 90 \/ 97 <= data <= 122
    \/ In data [46; 43; 45; 33; 36; 58; 95; 32]) /\
   ~ In data [44; 34; 39; 10; 13]).
Proof.
  unfold subascii.
  destruct ((0 <=? data) && (data <? chr_limit)); [|discriminate].
  destruct (existsb (Z.eqb data) acceptable) eqn:Hacc; intros [= <-]; [|auto].
  right. apply acceptable_codes in Hacc. split; [reflexivity|].
  split; [exact Hacc|]. simpl in *. lia.
Qed.

Lemma subascii_safe_witness :
  [65] = [] \/
  ([65] = [65] /\
   (48 <= 65 <= 57 \/ 65 <= 65 <= 90 \/ 97 <= 65 <= 122
    \/ In 65 [46; 43; 45; 33; 36; 58; 95; 32]) /\
   ~ In 65 [44; 34; 39; 10; 13]).
Proof. apply (subascii_safe 256 65 [65]). reflexivity. Defined.

Lemma output_row_byte {T : Type} (chr_limit : Z) (decimals : nat)
    (f : T * Z * bool) :
  0 <= frame_data f < chr_limit ->
  output_row chr_limit decimals f = Done (row_of decimals f).
Proof.
  destruct f as [[ts data] isValid]. unfold row_of, frame_data, frame_valid.
  cbn [fst snd]. intros Hd. unfold output_row, subascii.
  destruct (Z.leb_spec 0 data); [|lia].
  destruct (Z.ltb_spec data chr_limit); [|lia]. cbn [andb].
  destruct (existsb (Z.eqb data) acceptable); reflexivity.
Qed.

Lemma frames_data_range {T : Type} `{TimeOps T} (ch : Channel.t T)
    (baudrate bits : Z) (omit : bool) (f : T * Z * bool) :
  (forall e, In e (Channel.entries ch) -> snd e = 0 \/ snd e = 1) ->
  In f (fst (recognizeUART ch baudrate bits omit)) ->
  0 <= frame_data f < 2 ^ Z.max 0 bits.
Proof.
  intros Hbin. unfold recognizeUART.
  destruct (decide (Channel.entries ch = [])) as [Hnil|Hne].
  - unfold ChannelCursor.init. rewrite Hnil. intros [].
  - destruct (init_inv ch Hne) as (c & -> & Hinv).
    destruct (t_float baudrate) as [rate|]; [|intros []].
    destruct (baudrate =? 0); [intros []|].
    eapply recognize_loop_data; eauto.
Qed.

Lemma frames_are_bytes {T : Type} `{TimeOps T} (ch : Channel.t T)
    (baudrate bits : Z) (omit : bool) (f : T * Z * bool) :
  (forall e, In e (Channel.entries ch) -> snd e = 0 \/ snd e = 1) ->
  bits <= 8 ->
  In f (fst (recognizeUART ch baudrate bits omit)) ->
  0 <= frame_data f < 256.
Proof.
  intros Hbin Hbits Hin.
  pose proof (frames_data_range ch baudrate bits omit f Hbin Hin) as Hr.
  assert (2 ^ Z.max 0 bits <= 2 ^ 8) by (apply Z.pow_le_mono_r; lia).
  change (2 ^ 8) with 256 in *. lia.
Qed.

(** X24: printing never fails on a two-level trace decoded with at most
    8 data bits: for every frame [recognizeUART] yields, ['%c' % data] is
    within range both in Python 2 and in Python 3, and the row printed
    holds the frame's timestamp, its data, 1 or 0 for its validity and the
    [subascii] character or nothing.  For any timestamp arithmetic. *)
Theorem frame_rows_printed {T : Type} `{TimeOps T} (ch : Channel.t T)
    (baudrate bits chr_limit : Z) (omit : bool) (decimals : nat)
    (f : T * Z * bool) :
  (forall e, In e (Channel.entries ch) -> snd e = 0 \/ snd e = 1) ->
  bits <= 8 -> 256 <= chr_limit ->
  In f (fst (recognizeUART ch baudrate bits omit)) ->
  output_row chr_limit decimals f = Done (row_of decimals f).
Proof.
  intros Hbin Hbits Hlimit Hin. apply output_row_byte.
  pose proof (frames_are_bytes ch baudrate bits omit f Hbin Hbits Hin). lia.
Qed.

Lemma frame_rows_printed_witness :
  let ch := Channel.mk "UART_TX"
              [(0%Q, 1); (1%Q, 0); (2%Q, 1); (3%Q, 0); (8%Q, 1); (9%Q, 0);
               (10%Q, 1); (20%Q, 1)] true in
  In (1%Q, 65, true) (fst (recognizeUART ch 1 8 true)) /\
  output_row 256 0 (1%Q, 65, true) = Done (0%nat, 1%Q, 65, 1, [65]).
Proof.
  intros ch.
  assert (Hin : In (1%Q, 65, true) (fst (recognizeUART ch 1 8 true)))
    by (vm_compute; auto).
  split; [exact Hin|].
  apply (frame_rows_printed ch 1 8 256 true 0 (1%Q, 65, true)); [|lia|lia|exact Hin].
  intros e He. simpl in He.
  repeat (destruct He as [<-|He]; [simpl; auto|]). destruct He.
Defined.

Lemma filter_single {A : Type} (p : A -> bool) (l : list A) (x : A) :
  List.filter p l = [x] <->
  exists l1 l2, l = l1 ++ x :: l2 /\ p x = true /\
                Forall (fun y => p y = false) (l1 ++ l2).
Proof.
  split.
  - induction l as [|a l IH]; [discriminate|]. simpl.
    destruct (p a) eqn:Ha.
    + intros [= -> Hl]. exists [], l. split; [reflexivity|]. split; [exact Ha|].
      simpl. apply Forall_forall. intros y Hy.
      destruct (p y) eqn:Hpy; [|reflexivity].
      assert (Hiny : In y (List.filter p l))
        by (apply filter_In; split; [apply list_elem_of_In, Hy|exact Hpy]).
      rewrite Hl in Hiny. destruct Hiny.
    + intros Hl. destruct (IH Hl) as (l1 & l2 & -> & Hx & Hall).
      exists (a :: l1), l2. split; [reflexivity|]. split; [exact Hx|].
      simpl. constructor; auto.
  - intros (l1 & l2 & -> & Hx & Hall).
    apply Forall_app in Hall as [H1 H2].
    assert (Hnone : forall l', Forall (fun y => p y = false) l' ->
                               List.filter p l' = []).
    { induction 1 as [|y l' Hy _ IH]; [reflexivity|]. simpl. rewrite Hy. exact IH. }
    rewrite List.filter_app. simpl. rewrite Hx, (Hnone _ H1), (Hnone _ H2).
    reflexivity.
Qed.

(** X25: the script goes on with a channel exactly when one and only one
    column of the capture has the requested name; it then takes that
    column.  A name borne by no column or by two makes it leave with exit
    status 1. *)
Theorem select_channel_unique {T : Type} (channame : string)
    (channels : list (Channel.t T)) :
  (forall channel,
     select_channel channame channels = Done channel <->
     exists before after,
       channels = before ++ channel :: after /\
       Channel.name channel = channame /\
       Forall (fun x => Channel.name x <> channame) (before ++ after)) /\
  ((forall channel, select_channel channame channels <> Done channel) ->
   select_channel channame channels = Failed (SystemExit 1)).
Proof.
  split.
  - intros channel.
    assert (Hsel : select_channel channame channels = Done channel <->
                   List.filter (fun x => String.eqb (Channel.name x) channame)
                               channels = [channel]).
    { unfold select_channel.
      destruct (List.filter _ channels) as [|a [|b l]];
        split; intros Heq; try discriminate; congruence. }
    rewrite Hsel, filter_single. 
    split; intros (l1 & l2 & Hl & Hx & Hall); exists l1, l2;
      (split; [exact Hl|]); (split; [apply String.eqb_eq; exact Hx || (rewrite Hx; reflexivity) |]).
    + eapply Forall_impl; [exact Hall|]. intros y Hy. apply String.eqb_neq. exact Hy.
    + eapply Forall_impl; [exact Hall|]. intros y Hy. apply String.eqb_neq. exact Hy.
  - intros Hnone. unfold select_channel in *.
    destruct (List.filter _ channels) as [|a [|b l]]; try reflexivity.
    exfalso. apply (Hnone a). reflexivity.
Qed.

Lemma emit_all {T : Type} (chr_limit : Z) (decimals : nat)
    (frames : list (T * Z * bool)) (ending : result unit) :
  (forall f, In f frames ->
             output_row chr_limit decimals f = Done (row_of decimals f)) ->
  emit chr_limit decimals frames ending
  = (map (row_of decimals) frames, lift ending).
Proof.
  induction frames as [|f frames IH]; intros Hall; [reflexivity|].
  cbn [emit map]. rewrite (Hall f) by (left; reflexivity).
  rewrite IH by (intros g Hg; apply Hall; right; exact Hg). reflexivity.
Qed.

(** X26: the whole script on a capture it can load: when the capture is
    parsed, one column has the requested name, its levels are 0 and 1 and
    at most 8 data bits are asked for, the script prints one row for each
    frame [recognizeUART] yields over that column, in order, with the
    decimals count of the capture, no row failing in ['%c'], and it ends
    the way [recognizeUART] ends.  For any timestamp arithmetic, binary64
    included. *)
Theorem script_prints_every_frame {T : Type} `{TimeOps T}
    (isspace : ascii -> bool) (py_float : string -> option T)
    (py_int : string -> option Z) (chr_limit : Z) (channame : string)
    (baudrate bits : Z) (all : bool) (lines : list string)
    (chs : list (Channel.t T)) (d : nat) (ch : Channel.t T) :
  parseSaleaeCSV isspace py_float py_int lines = Done (chs, d) ->
  select_channel channame chs = Done ch ->
  (forall e, In e (Channel.entries ch) -> snd e = 0 \/ snd e = 1) ->
  bits <= 8 -> 256 <= chr_limit ->
  script isspace py_float py_int chr_limit channame baudrate bits all lines
  = (map (row_of d) (fst (recognizeUART ch baudrate bits (negb all))),
     lift (snd (recognizeUART ch baudrate bits (negb all)))).
Proof.
  intros Hparse Hsel Hbin Hbits Hlimit.
  unfold script. rewrite Hparse, Hsel.
  pose proof (fun f => frames_are_bytes ch baudrate bits (negb all) f Hbin Hbits)
    as Hbytes.
  destruct (recognizeUART ch baudrate bits (negb all)) as [frames ending].
  cbn [fst snd] in Hbytes |- *.
  apply emit_all. intros f Hf. apply output_row_byte.
  specialize (Hbytes f Hf). lia.
Qed.

Lemma script_prints_every_frame_witness :
  script ascii_space decimal_float decimal_Z 256 "UART_TX" 1200000 8 true
    epilog_lines
  = ([(9%nat, 0x1.72fdccb8c49bfp-2%float, 226, 1, [])], Done tt).
Proof.
  destruct (parseSaleaeCSV ascii_space decimal_float decimal_Z epilog_lines)
    as [[chs d]|e|] eqn:Hparse; try (vm_compute in Hparse; discriminate).
  destruct (select_channel "UART_TX" chs) as [ch|e|] eqn:Hsel;
    try (vm_compute in Hparse; injection Hparse as <- <-;
         vm_compute in Hsel; discriminate).
  assert (Hch : Channel.name ch = "UART_TX"%string /\
                (forall e, In e (Channel.entries ch) -> snd e = 0 \/ snd e = 1) /\
                (map (row_of d) (fst (recognizeUART ch 1200000 8 (negb true))),
                 lift (snd (recognizeUART ch 1200000 8 (negb true))))
                = ([(9%nat, 0x1.72fdccb8c49bfp-2%float, 226, 1, [])], Done tt)).
  { vm_compute in Hparse. injection Hparse as <- <-.
    vm_compute in Hsel. injection Hsel as <-.
    split; [reflexivity|]. split; [|vm_compute; reflexivity].
    intros e He. simpl in He.
    repeat (destruct He as [<-|He]; [simpl; auto|]). destruct He. }
  destruct Hch as (_ & Hbin & Hrun).
  rewrite (script_prints_every_frame ascii_space decimal_float decimal_Z 256
             "UART_TX" 1200000 8 true epilog_lines chs d ch Hparse Hsel Hbin);
    [exact Hrun|lia|lia].
Defined.
